(** * Audiobook generation pipeline: a shallow embedding and its properties

    The development follows the TypeScript sources of the plugin:

    - [TTSOrchestrator]  (segmentation, batching, provider fallback, progress),
    - [VoiceMatchingEngine] (filtering and scoring of candidate voices),
    - [AudioAssembler]  (normalisation, chapter markers, totals, temp files),
    - the [generateSpeech] methods of the ElevenLabs and PlayHT providers,
    - the voice libraries and the private helpers of these two providers
      (labels, emotion modulation, polling),
    - the readers of the configuration ([getEnvNumber] and its companions).

    Conventions of the embedding.

    - A JavaScript string is a [string]: a sequence of code units, restricted
      to the range 0..255 (the Latin-1 part of UTF-16).  All character classes
      below ([\s], [\w], line terminators, [toLowerCase]) are the restrictions
      of the ECMAScript ones to that range.
    - A JavaScript [number] that the code only counts with is a [nat]; a
      [number] that holds seconds, dollars, scores or settings is an exact
      rational [Q].  Sums are kept in the order in which the code adds.
      A [number] parsed from the environment is a double: a whole number
      rounded to the nearest double, [-0], an infinity or [NaN].
    - A [Buffer] is a list of bytes.
    - A rejected promise or a thrown [Error] is the [Err] case of [result],
      carrying the message.
    - The network, the audio engine, the clock, the database and the
      failures of the file system are fields of the records [Env.t] and
      [Engine.t], over which every statement is quantified; the temp
      directory is a finite map from paths to contents. *)

From Stdlib Require Import List String Ascii ZArith QArith Qround Qminmax Lia Lqa Bool.
From Stdlib Require Import Sorting.Permutation Sorting.Sorted.
From stdpp Require Import base option list gmap strings pretty.

Import ListNotations.
Local Open Scope string_scope.
Local Open Scope list_scope.
Local Open Scope nat_scope.

(** ** Results of fallible code *)

Inductive result (A : Type) : Type :=
| Ok (a : A)
| Err (message : string).
Arguments Ok {A} a.
Arguments Err {A} message.

Definition is_ok {A} (r : result A) : bool :=
  match r with Ok _ => true | Err _ => false end.

(** ** The JavaScript primitives the sources rely on *)

Module Js.

Definition chars (s : string) : list ascii := list_ascii_of_string s.
Definition str (l : list ascii) : string := string_of_list_ascii l.

Definition code (c : ascii) : N := N_of_ascii c.

Definition dquote : ascii := ascii_of_N 34.
Definition LF : ascii := ascii_of_N 10.
Definition CR : ascii := ascii_of_N 13.

(** ECMAScript LineTerminator, in range: <LF>, <CR>. *)
Definition isLineTerminator (c : ascii) : bool :=
  (code c =? 10)%N || (code c =? 13)%N.

(** ECMAScript WhiteSpace and LineTerminator, in range: <TAB>, <LF>, <VT>,
    <FF>, <CR>, <SP>, <NBSP>.  This is both [\s] and what [trim] strips. *)
Definition isSpace (c : ascii) : bool :=
  ((9 <=? code c) && (code c <=? 13) || (code c =? 32) || (code c =? 160))%N.

(** [\w] is [A-Za-z0-9_]. *)
Definition isWord (c : ascii) : bool :=
  ((65 <=? code c) && (code c <=? 90) || (97 <=? code c) && (code c <=? 122)
   || (48 <=? code c) && (code c <=? 57) || (code c =? 95))%N.

(** [toLowerCase] on one code unit: A-Z, and the Latin-1 capitals
    U+00C0..U+00DE except the multiplication sign U+00D7. *)
Definition toLowerChar (c : ascii) : ascii :=
  let n := code c in
  if ((65 <=? n) && (n <=? 90)
      || (192 <=? n) && (n <=? 222) && negb (n =? 215))%N
  then ascii_of_N (n + 32) else c.

Fixpoint toLowerCase (s : string) : string :=
  match s with
  | EmptyString => EmptyString
  | String c r => String (toLowerChar c) (toLowerCase r)
  end.

(** [t] starts [s]. *)
Fixpoint startsWith (s t : string) : bool :=
  match t, s with
  | EmptyString, _ => true
  | String _ _, EmptyString => false
  | String b t', String a s' => Ascii.eqb a b && startsWith s' t'
  end.

(** [s.includes(t)]: [t] occurs in [s] as a contiguous substring. *)
Fixpoint includes (s t : string) : bool :=
  startsWith s t ||
  match s with
  | EmptyString => false
  | String _ s' => includes s' t
  end.

(** [s.trim()] *)
Fixpoint trimStart (s : string) : string :=
  match s with
  | EmptyString => EmptyString
  | String c r => if isSpace c then trimStart r else s
  end.

Fixpoint trimEnd (s : string) : string :=
  match s with
  | EmptyString => EmptyString
  | String c r =>
      match trimEnd r with
      | EmptyString => if isSpace c then EmptyString else String c EmptyString
      | r' => String c r'
      end
  end.

Definition trim (s : string) : string := trimEnd (trimStart s).

(** Truthiness of a string: only the empty string is falsy. *)
Definition truthy (s : string) : bool :=
  match s with EmptyString => false | _ => true end.

(** [Math.round]: the integer nearest to [q], halves going up. *)
Definition Math_round (q : Q) : Z := Qfloor (q + (1 # 2)).

(** [Math.min], [Math.max] *)
Definition Math_min (a b : Q) : Q := if Qle_bool a b then a else b.
Definition Math_max (a b : Q) : Q := if Qle_bool a b then b else a.

(** *** Regular expressions

    The patterns of the sources use neither anchors, back-references nor
    look-around, so [test] only asks whether some substring belongs to the
    language of the pattern.  Patterns are kept as syntax and matched with
    derivatives. *)

Inductive regex : Type :=
| Never
| Epsilon
| Class (p : ascii -> bool)
| Cat (r1 r2 : regex)
| Alt (r1 r2 : regex)
| Star (r : regex).

Fixpoint nullable (r : regex) : bool :=
  match r with
  | Never => false
  | Epsilon => true
  | Class _ => false
  | Cat r1 r2 => nullable r1 && nullable r2
  | Alt r1 r2 => nullable r1 || nullable r2
  | Star _ => true
  end.

Fixpoint deriv (c : ascii) (r : regex) : regex :=
  match r with
  | Never => Never
  | Epsilon => Never
  | Class p => if p c then Epsilon else Never
  | Cat r1 r2 =>
      if nullable r1 then Alt (Cat (deriv c r1) r2) (deriv c r2)
      else Cat (deriv c r1) r2
  | Alt r1 r2 => Alt (deriv c r1) (deriv c r2)
  | Star r1 => Cat (deriv c r1) (Star r1)
  end.

(** The whole word [w] belongs to the language of [r]. *)
Fixpoint accepts (r : regex) (w : list ascii) : bool :=
  match w with
  | [] => nullable r
  | c :: w' => accepts (deriv c r) w'
  end.

(** Pattern atoms. *)
Definition chr (c : ascii) : regex := Class (Ascii.eqb c).
(** [.]: any code unit but a line terminator. *)
Definition dot : regex := Class (fun c => negb (isLineTerminator c)).
(** any code unit at all (used for the text around a match). *)
Definition anything : regex := Star (Class (fun _ => true)).
Definition plus (r : regex) : regex := Cat r (Star r).

Fixpoint lit_chars (cs : list ascii) : regex :=
  match cs with
  | [] => Epsilon
  | c :: cs' => Cat (chr c) (lit_chars cs')
  end.
(** a literal word of the pattern *)
Definition lit (s : string) : regex := lit_chars (chars s).

(** a literal word under the [i] flag; the literals of the sources are
    lower-case ASCII letters, which only their two cases match. *)
Fixpoint lit_ci_chars (cs : list ascii) : regex :=
  match cs with
  | [] => Epsilon
  | c :: cs' => Cat (Class (fun x => Ascii.eqb (toLowerChar x) c)) (lit_ci_chars cs')
  end.
Definition lit_ci (s : string) : regex := lit_ci_chars (chars s).

Fixpoint alts (rs : list regex) : regex :=
  match rs with
  | [] => Never
  | r :: rs' => Alt r (alts rs')
  end.

(** [r.test(s)]: some substring of [s] matches. *)
Definition test (r : regex) (s : string) : bool :=
  accepts (Cat anything (Cat r anything)) (chars s).

(** a match of [r] starts at the head of [w]. *)
Definition matchesAtStart (r : regex) (w : list ascii) : bool :=
  accepts (Cat r anything) w.

(** [Array.prototype.sort(cmp)]: the sort is stable, and [a] stays in
    front of a later [b] unless [cmp a b] is positive.  Written as a
    stable insertion sort; any stable sort returns the same array. *)
Section Sort.
Context {A : Type} (cmp : A -> A -> Q).

Fixpoint sort_insert (x : A) (l : list A) : list A :=
  match l with
  | [] => [x]
  | y :: l' =>
      if Qle_bool (cmp x y) 0 then x :: l else y :: sort_insert x l'
  end.

Fixpoint Array_sort (l : list A) : list A :=
  match l with
  | [] => []
  | x :: l' => sort_insert x (Array_sort l')
  end.
End Sort.

(** [Array.prototype.slice(i, j)] for [0 <= i <= j]. *)
Definition slice {A} (i j : nat) (l : list A) : list A :=
  take (j - i) (drop i l).

(** [s.split(/\n\n+/)]: a maximal run of two or more line feeds separates
    two pieces; a single line feed stays inside its piece. *)
Inductive split_state : Type :=
| InPiece (cur : list ascii)       (* reversed characters of the piece *)
| OneLF (cur : list ascii)         (* the piece, then one pending line feed *)
| InSeparator.                     (* two or more line feeds consumed *)

Fixpoint split_go (st : split_state) (w : list ascii) : list string :=
  match w with
  | [] =>
      match st with
      | InPiece cur => [str (rev cur)]
      | OneLF cur => [str (rev (LF :: cur))]
      | InSeparator => [EmptyString]
      end
  | c :: w' =>
      if Ascii.eqb c LF then
        match st with
        | InPiece cur => split_go (OneLF cur) w'
        | OneLF cur => str (rev cur) :: split_go InSeparator w'
        | InSeparator => split_go InSeparator w'
        end
      else
        match st with
        | InPiece cur => split_go (InPiece (c :: cur)) w'
        | OneLF cur => split_go (InPiece (c :: LF :: cur)) w'
        | InSeparator => split_go (InPiece [c]) w'
        end
  end.

Definition split_blank_lines (s : string) : list string :=
  split_go (InPiece []) (chars s).

End Js.

(** ** Data model ([types/index.ts]) *)

Definition Buffer : Type := list Byte.byte.

Inductive SegmentType : Type := narrative | dialogue.
Inductive EmotionType : Type :=
  joy | fear | anger | sadness | neutral_emotion | surprise | disgust.
Inductive TTSProvider : Type := elevenlabs | xtts | playht.
Inductive Gender : Type := male | female | neutral.
Inductive AgeRange : Type := age_0_12 | age_13_19 | age_20_35 | age_36_55 | age_56_plus.
Inductive EmotionalRange : Type := low | medium | high.
Inductive AudioFormat : Type := mp3 | wav | m4b.
Inductive ProgressStage : Type :=
  analyzing_chapters | matching_voices | generating_audio
| assembling_audiobook | finalizing | complete | error.

Module AudioSegment.
Record t : Type := mk {
  id : string;
  sequence_number : nat;
  segment_type : SegmentType;
  character_name : option string;
  text_content : string;
  emotion_detected : option EmotionType;
  emotion_intensity : option Q
}.
End AudioSegment.

Module VoiceSettings.
Record t : Type := mk {
  stability : Q;
  similarity_boost : Q;
  style : option Q;
  use_speaker_boost : option bool
}.
End VoiceSettings.

Module Voice.
Record t : Type := mk {
  id : string;
  name : string;
  provider : TTSProvider;
  gender : Gender;
  age_range : AgeRange;
  accent : string;
  descriptors : list string
}.
End Voice.

Module VoiceProfile.
Record t : Type := mk {
  gender : Gender;
  age_range : AgeRange;
  accent : option string;
  tone : list string;
  emotional_range : EmotionalRange
}.
End VoiceProfile.

Module VoiceAssignment.
Record t : Type := mk {
  character_name : string;
  voice_id : string;
  voice_name : string;
  provider : TTSProvider;
  match_score : Q;
  voice_settings : VoiceSettings.t
}.
End VoiceAssignment.

Module VoiceMatch.
Record t : Type := mk {
  voice_id : string;
  voice_name : string;
  provider : TTSProvider;
  match_score : Q;
  voice_settings : VoiceSettings.t
}.
End VoiceMatch.

Module Chapter.
Record t : Type := mk {
  id : string;
  chapter_number : nat;
  title : string;
  content : string;
  word_count : nat
}.
End Chapter.

Module CharacterBible.
Record t : Type := mk {
  character_name : string;
  age : Q;
  gender : Gender;
  personality : list string;
  background : string;
  speaking_style : string;
  voice_profile : VoiceProfile.t
}.
End CharacterBible.

Module GeneratedAudio.
Record t : Type := mk {
  audio_data : Buffer;
  format : AudioFormat;
  duration : Q;
  provider : TTSProvider;
  cost : Q
}.
End GeneratedAudio.

Module NormalizedAudio.
Record t : Type := mk {
  audio_data : Buffer;
  format : AudioFormat;
  duration : Q;
  normalized_lufs : Q
}.
End NormalizedAudio.

Module ChapterMarker.
Record t : Type := mk {
  chapter_number : nat;
  title : string;
  start_time : Q;
  duration : Q
}.
End ChapterMarker.

Module EmotionContext.
Record t : Type := mk { type : EmotionType; intensity : Q }.
End EmotionContext.

Module TTSGenerationParams.
Record t : Type := mk {
  text : string;
  voice_id : string;
  settings : option VoiceSettings.t;
  emotion : option EmotionContext.t
}.
End TTSGenerationParams.

Module ProgressUpdate.
Record t : Type := mk {
  stage : ProgressStage;
  percent_complete : Z;
  current_segment : option nat;
  total_segments : option nat;
  message : string
}.
End ProgressUpdate.

(** ** The segmenter ([TTSOrchestrator.segmentChapters] and its helpers) *)

Module Segmenter.
Import Js.

(** [/["].*["]/] *)
Definition quoted_span : regex :=
  Cat (chr dquote) (Cat (Star dot) (chr dquote)).

Definition attribution_verbs : list string :=
  ["said"; "asked"; "replied"; "whispered"; "shouted"].

(** [/(said|asked|replied|whispered|shouted)/] *)
Definition attribution : regex := alts (map lit attribution_verbs).

Definition detectDialogue (text : string) : bool :=
  test quoted_span text && test attribution text.

(** [/(\w+)\s+(said|asked|replied|whispered|shouted)/i] *)
Definition name_then_verb : regex :=
  Cat (plus (Class isWord))
      (Cat (plus (Class isSpace)) (alts (map lit_ci attribution_verbs))).

Fixpoint takeWhile {A} (p : A -> bool) (l : list A) : list A :=
  match l with
  | [] => []
  | x :: l' => if p x then x :: takeWhile p l' else []
  end.

(** [text.match(...)] returns the leftmost match.  Group 1 is greedy and
    must be followed by a space, which is not a word character, so it is
    the whole run of word characters at the start of the match. *)
Fixpoint first_match (w : list ascii) : option string :=
  if matchesAtStart name_then_verb w then Some (str (takeWhile isWord w))
  else match w with
       | [] => None
       | _ :: w' => first_match w'
       end.

Definition extractCharacterName (text : string) : option string :=
  first_match (chars text).

(** the object pushed for paragraph number [index] of [chapter] *)
Definition make_segment (chapter : Chapter.t) (index : nat) (paragraph : string)
  : AudioSegment.t :=
  let isDialogue := detectDialogue paragraph in
  let characterName := if isDialogue then extractCharacterName paragraph else None in
  {| AudioSegment.id := Chapter.id chapter +:+ "_seg_" +:+ pretty index;
     AudioSegment.sequence_number := index + 1;
     AudioSegment.segment_type := if isDialogue then dialogue else narrative;
     AudioSegment.character_name := characterName;
     AudioSegment.text_content := trim paragraph;
     AudioSegment.emotion_detected := None;
     AudioSegment.emotion_intensity := None |}.

(** the body of [paragraphs.forEach((paragraph, index) => ...)] *)
Definition visit_paragraph (chapter : Chapter.t)
    (segments : list AudioSegment.t) (entry : nat * string) : list AudioSegment.t :=
  let '(index, paragraph) := entry in
  if truthy (trim paragraph) then segments ++ [make_segment chapter index paragraph]
  else segments.

Definition indexed {A} (l : list A) : list (nat * A) :=
  combine (seq 0 (length l)) l.

(** the body of [for (const chapter of chapters)] *)
Definition visit_chapter (segments : list AudioSegment.t) (chapter : Chapter.t)
  : list AudioSegment.t :=
  let paragraphs := split_blank_lines (Chapter.content chapter) in
  fold_left (visit_paragraph chapter) (indexed paragraphs) segments.

Definition segmentChapters (chapters : list Chapter.t) : list AudioSegment.t :=
  fold_left visit_chapter chapters [].

End Segmenter.

(** ** The collaborators of one run

    What the pipeline reaches through a narrow interface is a field of the
    environment: the configured batch size, the HTTP backends of the
    synthesis providers (a failed request carries its message), the two
    private helpers of the providers that compute in floating point, the
    moment at which the promise of a unit settles within its batch, and the
    project table of the database. *)

Module AudiobookProject.
Record t : Type := mk {
  id : string;
  project_id : string;
  narrator_voice_id : option string;
  status : string;
  total_duration_seconds : Q;
  chapter_count : nat
}.
End AudiobookProject.

Module Env.
Record t : Type := mk {
  batchSize : nat;
  http : TTSProvider -> TTSGenerationParams.t -> result Buffer;
  estimateDuration : TTSProvider -> string -> Q;
  calculateCost : TTSProvider -> nat -> Q;
  query_project : string -> result (option AudiobookProject.t)
}.
End Env.

(** ** The synthesis providers ([generateSpeech]) *)

Module ElevenLabsProvider.
Definition generateSpeech (env : Env.t) (params : TTSGenerationParams.t)
  : result GeneratedAudio.t :=
  let text := TTSGenerationParams.text params in
  match Env.http env elevenlabs params with
  | Ok audioBuffer =>
      Ok {| GeneratedAudio.audio_data := audioBuffer;
            GeneratedAudio.format := mp3;
            GeneratedAudio.duration := Env.estimateDuration env elevenlabs text;
            GeneratedAudio.provider := elevenlabs;
            GeneratedAudio.cost := Env.calculateCost env elevenlabs (String.length text) |}
  | Err message => Err ("ElevenLabs generation failed: " +:+ message)
  end.
End ElevenLabsProvider.

(** The request, the polling and the download of PlayHT are one call of the
    backend. *)
Module PlayHTProvider.
Definition generateSpeech (env : Env.t) (params : TTSGenerationParams.t)
  : result GeneratedAudio.t :=
  let text := TTSGenerationParams.text params in
  match Env.http env playht params with
  | Ok audioBuffer =>
      Ok {| GeneratedAudio.audio_data := audioBuffer;
            GeneratedAudio.format := mp3;
            GeneratedAudio.duration := Env.estimateDuration env playht text;
            GeneratedAudio.provider := playht;
            GeneratedAudio.cost := Env.calculateCost env playht (String.length text) |}
  | Err message => Err ("PlayHT generation failed: " +:+ message)
  end.
End PlayHTProvider.

(** ** [Promise.all]

    A started promise is the moment at which it settles together with its
    outcome.  [Promise.all] handles the settlements in the order of those
    moments: a fulfilment stores its value at the index of its promise, the
    first rejection rejects the whole, and when nothing is left the stored
    values are the result.  The second component lists the settlements that
    were observed, by index. *)

Module Promise.
Section All.
Context {A : Type}.

Definition started : Type := (nat * result A)%type.

Definition earlier (a b : nat * started) : Q :=
  (inject_Z (Z.of_nat (fst (snd a))) - inject_Z (Z.of_nat (fst (snd b))))%Q.

Definition completion_order (promises : list started) : list (nat * started) :=
  Js.Array_sort earlier (Segmenter.indexed promises).

Fixpoint settle (order : list (nat * started)) (values : list (option A))
  : result (list A) * list (nat * bool) :=
  match order with
  | [] => (Ok (omap id values), [])
  | (index, (_, Ok value)) :: rest =>
      let '(r, seen) := settle rest (<[index := Some value]> values) in
      (r, (index, true) :: seen)
  | (index, (_, Err message)) :: _ => (Err message, [(index, false)])
  end.

Definition all (promises : list started) : result (list A) * list (nat * bool) :=
  settle (completion_order promises) (replicate (length promises) None).
End All.
End Promise.

(** ** The generation orchestrator *)

Module TTSOrchestrator.
Import Js.

(** what one run lets an observer see of the batching *)
Inductive event : Type :=
| BatchDispatched (i size : nat)      (* [Promise.all(batch.map(...))] for the batch at offset [i] *)
| UnitStarted (j : nat)               (* [generateSingleSegment(segments[j], ...)] is called *)
| UnitSettled (j : nat) (ok : bool)   (* its promise settles *)
| Progress (current total : nat).     (* [progressCallback(current, total)] *)

Definition provider_call : Type := (TTSProvider * TTSGenerationParams.t)%type.

Definition option_truthy (s : option string) : bool :=
  match s with Some s' => truthy s' | None => false end.

Definition findVoiceAssignment (characterName : option string)
    (assignments : list VoiceAssignment.t) : option VoiceAssignment.t :=
  match characterName with
  | Some name =>
      if truthy name then
        List.find (fun a => String.eqb (toLowerCase (VoiceAssignment.character_name a))
                                       (toLowerCase name)) assignments
      else
        List.find (fun a => String.eqb (VoiceAssignment.character_name a) "narrator")
                  assignments
  | None =>
      List.find (fun a => String.eqb (VoiceAssignment.character_name a) "narrator")
                assignments
  end.

Definition emotion_of (segment : AudioSegment.t) : option EmotionContext.t :=
  match AudioSegment.emotion_detected segment with
  | Some e =>
      Some {| EmotionContext.type := e;
              EmotionContext.intensity :=
                match AudioSegment.emotion_intensity segment with
                | Some q => if Qeq_bool q 0 then 1 # 2 else q
                | None => 1 # 2
                end |}
  | None => None
  end.

Definition params_of (segment : AudioSegment.t) (assignment : VoiceAssignment.t)
  : TTSGenerationParams.t :=
  {| TTSGenerationParams.text := AudioSegment.text_content segment;
     TTSGenerationParams.voice_id := VoiceAssignment.voice_id assignment;
     TTSGenerationParams.settings := Some (VoiceAssignment.voice_settings assignment);
     TTSGenerationParams.emotion := emotion_of segment |}.

Section Run.
Context (env : Env.t).

(** The outcome for one unit, with the provider calls made for it, in
    order. *)
Definition generateSingleSegment (segment : AudioSegment.t)
    (assignments : list VoiceAssignment.t)
  : result GeneratedAudio.t * list provider_call :=
  match findVoiceAssignment (AudioSegment.character_name segment) assignments with
  | None =>
      (Err ("No voice assignment found for segment: " +:+ AudioSegment.id segment), [])
  | Some assignment =>
      let params := params_of segment assignment in
      match ElevenLabsProvider.generateSpeech env params with
      | Ok audio => (Ok audio, [(elevenlabs, params)])
      | Err _ =>
          match PlayHTProvider.generateSpeech env params with
          | Ok audio => (Ok audio, [(elevenlabs, params); (playht, params)])
          | Err _ =>
              (Err "Failed to generate audio for segment",
               [(elevenlabs, params); (playht, params)])
          end
      end
  end.

Section Batches.
Context (latency : AudioSegment.t -> nat).
Context (segments : list AudioSegment.t) (assignments : list VoiceAssignment.t).

Definition start_unit (segment : AudioSegment.t) : Promise.started :=
  (latency segment, fst (generateSingleSegment segment assignments)).

Definition batch_events (i : nat) (batch : list AudioSegment.t)
    (seen : list (nat * bool)) : list event :=
  BatchDispatched i (length batch)
    :: map UnitStarted (seq i (length batch))
    ++ map (fun s => UnitSettled (i + fst s) (snd s)) seen.

(** The loop [for (let i = ...; i < segments.length; i += batchSize)],
    from offset [i] on.  [None]: the fuel ran out before the loop ended. *)
Fixpoint generateSegments_from (fuel i : nat) (results : list GeneratedAudio.t)
    (trace : list event)
  : option (result (list GeneratedAudio.t) * list event) :=
  match fuel with
  | O => None
  | S fuel' =>
      if i <? length segments then
        let batch := slice i (i + Env.batchSize env) segments in
        let '(batchResults, seen) := Promise.all (map start_unit batch) in
        match batchResults with
        | Ok audios =>
            generateSegments_from fuel' (i + Env.batchSize env) (results ++ audios)
              (trace ++ batch_events i batch seen
                     ++ [Progress (i + length batch) (length segments)])
        | Err message => Some (Err message, trace ++ batch_events i batch seen)
        end
      else Some (Ok results, trace)
  end.

Definition generateSegments (fuel : nat)
  : option (result (list GeneratedAudio.t) * list event) :=
  generateSegments_from fuel 0 [] [].
End Batches.

(** the closure handed to [generateSegments] by [generateAudiobook] *)
Definition batch_update (current total : nat) : ProgressUpdate.t :=
  let percent : Q :=
    (10 + (inject_Z (Z.of_nat current) / inject_Z (Z.of_nat total)) * 80)%Q in
  {| ProgressUpdate.stage := generating_audio;
     ProgressUpdate.percent_complete := Math_round percent;
     ProgressUpdate.current_segment := Some current;
     ProgressUpdate.total_segments := Some total;
     ProgressUpdate.message :=
       "Generating segment " +:+ pretty current +:+ "/" +:+ pretty total |}.

Definition updates_of (e : event) : list ProgressUpdate.t :=
  match e with
  | Progress current total => [batch_update current total]
  | _ => []
  end.

Definition plain_update (stage : ProgressStage) (percent : Z) (message : string)
  : ProgressUpdate.t :=
  {| ProgressUpdate.stage := stage;
     ProgressUpdate.percent_complete := percent;
     ProgressUpdate.current_segment := None;
     ProgressUpdate.total_segments := None;
     ProgressUpdate.message := message |}.

(** the update sent from the [catch] block *)
Definition error_update (message : string) : ProgressUpdate.t :=
  plain_update error 0 ("Generation failed: " +:+ message).

(** [saveAudioSegments] only logs. *)
Definition saveAudioSegments (project_id : string) (audios : list GeneratedAudio.t)
  : result unit := Ok tt.

Definition getAudiobookProject (project_id : string)
  : result (option AudiobookProject.t) := Env.query_project env project_id.

(** One run: what the caller gets, and the updates the progress callback
    received, in order. *)
Definition generateAudiobook (latency : AudioSegment.t -> nat) (fuel : nat)
    (project_id : string) (chapters : list Chapter.t)
    (voice_assignments : list VoiceAssignment.t)
  : option (result (option AudiobookProject.t) * list ProgressUpdate.t) :=
  let segments := Segmenter.segmentChapters chapters in
  let opening :=
    [ plain_update analyzing_chapters 5 "Analyzing chapters and splitting into segments";
      {| ProgressUpdate.stage := generating_audio;
         ProgressUpdate.percent_complete := 10;
         ProgressUpdate.current_segment := Some 0;
         ProgressUpdate.total_segments := Some (length segments);
         ProgressUpdate.message := "Generating audio segments" |} ] in
  match generateSegments latency segments voice_assignments fuel with
  | None => None
  | Some (Err message, trace) =>
      Some (Err message, opening ++ flat_map updates_of trace ++ [error_update message])
  | Some (Ok audioSegments, trace) =>
      let sent :=
        opening ++ flat_map updates_of trace
          ++ [plain_update finalizing 95 "Finalizing audiobook project"] in
      match saveAudioSegments project_id audioSegments with
      | Err message => Some (Err message, sent ++ [error_update message])
      | Ok _ =>
          let sent := sent ++ [plain_update complete 100 "Audiobook generation complete"] in
          match getAudiobookProject project_id with
          | Ok project => Some (Ok project, sent)
          | Err message => Some (Err message, sent ++ [error_update message])
          end
      end
  end.
End Run.

End TTSOrchestrator.

(** ** The voice matcher ([VoiceMatchingEngine]) *)

Module VoiceMatchingEngine.
Import Js.

Definition Gender_eqb (a b : Gender) : bool :=
  match a, b with
  | male, male | female, female | neutral, neutral => true
  | _, _ => false
  end.

Definition AgeRange_eqb (a b : AgeRange) : bool :=
  match a, b with
  | age_0_12, age_0_12 | age_13_19, age_13_19 | age_20_35, age_20_35
  | age_36_55, age_36_55 | age_56_plus, age_56_plus => true
  | _, _ => false
  end.

Definition filterByGender (voices : list Voice.t) (gender : Gender) : list Voice.t :=
  List.filter (fun v => Gender_eqb (Voice.gender v) gender
                        || Gender_eqb (Voice.gender v) neutral) voices.

Definition getAgeRangeFromAge (age : Q) : AgeRange :=
  if Qle_bool age 12 then age_0_12
  else if Qle_bool age 19 then age_13_19
  else if Qle_bool age 35 then age_20_35
  else if Qle_bool age 55 then age_36_55
  else age_56_plus.

(** [ranges.indexOf(r)] for
    [ranges = ['0-12', '13-19', '20-35', '36-55', '56+']] *)
Definition indexOf (r : AgeRange) : Z :=
  match r with
  | age_0_12 => 0 | age_13_19 => 1 | age_20_35 => 2 | age_36_55 => 3 | age_56_plus => 4
  end%Z.

Definition areAdjacentAgeRanges (range1 range2 : AgeRange) : bool :=
  (Z.abs (indexOf range1 - indexOf range2) =? 1)%Z.

Definition filterByAgeRange (voices : list Voice.t) (age : Q) : list Voice.t :=
  let targetRange := getAgeRangeFromAge age in
  List.filter (fun v => AgeRange_eqb (Voice.age_range v) targetRange
                        || areAdjacentAgeRanges (Voice.age_range v) targetRange) voices.

Definition filterByAccent (voices : list Voice.t) (accent : string) : list Voice.t :=
  let normalizedAccent := toLowerCase accent in
  List.filter (fun v =>
                 let voiceAccent := toLowerCase (Voice.accent v) in
                 String.eqb voiceAccent normalizedAccent
                 || String.eqb voiceAccent "neutral"
                 || String.eqb voiceAccent "american") voices.

(** the condition of the inner loop *)
Definition tags_match (tone descriptor : string) : bool :=
  includes descriptor tone || includes tone descriptor.

(** the two nested [for] loops, carrying [matchCount] *)
Definition count_matches (normalizedTone normalizedDescriptors : list string) : nat :=
  fold_left
    (fun matchCount tone =>
       fold_left
         (fun matchCount descriptor =>
            if tags_match tone descriptor then matchCount + 1 else matchCount)
         normalizedDescriptors matchCount)
    normalizedTone 0.

(** The quotient is kept exact; two quotients of such small counts are
    ordered as their double-precision values are. *)
Definition calculatePersonalityMatch (voiceDescriptors characterTone : list string) : Q :=
  if (length characterTone =? 0) || (length voiceDescriptors =? 0) then 1 # 2
  else
    let normalizedTone := map toLowerCase characterTone in
    let normalizedDescriptors := map toLowerCase voiceDescriptors in
    let matchCount := count_matches normalizedTone normalizedDescriptors in
    let maxMatches := Nat.max (length normalizedTone) (length normalizedDescriptors) in
    let score : Q :=
      (inject_Z (Z.of_nat matchCount) / inject_Z (Z.of_nat maxMatches))%Q in
    Math_min 1 score.

(** [list.some(t => words.includes(t.toLowerCase()))] *)
Definition some_tone_in (words tone : list string) : bool :=
  existsb (fun t => existsb (String.eqb (toLowerCase t)) words) tone.

Definition optimizeSettings (_voice : Voice.t) (profile : VoiceProfile.t)
  : VoiceSettings.t :=
  let '(stability, style) :=
    match VoiceProfile.emotional_range profile with
    | low => (8 # 10, 3 # 10)%Q
    | medium => (65 # 100, 5 # 10)%Q
    | high => (5 # 10, 8 # 10)%Q
    end in
  let stability :=
    if some_tone_in ["calm"; "serene"; "gentle"] (VoiceProfile.tone profile)
    then Math_min (85 # 100) (stability + (1 # 10))%Q else stability in
  let '(stability, style) :=
    (if some_tone_in ["energetic"; "dynamic"; "lively"] (VoiceProfile.tone profile)
     then (Math_max (4 # 10) (stability - (15 # 100))%Q, (8 # 10)%Q)
     else (stability, style)) in
  {| VoiceSettings.stability := stability;
     VoiceSettings.similarity_boost := 75 # 100;
     VoiceSettings.style := Some style;
     VoiceSettings.use_speaker_boost := Some true |}.

(** the survivors of the three filter stages, in pool order *)
Definition candidates_of (character_bible : CharacterBible.t)
    (available_voices : list Voice.t) : list Voice.t :=
  let candidates := filterByGender available_voices (CharacterBible.gender character_bible) in
  let candidates := filterByAgeRange candidates (CharacterBible.age character_bible) in
  match VoiceProfile.accent (CharacterBible.voice_profile character_bible) with
  | Some accent => if truthy accent then filterByAccent candidates accent else candidates
  | None => candidates
  end.

Definition score_of (character_bible : CharacterBible.t) (voice : Voice.t) : Q :=
  calculatePersonalityMatch (Voice.descriptors voice)
    (VoiceProfile.tone (CharacterBible.voice_profile character_bible)).

(** the comparator [(a, b) => b.score - a.score] *)
Definition by_score_desc (a b : Voice.t * Q) : Q := (snd b - snd a)%Q.

Definition matchCharacterToVoice (character_bible : CharacterBible.t)
    (available_voices : list Voice.t) : result VoiceMatch.t :=
  let candidates := candidates_of character_bible available_voices in
  let scored := map (fun voice => (voice, score_of character_bible voice)) candidates in
  let scored := Array_sort by_score_desc scored in
  match scored with
  | [] =>
      Err ("No suitable voice found for character: "
             +:+ CharacterBible.character_name character_bible)
  | best :: _ =>
      Ok {| VoiceMatch.voice_id := Voice.id (fst best);
            VoiceMatch.voice_name := Voice.name (fst best);
            VoiceMatch.provider := Voice.provider (fst best);
            VoiceMatch.match_score := snd best;
            VoiceMatch.voice_settings :=
              optimizeSettings (fst best) (CharacterBible.voice_profile character_bible) |}
  end.

(** failures are logged and skipped *)
Definition batchMatchCharactersToVoices (characters : list CharacterBible.t)
    (available_voices : list Voice.t) : list VoiceMatch.t :=
  fold_left
    (fun matches character =>
       match matchCharacterToVoice character available_voices with
       | Ok m => matches ++ [m]
       | Err _ => matches
       end)
    characters [].

End VoiceMatchingEngine.

(** ** The audio assembler ([AudioAssembler]) *)

Module AudiobookMetadata.
Record t : Type := mk {
  title : string;
  author : string;
  narrator : string;
  publisher : string;
  language : string
}.
End AudiobookMetadata.

Module AssembledAudiobook.
Record t : Type := mk {
  mp3_file : option Buffer;
  m4b_file : option Buffer;
  total_duration : Q;
  total_cost : Q;
  chapters : list ChapterMarker.t;
  metadata : AudiobookMetadata.t
}.
End AssembledAudiobook.

(** The temp directory and the clock.  [files] maps the path of every
    existing file to its content; [reads] counts the calls of [Date.now()]
    so far. *)
Module World.
Record t : Type := mk {
  files : gmap string Buffer;
  reads : nat
}.
End World.

(** the calls of [fs/promises] that the assembler makes *)
Inductive FsCall : Type := fs_writeFile | fs_readFile | fs_unlink.

(** The audio engine, the clock and the file system, as the assembler
    reaches them: [now k] is what the [k]-th call of [Date.now()] returns,
    [loudnorm lufs] is the ffmpeg run of [normalizeAudio] as a function of
    the input file, [to_m4b] the one of [generateM4B], and [refuses call path]
    is the message with which the file system rejects [call] on [path] for a
    reason of its own (a missing or read-only directory, a full disk), if it
    does; [partial path data] is what a rejected write of [data] leaves at
    [path], if anything. *)
Module Engine.
Record t : Type := mk {
  tempDir : string;
  normalizationLUFS : Q;
  now : nat -> Z;
  loudnorm : Q -> Buffer -> result Buffer;
  to_m4b : Buffer -> result Buffer;
  refuses : FsCall -> string -> option string;
  partial : string -> Buffer -> option Buffer
}.
End Engine.

Module AudioAssembler.

(** Code that reads and writes the world and may throw; the world as it
    is when the error is thrown stays observable. *)
Definition M (A : Type) : Type := World.t -> result A * World.t.

Definition ret {A} (a : A) : M A := fun w => (Ok a, w).
Definition throw {A} (message : string) : M A := fun w => (Err message, w).
Definition bind {A B} (m : M A) (k : A -> M B) : M B :=
  fun w => match m w with
           | (Ok a, w') => k a w'
           | (Err message, w') => (Err message, w')
           end.
(** [try { body } catch (error) { handler(error) }] *)
Definition try_catch {A} (body : M A) (handler : string -> M A) : M A :=
  fun w => match body w with
           | (Ok a, w') => (Ok a, w')
           | (Err message, w') => handler message w'
           end.

Notation "'let_await' x <- m ; k" := (bind m (fun x => k))
  (at level 10, x name, m at level 100, k at level 200).
Notation "'await' m ; k" := (bind m (fun _ => k))
  (at level 10, m at level 100, k at level 200).

Definition path_join (dir name : string) : string := dir +:+ "/" +:+ name.

Definition extension (f : AudioFormat) : string :=
  match f with mp3 => "mp3" | wav => "wav" | m4b => "m4b" end.

Section Assembly.
Context (engine : Engine.t).

Definition Date_now : M Z :=
  fun w => (Ok (Engine.now engine (World.reads w)),
            {| World.files := World.files w; World.reads := S (World.reads w) |}).

Definition writeFile (path : string) (data : Buffer) : M unit :=
  fun w => match Engine.refuses engine fs_writeFile path with
           | Some message =>
               (Err message,
                {| World.files :=
                     match Engine.partial engine path data with
                     | Some remains => <[path := remains]> (World.files w)
                     | None => World.files w
                     end;
                   World.reads := World.reads w |})
           | None =>
               (Ok tt, {| World.files := <[path := data]> (World.files w);
                          World.reads := World.reads w |})
           end.

Definition readFile (path : string) : M Buffer :=
  fun w => match Engine.refuses engine fs_readFile path with
           | Some message => (Err message, w)
           | None =>
               match World.files w !! path with
               | Some data => (Ok data, w)
               | None => (Err ("ENOENT: no such file or directory, open " +:+ path), w)
               end
           end.

Definition unlink (path : string) : M unit :=
  fun w => match Engine.refuses engine fs_unlink path with
           | Some message => (Err message, w)
           | None =>
               match World.files w !! path with
               | Some _ =>
                   (Ok tt, {| World.files := delete path (World.files w);
                              World.reads := World.reads w |})
               | None => (Err ("ENOENT: no such file or directory, unlink " +:+ path), w)
               end
           end.

(** [ffmpeg(input)...output(output).run()], awaited: the engine reads the
    input file and, when it succeeds, leaves the output file. *)
Definition ffmpeg (filter : Buffer -> result Buffer) (input output : string) : M unit :=
  fun w => match World.files w !! input with
           | Some data =>
               match filter data with
               | Ok encoded =>
                   (Ok tt, {| World.files := <[output := encoded]> (World.files w);
                              World.reads := World.reads w |})
               | Err message => (Err message, w)
               end
           | None => (Err (input +:+ ": No such file or directory"), w)
           end.

(** the body of the [try] block of [normalizeAudio], for one segment *)
Definition normalize_segment (segment : GeneratedAudio.t) : M NormalizedAudio.t :=
  let_await t1 <- Date_now;
  let tempInput :=
    path_join (Engine.tempDir engine)
      ("input_" +:+ pretty t1 +:+ "." +:+ extension (GeneratedAudio.format segment)) in
  let_await t2 <- Date_now;
  let tempOutput :=
    path_join (Engine.tempDir engine) ("output_" +:+ pretty t2 +:+ ".mp3") in
  await writeFile tempInput (GeneratedAudio.audio_data segment);
  await ffmpeg (Engine.loudnorm engine (Engine.normalizationLUFS engine)) tempInput tempOutput;
  let_await normalizedData <- readFile tempOutput;
  await unlink tempInput;
  await unlink tempOutput;
  ret {| NormalizedAudio.audio_data := normalizedData;
         NormalizedAudio.format := mp3;
         NormalizedAudio.duration := GeneratedAudio.duration segment;
         NormalizedAudio.normalized_lufs := Engine.normalizationLUFS engine |}.

(** [for (const segment of segments)], carrying [normalized] *)
Fixpoint normalize_from (segments : list GeneratedAudio.t)
    (normalized : list NormalizedAudio.t) : M (list NormalizedAudio.t) :=
  match segments with
  | [] => ret normalized
  | segment :: rest =>
      let_await audio <- try_catch (normalize_segment segment) (fun error => throw error);
      normalize_from rest (normalized ++ [audio])
  end.

Definition normalizeAudio (segments : list GeneratedAudio.t)
  : M (list NormalizedAudio.t) := normalize_from segments [].

(** the callback of [normalized.forEach((segment, index) => ...)], carrying
    [chapters] and [currentTime] *)
Definition add_marker (acc : list ChapterMarker.t * Q) (entry : nat * NormalizedAudio.t)
  : list ChapterMarker.t * Q :=
  let '(chapters, currentTime) := acc in
  let '(index, segment) := entry in
  (chapters ++ [ {| ChapterMarker.chapter_number := index + 1;
                    ChapterMarker.title := "Chapter " +:+ pretty (index + 1);
                    ChapterMarker.start_time := currentTime;
                    ChapterMarker.duration := NormalizedAudio.duration segment |} ],
   (currentTime + NormalizedAudio.duration segment)%Q).

Definition addChapterMarkers (normalized : list NormalizedAudio.t)
  : Buffer * list ChapterMarker.t :=
  let combinedAudio := concat (map NormalizedAudio.audio_data normalized) in
  let '(chapters, _) :=
    fold_left add_marker (Segmenter.indexed normalized) ([], 0%Q) in
  (combinedAudio, chapters).

Definition generateMP3 (data : Buffer * list ChapterMarker.t) : M Buffer :=
  ret (fst data).

Definition generateM4B (data : Buffer * list ChapterMarker.t) : M Buffer :=
  let_await t1 <- Date_now;
  let tempInput :=
    path_join (Engine.tempDir engine) ("input_" +:+ pretty t1 +:+ ".mp3") in
  let_await t2 <- Date_now;
  let tempOutput :=
    path_join (Engine.tempDir engine) ("output_" +:+ pretty t2 +:+ ".m4b") in
  try_catch
    (await writeFile tempInput (fst data);
     await ffmpeg (Engine.to_m4b engine) tempInput tempOutput;
     let_await m4bData <- readFile tempOutput;
     await unlink tempInput;
     await unlink tempOutput;
     ret m4bData)
    (fun error => throw error).

Definition calculateTotalDuration (normalized : list NormalizedAudio.t) : Q :=
  fold_left (fun sum audio => (sum + NormalizedAudio.duration audio)%Q) normalized 0%Q.

Definition calculateCost (segments : list GeneratedAudio.t) : Q :=
  fold_left (fun sum segment => (sum + GeneratedAudio.cost segment)%Q) segments 0%Q.

Definition assembleAudiobook (audio_segments : list GeneratedAudio.t)
    (metadata : AudiobookMetadata.t) : M AssembledAudiobook.t :=
  try_catch
    (let_await normalized <- normalizeAudio audio_segments;
     let withMarkers := addChapterMarkers normalized in
     let_await mp3_data <- generateMP3 withMarkers;
     let_await m4b_data <- generateM4B withMarkers;
     let duration := calculateTotalDuration normalized in
     let cost := calculateCost audio_segments in
     ret {| AssembledAudiobook.mp3_file := Some mp3_data;
            AssembledAudiobook.m4b_file := Some m4b_data;
            AssembledAudiobook.total_duration := duration;
            AssembledAudiobook.total_cost := cost;
            AssembledAudiobook.chapters := snd withMarkers;
            AssembledAudiobook.metadata := metadata |})
    (fun error => throw error).
End Assembly.

End AudioAssembler.

(** * Specification vocabulary

    The notions in which the properties below are stated. *)

(** the sum of a list of rationals *)
Definition Qsum (l : list Q) : Q := fold_right Qplus 0%Q l.

(** [l] is strictly increasing *)
Definition strictly_increasing (l : list nat) : Prop :=
  forall i j a b, l !! i = Some a -> l !! j = Some b -> i < j -> a < b.

(** [l] has no gaps: consecutive entries differ by one *)
Definition dense (l : list nat) : Prop :=
  forall i a b, l !! i = Some a -> l !! (S i) = Some b -> b = S a.

(** [l] never decreases *)
Definition non_decreasing (l : list Z) : Prop :=
  forall i j a b, l !! i = Some a -> l !! j = Some b -> i <= j -> (a <= b)%Z.

(** [a] is the first entry of [l] that satisfies [P] *)
Definition first_such {A} (P : A -> Prop) (l : list A) (a : A) : Prop :=
  exists before after,
    l = before ++ a :: after /\ P a /\ Forall (fun x => ~ P x) before.

(** [t] occurs in [s] *)
Definition occurs_in (t s : string) : Prop :=
  exists before after, s = before +:+ t +:+ after.

(** the markers of [l], numbered from [k + 1], the first starting at [t] *)
Fixpoint markers_from (k : nat) (t : Q) (l : list NormalizedAudio.t)
  : list ChapterMarker.t :=
  match l with
  | [] => []
  | segment :: rest =>
      {| ChapterMarker.chapter_number := k + 1;
         ChapterMarker.title := "Chapter " +:+ pretty (k + 1);
         ChapterMarker.start_time := t;
         ChapterMarker.duration := NormalizedAudio.duration segment |}
        :: markers_from (S k) (t + NormalizedAudio.duration segment)%Q rest
  end.

(** three normalised fragments of 10, 20 and 15 seconds *)
Definition three_fragments : list NormalizedAudio.t :=
  map (fun d => {| NormalizedAudio.audio_data := [];
                   NormalizedAudio.format := mp3;
                   NormalizedAudio.duration := d;
                   NormalizedAudio.normalized_lufs := (-23)%Q |})
      [10%Q; 20%Q; 15%Q].

(** a voice passes the three filter stages for a character *)
Definition survives (character_bible : CharacterBible.t) (v : Voice.t) : bool :=
  let targetRange := VoiceMatchingEngine.getAgeRangeFromAge (CharacterBible.age character_bible) in
  (VoiceMatchingEngine.Gender_eqb (Voice.gender v) (CharacterBible.gender character_bible)
   || VoiceMatchingEngine.Gender_eqb (Voice.gender v) neutral)
  && (VoiceMatchingEngine.AgeRange_eqb (Voice.age_range v) targetRange
      || VoiceMatchingEngine.areAdjacentAgeRanges (Voice.age_range v) targetRange)
  && match VoiceProfile.accent (CharacterBible.voice_profile character_bible) with
     | Some accent =>
         if Js.truthy accent then
           String.eqb (Js.toLowerCase (Voice.accent v)) (Js.toLowerCase accent)
           || String.eqb (Js.toLowerCase (Voice.accent v)) "neutral"
           || String.eqb (Js.toLowerCase (Voice.accent v)) "american"
         else true
     | None => true
     end.

(** the number of pairs (tone tag, descriptor tag), both lower-cased, of
    which one contains the other *)
Definition overlap (tone descriptors : list string) : nat :=
  length (List.filter
            (fun p => VoiceMatchingEngine.tags_match (fst p) (snd p))
            (list_prod (map Js.toLowerCase tone) (map Js.toLowerCase descriptors))).

(** the match returned for a winning voice *)
Definition match_of (character_bible : CharacterBible.t) (best : Voice.t) : VoiceMatch.t :=
  {| VoiceMatch.voice_id := Voice.id best;
     VoiceMatch.voice_name := Voice.name best;
     VoiceMatch.provider := Voice.provider best;
     VoiceMatch.match_score := VoiceMatchingEngine.score_of character_bible best;
     VoiceMatch.voice_settings :=
       VoiceMatchingEngine.optimizeSettings best (CharacterBible.voice_profile character_bible) |}.

(** some filter stage leaves no candidate *)
Definition stage_emptied (character_bible : CharacterBible.t) (pool : list Voice.t) : Prop :=
  let by_gender :=
    VoiceMatchingEngine.filterByGender pool (CharacterBible.gender character_bible) in
  let by_age :=
    VoiceMatchingEngine.filterByAgeRange by_gender (CharacterBible.age character_bible) in
  by_gender = [] \/ by_age = []
  \/ exists accent,
      VoiceProfile.accent (CharacterBible.voice_profile character_bible) = Some accent
      /\ Js.truthy accent = true
      /\ VoiceMatchingEngine.filterByAccent by_age accent = [].

(** the error thrown when no candidate is left *)
Definition no_suitable_voice (character_bible : CharacterBible.t) : string :=
  "No suitable voice found for character: " +:+ CharacterBible.character_name character_bible.

(** the comparator [(a, b) => key(b) - key(a)] *)
Definition descending {A} (key : A -> Q) (a b : A) : Q := (key b - key a)%Q.

(** a character with the given gender, age, accent preference and tone *)
Definition character (gender : Gender) (age : Q) (accent : option string)
    (tone : list string) : CharacterBible.t :=
  {| CharacterBible.character_name := "Ann";
     CharacterBible.age := age;
     CharacterBible.gender := gender;
     CharacterBible.personality := [];
     CharacterBible.background := "";
     CharacterBible.speaking_style := "";
     CharacterBible.voice_profile :=
       {| VoiceProfile.gender := gender;
          VoiceProfile.age_range := VoiceMatchingEngine.getAgeRangeFromAge age;
          VoiceProfile.accent := accent;
          VoiceProfile.tone := tone;
          VoiceProfile.emotional_range := medium |} |}.

(** a voice of the ElevenLabs catalogue *)
Definition voice (id : string) (gender : Gender) (age_range : AgeRange)
    (descriptors : list string) : Voice.t :=
  {| Voice.id := id; Voice.name := id; Voice.provider := elevenlabs;
     Voice.gender := gender; Voice.age_range := age_range;
     Voice.accent := "american"; Voice.descriptors := descriptors |}.

(** two female voices and a neutral one: the last two tie on the tone "calm" *)
Definition sample_pool : list Voice.t :=
  [ voice "v-dynamic" female age_20_35 ["dynamic"];
    voice "v-warm" female age_20_35 ["warm"; "calm"];
    voice "v-calm" neutral age_36_55 ["Calm"; "bright"] ].

(** a pool of male voices only *)
Definition male_pool : list Voice.t :=
  [ voice "m-1" male age_20_35 ["warm"]; voice "m-2" male age_36_55 ["calm"] ].

(** ** Vocabulary for the orchestrator *)

(** What the fallback policy allows for one unit with request [params]: the
    primary provider alone when it answers; otherwise the primary and then
    the fallback, whose answer is the result; and an error when both fail. *)
Inductive fallback_outcome (env : Env.t) (params : TTSGenerationParams.t)
  : result GeneratedAudio.t * list TTSOrchestrator.provider_call -> Prop :=
| primary_answers audio :
    ElevenLabsProvider.generateSpeech env params = Ok audio ->
    fallback_outcome env params (Ok audio, [(elevenlabs, params)])
| fallback_answers message audio :
    ElevenLabsProvider.generateSpeech env params = Err message ->
    PlayHTProvider.generateSpeech env params = Ok audio ->
    fallback_outcome env params (Ok audio, [(elevenlabs, params); (playht, params)])
| providers_exhausted message1 message2 :
    ElevenLabsProvider.generateSpeech env params = Err message1 ->
    PlayHTProvider.generateSpeech env params = Err message2 ->
    fallback_outcome env params
      (Err "Failed to generate audio for segment",
       [(elevenlabs, params); (playht, params)]).

(** The units in flight after the events of [trace], starting from the
    units [pending]; [None] when a batch is dispatched while a unit of an
    earlier batch is still in flight. *)
Fixpoint in_flight (pending : list nat) (trace : list TTSOrchestrator.event)
  : option (list nat) :=
  match trace with
  | [] => Some pending
  | TTSOrchestrator.BatchDispatched _ _ :: rest =>
      match pending with
      | [] => in_flight [] rest
      | _ :: _ => None
      end
  | TTSOrchestrator.UnitStarted j :: rest => in_flight (j :: pending) rest
  | TTSOrchestrator.UnitSettled j _ :: rest =>
      in_flight (List.filter (fun k => negb (k =? j)) pending) rest
  | TTSOrchestrator.Progress _ _ :: rest => in_flight pending rest
  end.

(** no batch of [trace] starts before the previous ones have settled *)
Definition batches_do_not_overlap (trace : list TTSOrchestrator.event) : Prop :=
  in_flight [] trace <> None.

(** the batches dispatched in [trace]: offset and size, in order *)
Fixpoint dispatched (trace : list TTSOrchestrator.event) : list (nat * nat) :=
  match trace with
  | [] => []
  | TTSOrchestrator.BatchDispatched i size :: rest => (i, size) :: dispatched rest
  | _ :: rest => dispatched rest
  end.

(** [batches] cuts the units [i .. n-1] into consecutive batches of [b]
    units, the last one possibly smaller *)
Inductive batches_cover (n b : nat) : nat -> list (nat * nat) -> Prop :=
| cover_done i : n <= i -> batches_cover n b i []
| cover_step i batches :
    i < n -> batches_cover n b (i + b) batches ->
    batches_cover n b i ((i, Nat.min b (n - i)) :: batches).

(** the values stored by the fulfilments of [order], over [values] *)
Fixpoint stored {A} (order : list (nat * (nat * result A))) (values : list (option A))
  : list (option A) :=
  match order with
  | [] => values
  | (index, (_, Ok value)) :: rest => stored rest (<[index := Some value]> values)
  | (_, (_, Err _)) :: rest => stored rest values
  end.

(** a unit of narrative text: no speaker, sequence number [k] *)
Definition narrative_unit (k : nat) (text : string) : AudioSegment.t :=
  {| AudioSegment.id := "ch1_seg_" +:+ pretty (k - 1);
     AudioSegment.sequence_number := k;
     AudioSegment.segment_type := narrative;
     AudioSegment.character_name := None;
     AudioSegment.text_content := text;
     AudioSegment.emotion_detected := None;
     AudioSegment.emotion_intensity := None |}.

Definition five_units : list AudioSegment.t :=
  [ narrative_unit 1 "one"; narrative_unit 2 "two"; narrative_unit 3 "three";
    narrative_unit 4 "four"; narrative_unit 5 "five" ].

Definition default_settings : VoiceSettings.t :=
  {| VoiceSettings.stability := (65 # 100)%Q;
     VoiceSettings.similarity_boost := (75 # 100)%Q;
     VoiceSettings.style := Some (5 # 10)%Q;
     VoiceSettings.use_speaker_boost := Some true |}.

(** the narrator's assignment, pinned to the XTTS provider *)
Definition narrator_assignment : VoiceAssignment.t :=
  {| VoiceAssignment.character_name := "narrator";
     VoiceAssignment.voice_id := "voice-1";
     VoiceAssignment.voice_name := "Narrator";
     VoiceAssignment.provider := xtts;
     VoiceAssignment.match_score := 1%Q;
     VoiceAssignment.voice_settings := default_settings |}.

(** An environment with batch size [b] in which the primary provider
    refuses the texts of [primary_down] and the fallback provider those of
    [fallback_down]. *)
Definition sample_env (b : nat) (primary_down fallback_down : list string) : Env.t :=
  {| Env.batchSize := b;
     Env.http := fun provider params =>
       let refused down :=
         existsb (String.eqb (TTSGenerationParams.text params)) down in
       match provider with
       | elevenlabs => if refused primary_down then Err "503" else Ok [Byte.x01]
       | playht => if refused fallback_down then Err "500" else Ok [Byte.x02]
       | xtts => Err "disabled"
       end;
     Env.estimateDuration := fun _ _ => 3%Q;
     Env.calculateCost := fun _ _ => (1 # 10)%Q;
     Env.query_project := fun _ => Ok None |}.

(** the later a unit stands in the book, the sooner its promise settles *)
Definition reversed_latency (segment : AudioSegment.t) : nat :=
  100 - AudioSegment.sequence_number segment.

(** the calls of the progress callback in [trace]: current and total *)
Fixpoint progress_of (trace : list TTSOrchestrator.event) : list (nat * nat) :=
  match trace with
  | [] => []
  | TTSOrchestrator.Progress current total :: rest => (current, total) :: progress_of rest
  | _ :: rest => progress_of rest
  end.

(** the percent values of a list of updates *)
Definition percents (updates : list ProgressUpdate.t) : list Z :=
  map ProgressUpdate.percent_complete updates.

(** a chapter with the given identifier and text *)
Definition chapter (id content : string) : Chapter.t :=
  {| Chapter.id := id; Chapter.chapter_number := 1; Chapter.title := "Untitled";
     Chapter.content := content; Chapter.word_count := 0 |}.

(** ** Vocabulary for the assembler's temp files *)

(** An engine that refuses empty input, in the temp directory [/app/temp],
    with a clock that starts at 1000 and advances by one at every reading
    and a file system that rejects no call. *)
Definition sample_engine : Engine.t :=
  {| Engine.tempDir := "/app/temp";
     Engine.normalizationLUFS := (-23)%Q;
     Engine.now := fun k => (1000 + Z.of_nat k)%Z;
     Engine.loudnorm := fun _ data =>
       match data with
       | [] => Err "Invalid data found when processing input"
       | _ => Ok data
       end;
     Engine.to_m4b := fun data =>
       match data with
       | [] => Err "Invalid data found when processing input"
       | _ => Ok data
       end;
     Engine.refuses := fun _ _ => None;
     Engine.partial := fun _ _ => None |}.

(** a fragment of the given duration, cost and audio *)
Definition fragment (duration cost : Q) (audio : Buffer) : GeneratedAudio.t :=
  {| GeneratedAudio.audio_data := audio; GeneratedAudio.format := mp3;
     GeneratedAudio.duration := duration; GeneratedAudio.provider := elevenlabs;
     GeneratedAudio.cost := cost |}.

(** no file in the temp directory, clock never read *)
Definition empty_world : World.t := {| World.files := ∅; World.reads := 0 |}.

(** the paths of the existing files *)
Definition paths (w : World.t) : list string := map fst (map_to_list (World.files w)).

(** the temp input file of [normalizeAudio] for a segment, when the clock
    reads [t] *)
Definition temp_input (engine : Engine.t) (t : Z) (segment : GeneratedAudio.t) : string :=
  AudioAssembler.path_join (Engine.tempDir engine)
    ("input_" +:+ pretty t +:+ "." +:+ AudioAssembler.extension (GeneratedAudio.format segment)).

(** ** Vocabulary for the segmenter *)

(** a piece of chapter text that is kept: not blank once trimmed *)
Definition kept (entry : nat * string) : bool := Js.truthy (Js.trim (snd entry)).

(** the units of one chapter: one per kept piece, numbered by the position
    of the piece *)
Definition chapter_units (c : Chapter.t) : list AudioSegment.t :=
  map (fun entry => Segmenter.make_segment c (fst entry) (snd entry))
      (List.filter kept (Segmenter.indexed (Js.split_blank_lines (Chapter.content c)))).

Definition sequence_numbers (units : list AudioSegment.t) : list nat :=
  map AudioSegment.sequence_number units.

(** the text of the chapter starts with a piece that is not blank *)
Definition starts_with_text (c : Chapter.t) : Prop :=
  match Js.split_blank_lines (Chapter.content c) with
  | first :: _ => Js.truthy (Js.trim first) = true
  | [] => False
  end.

(** a line feed, a blank line, a double quote *)
Definition newline : string := String Js.LF EmptyString.
Definition blank_line : string := newline +:+ newline.
Definition quote : string := String Js.dquote EmptyString.

(** ** Vocabulary for the patterns *)

(** the words of a pattern *)
Inductive lang : Js.regex -> list ascii -> Prop :=
| lang_epsilon : lang Js.Epsilon []
| lang_class p c : p c = true -> lang (Js.Class p) [c]
| lang_cat r1 r2 w1 w2 : lang r1 w1 -> lang r2 w2 -> lang (Js.Cat r1 r2) (w1 ++ w2)
| lang_alt_left r1 r2 w : lang r1 w -> lang (Js.Alt r1 r2) w
| lang_alt_right r1 r2 w : lang r2 w -> lang (Js.Alt r1 r2) w
| lang_star_stop r : lang (Js.Star r) []
| lang_star_more r w1 w2 : lang r w1 -> lang (Js.Star r) w2 -> lang (Js.Star r) (w1 ++ w2).

(** [text] has two double quotes with no line terminator between them *)
Definition quoted_on_one_line (text : string) : Prop :=
  exists before inside after,
    text = before +:+ String Js.dquote (inside +:+ String Js.dquote after)
    /\ Forall (fun c => Js.isLineTerminator c = false) (Js.chars inside).

(** [text] has two double quotes, with anything between them *)
Definition quoted_somewhere (text : string) : Prop :=
  exists before inside after,
    text = before +:+ String Js.dquote (inside +:+ String Js.dquote after).

(** one of the attribution verbs occurs in [text], in lower case *)
Definition has_attribution_verb (text : string) : Prop :=
  exists verb, In verb Segmenter.attribution_verbs /\ occurs_in verb text.

(** a paragraph with a quoted phrase and the word "said", the same without
    the attribution, and one whose quoted phrase runs over two lines *)
Definition said_paragraph : string :=
  quote +:+ "We should leave," +:+ quote +:+ " Mara said quietly.".
Definition plain_paragraph : string :=
  quote +:+ "We should leave," +:+ quote +:+ " Mara turned away.".
Definition wrapped_paragraph : string :=
  quote +:+ "We should leave," +:+ newline +:+ "before dawn," +:+ quote +:+ " Mara said.".

(** * Further vocabulary: the segmenter *)

(** the pieces of a chapter's text that are not blank, in order *)
Definition non_blank_pieces (c : Chapter.t) : list string :=
  List.filter (fun piece => Js.truthy (Js.trim piece))
              (Js.split_blank_lines (Chapter.content c)).

(** [m] is a run of word characters, then white space, then an attribution
    verb in any mix of cases *)
Definition names_speaker (word spaces verb : list ascii) : Prop :=
  word <> [] /\ Forall (fun c => Js.isWord c = true) word
  /\ spaces <> [] /\ Forall (fun c => Js.isSpace c = true) spaces
  /\ exists v, In v Segmenter.attribution_verbs /\ map Js.toLowerChar verb = Js.chars v.

(** some word, white space and attribution verb occur in [text] *)
Definition speaker_named_somewhere (text : string) : Prop :=
  exists before word spaces verb after,
    Js.chars text = before ++ word ++ spaces ++ verb ++ after
    /\ names_speaker word spaces verb.

(** an occurrence of "word, white space, verb" starts at offset [k] of [w] *)
Definition named_at (w : list ascii) (k : nat) (word : list ascii) : Prop :=
  exists spaces verb after,
    drop k w = word ++ spaces ++ verb ++ after /\ k <= length w
    /\ names_speaker word spaces verb.

(** * Further vocabulary: the assembler *)

(** the temp file [<prefix><t>.<ext>] of the engine's temp directory *)
Definition temp_file (engine : Engine.t) (prefix : string) (t : Z) (ext : string) : string :=
  AudioAssembler.path_join (Engine.tempDir engine) (prefix +:+ pretty t +:+ "." +:+ ext).

(** the fragment made of what the engine returned for [segment] *)
Definition normalized_of (engine : Engine.t) (segment : GeneratedAudio.t) (data : Buffer)
  : NormalizedAudio.t :=
  {| NormalizedAudio.audio_data := data;
     NormalizedAudio.format := mp3;
     NormalizedAudio.duration := GeneratedAudio.duration segment;
     NormalizedAudio.normalized_lufs := Engine.normalizationLUFS engine |}.

(** the world [w] after two more readings of the clock, with the files [files] *)
Definition later (w : World.t) (readings : nat) (files : gmap string Buffer) : World.t :=
  {| World.files := files; World.reads := readings + World.reads w |}.

(** the engine normalises every segment: [outs] is what it returns for each *)
Definition engine_normalises (engine : Engine.t) (segments : list GeneratedAudio.t)
    (outs : list Buffer) : Prop :=
  Forall2 (fun segment out =>
             Engine.loudnorm engine (Engine.normalizationLUFS engine)
               (GeneratedAudio.audio_data segment) = Ok out)
          segments outs.

(** the book assembled from what the engine returned: [outs] for the
    segments and [encoded] for their concatenation *)
Definition assembled (engine : Engine.t) (segments : list GeneratedAudio.t)
    (metadata : AudiobookMetadata.t) (outs : list Buffer) (encoded : Buffer)
  : AssembledAudiobook.t :=
  let normalized := zip_with (normalized_of engine) segments outs in
  {| AssembledAudiobook.mp3_file := Some (concat outs);
     AssembledAudiobook.m4b_file := Some encoded;
     AssembledAudiobook.total_duration := AudioAssembler.calculateTotalDuration normalized;
     AssembledAudiobook.total_cost := AudioAssembler.calculateCost segments;
     AssembledAudiobook.chapters := snd (AudioAssembler.addChapterMarkers normalized);
     AssembledAudiobook.metadata := metadata |}.

(** a book of one fragment, and its title page *)
Definition one_fragment : list GeneratedAudio.t := [fragment 10 1 [Byte.x01]].
Definition title_page : AudiobookMetadata.t :=
  {| AudiobookMetadata.title := "Untitled"; AudiobookMetadata.author := "Anonymous";
     AudiobookMetadata.narrator := "Narrator"; AudiobookMetadata.publisher := "Press";
     AudiobookMetadata.language := "en" |}.

(** the file system rejects no call of the assembler *)
Definition accepts_every_call (engine : Engine.t) : Prop :=
  forall call path, Engine.refuses engine call path = None.

(** [message] is an error of the audio engine or a rejection of the file
    system *)
Definition engine_or_file_system_error (engine : Engine.t) (message : string) : Prop :=
  (exists data,
      Engine.loudnorm engine (Engine.normalizationLUFS engine) data = Err message)
  \/ (exists data, Engine.to_m4b engine data = Err message)
  \/ (exists call path, Engine.refuses engine call path = Some message).

(** One passage through the engine, step by step: the input file [tin] is
    written with [data], the engine runs [filter] on it and leaves [tout],
    which is read back, and both files are removed.  The result and the
    files left, from the files [files]. *)
Definition through_the_engine (engine : Engine.t) (filter : Buffer -> result Buffer)
    (tin tout : string) (data : Buffer) (files : gmap string Buffer)
  : result Buffer * gmap string Buffer :=
  match Engine.refuses engine fs_writeFile tin with
  | Some message =>
      (Err message,
       match Engine.partial engine tin data with
       | Some remains => <[tin := remains]> files
       | None => files
       end)
  | None =>
      match filter data with
      | Err message => (Err message, <[tin := data]> files)
      | Ok out =>
          let written := <[tout := out]> (<[tin := data]> files) in
          match Engine.refuses engine fs_readFile tout with
          | Some message => (Err message, written)
          | None =>
              match Engine.refuses engine fs_unlink tin with
              | Some message => (Err message, written)
              | None =>
                  match Engine.refuses engine fs_unlink tout with
                  | Some message => (Err message, delete tin written)
                  | None => (Ok out, delete tout (delete tin files))
                  end
              end
          end
      end
  end.

(** the sample engine on a disk that is full: every write is rejected and
    leaves an empty file *)
Definition full_disk_engine : Engine.t :=
  {| Engine.tempDir := Engine.tempDir sample_engine;
     Engine.normalizationLUFS := Engine.normalizationLUFS sample_engine;
     Engine.now := Engine.now sample_engine;
     Engine.loudnorm := Engine.loudnorm sample_engine;
     Engine.to_m4b := Engine.to_m4b sample_engine;
     Engine.refuses := fun call _ =>
       match call with
       | fs_writeFile => Some "ENOSPC: no space left on device, write"
       | _ => None
       end;
     Engine.partial := fun _ _ => Some [] |}.

(** * The voice libraries and the private helpers of the providers
    ([ElevenLabsProvider.ts]) *)

(** ** ElevenLabs *)

Module ElevenLabsVoice.
Record t : Type := mk {
  voice_id : string;
  name : string;
  labels : gmap string string
}.
End ElevenLabsVoice.

Module ElevenLabs.
Import Js.

Definition getDefaultSettings : VoiceSettings.t :=
  {| VoiceSettings.stability := (65 # 100)%Q;
     VoiceSettings.similarity_boost := (75 # 100)%Q;
     VoiceSettings.style := Some (5 # 10)%Q;
     VoiceSettings.use_speaker_boost := Some true |}.

(** the assignments of one [case] of the [switch] *)
Definition modulate (baseSettings : VoiceSettings.t) (type : EmotionType) : VoiceSettings.t :=
  let stability := VoiceSettings.stability baseSettings in
  let similarity_boost := VoiceSettings.similarity_boost baseSettings in
  let style := VoiceSettings.style baseSettings in
  let use_speaker_boost := VoiceSettings.use_speaker_boost baseSettings in
  match type with
  | joy =>
      {| VoiceSettings.stability := Math_max (4 # 10) (stability - (1 # 10))%Q;
         VoiceSettings.similarity_boost := similarity_boost;
         VoiceSettings.style := Some (7 # 10)%Q;
         VoiceSettings.use_speaker_boost := use_speaker_boost |}
  | fear =>
      {| VoiceSettings.stability := Math_min (9 # 10) (stability + (2 # 10))%Q;
         VoiceSettings.similarity_boost := Math_min 1 (similarity_boost + (1 # 10))%Q;
         VoiceSettings.style := style;
         VoiceSettings.use_speaker_boost := use_speaker_boost |}
  | anger =>
      {| VoiceSettings.stability := Math_max (3 # 10) (stability - (2 # 10))%Q;
         VoiceSettings.similarity_boost := similarity_boost;
         VoiceSettings.style := Some (9 # 10)%Q;
         VoiceSettings.use_speaker_boost := Some true |}
  | sadness =>
      {| VoiceSettings.stability := Math_min (85 # 100) (stability + (15 # 100))%Q;
         VoiceSettings.similarity_boost := similarity_boost;
         VoiceSettings.style := Some (3 # 10)%Q;
         VoiceSettings.use_speaker_boost := use_speaker_boost |}
  | surprise =>
      {| VoiceSettings.stability := Math_max (35 # 100) (stability - (15 # 100))%Q;
         VoiceSettings.similarity_boost := similarity_boost;
         VoiceSettings.style := Some (8 # 10)%Q;
         VoiceSettings.use_speaker_boost := use_speaker_boost |}
  | disgust =>
      {| VoiceSettings.stability := (6 # 10)%Q;
         VoiceSettings.similarity_boost := similarity_boost;
         VoiceSettings.style := Some (6 # 10)%Q;
         VoiceSettings.use_speaker_boost := use_speaker_boost |}
  | neutral_emotion => baseSettings
  end.

(** [x || 0.5] on a number *)
Definition or_half (x : Q) : Q := if Qeq_bool x 0 then (1 # 2)%Q else x.

Definition applyEmotionModulation (baseSettings : VoiceSettings.t)
    (emotion : option EmotionContext.t) : VoiceSettings.t :=
  match emotion with
  | None => baseSettings
  | Some emotion =>
      let modulated := modulate baseSettings (EmotionContext.type emotion) in
      let intensityFactor := or_half (EmotionContext.intensity emotion) in
      match VoiceSettings.style modulated with
      | Some style =>
          if Qeq_bool style 0 then modulated
          else
            {| VoiceSettings.stability := VoiceSettings.stability modulated;
               VoiceSettings.similarity_boost := VoiceSettings.similarity_boost modulated;
               VoiceSettings.style := Some (style * intensityFactor)%Q;
               VoiceSettings.use_speaker_boost := VoiceSettings.use_speaker_boost modulated |}
      | None => modulated
      end
  end.

(** the [voice_settings] of the request body of [generateSpeech] *)
Definition adjustedSettings (params : TTSGenerationParams.t) : VoiceSettings.t :=
  applyEmotionModulation
    (match TTSGenerationParams.settings params with
     | Some settings => settings
     | None => getDefaultSettings
     end)
    (TTSGenerationParams.emotion params).

Definition detectGender (labels : gmap string string) : Gender :=
  match toLowerCase <$> labels !! "gender" with
  | Some gender =>
      if String.eqb gender "male" then male
      else if String.eqb gender "female" then female
      else neutral
  | None => neutral
  end.

Definition detectAgeRange (labels : gmap string string) : AgeRange :=
  match toLowerCase <$> labels !! "age" with
  | None => age_20_35
  | Some age =>
      if negb (truthy age) then age_20_35
      else if includes age "young" || includes age "child" then age_0_12
      else if includes age "teen" || includes age "youth" then age_13_19
      else if includes age "middle" || includes age "mature" then age_36_55
      else if includes age "old" || includes age "senior" then age_56_plus
      else age_20_35
  end.

(** [if (labels.k) descriptors.push(labels.k)] *)
Definition push_label (labels : gmap string string) (key : string)
    (descriptors : list string) : list string :=
  match labels !! key with
  | Some value => if truthy value then descriptors ++ [value] else descriptors
  | None => descriptors
  end.

Definition extractDescriptors (labels : gmap string string) : list string :=
  let descriptors := [] in
  let descriptors := push_label labels "descriptive" descriptors in
  let descriptors := push_label labels "use_case" descriptors in
  match labels !! "accent" with
  | Some accent =>
      if truthy accent && negb (String.eqb accent "neutral")
      then descriptors ++ [accent] else descriptors
  | None => descriptors
  end.

(** [x || 'neutral'] on an optional string *)
Definition or_neutral (x : option string) : string :=
  match x with
  | Some value => if truthy value then value else "neutral"
  | None => "neutral"
  end.

(** the callback of [response.data.voices.map(v => ...)] in [listVoices] *)
Definition to_voice (v : ElevenLabsVoice.t) : Voice.t :=
  {| Voice.id := ElevenLabsVoice.voice_id v;
     Voice.name := ElevenLabsVoice.name v;
     Voice.provider := elevenlabs;
     Voice.gender := detectGender (ElevenLabsVoice.labels v);
     Voice.age_range := detectAgeRange (ElevenLabsVoice.labels v);
     Voice.accent := or_neutral (ElevenLabsVoice.labels v !! "accent");
     Voice.descriptors := extractDescriptors (ElevenLabsVoice.labels v) |}.

(** [listVoices], given the answer of [GET /voices] *)
Definition listVoices (response : result (list ElevenLabsVoice.t)) : result (list Voice.t) :=
  match response with
  | Ok voices => Ok (map to_voice voices)
  | Err _ => Err "Failed to fetch voice library"
  end.

End ElevenLabs.

(** ** PlayHT *)

Module PlayHTVoice.
Record t : Type := mk {
  id : string;
  name : string;
  gender : string;
  age : string;
  accent : string;
  loudness : string;
  style : string;
  tempo : string;
  texture : string
}.
End PlayHTVoice.

(** the answer of [GET /tts/:id] *)
Module PollResponse.
Record t : Type := mk { status : string; output_url : string }.
End PollResponse.

Module PlayHT.
Import Js.

Definition parseGender (gender : string) : Gender :=
  let g := toLowerCase gender in
  if String.eqb g "male" then male
  else if String.eqb g "female" then female
  else neutral.

Definition parseAgeRange (age : string) : AgeRange :=
  let a := toLowerCase age in
  if includes a "young" || includes a "child" then age_0_12
  else if includes a "teen" || includes a "youth" then age_13_19
  else if includes a "middle" || includes a "mature" then age_36_55
  else if includes a "old" || includes a "senior" then age_56_plus
  else age_20_35.

(** [if (voice.k) descriptors.push(voice.k)] *)
Definition push_tag (value : string) (descriptors : list string) : list string :=
  if truthy value then descriptors ++ [value] else descriptors.

Definition extractDescriptors (voice : PlayHTVoice.t) : list string :=
  let descriptors := [] in
  let descriptors := push_tag (PlayHTVoice.style voice) descriptors in
  let descriptors := push_tag (PlayHTVoice.texture voice) descriptors in
  let descriptors := push_tag (PlayHTVoice.tempo voice) descriptors in
  let descriptors := push_tag (PlayHTVoice.loudness voice) descriptors in
  descriptors.

Definition to_voice (v : PlayHTVoice.t) : Voice.t :=
  {| Voice.id := PlayHTVoice.id v;
     Voice.name := PlayHTVoice.name v;
     Voice.provider := playht;
     Voice.gender := parseGender (PlayHTVoice.gender v);
     Voice.age_range := parseAgeRange (PlayHTVoice.age v);
     Voice.accent := if truthy (PlayHTVoice.accent v) then PlayHTVoice.accent v else "neutral";
     Voice.descriptors := extractDescriptors v |}.

Definition listVoices (response : result (list PlayHTVoice.t)) : result (list Voice.t) :=
  match response with
  | Ok voices => Ok (map to_voice voices)
  | Err _ => Err "Failed to fetch PlayHT voice library"
  end.

(** What [pollForCompletion] lets an observer see: the requests made and
    the two-second sleeps taken. *)
Module Polled.
Record t : Type := mk { outcome : result string; requests : nat; sleeps : nat }.
End Polled.

(** The loop [while (attempts < maxAttempts)], with [remaining] iterations
    to go; [get k] is the answer to the request number [k] (from 0), an
    error being what the client throws. *)
Fixpoint poll (get : nat -> result PollResponse.t) (remaining attempts : nat) : Polled.t :=
  match remaining with
  | O => {| Polled.outcome := Err "PlayHT generation timed out";
            Polled.requests := attempts; Polled.sleeps := attempts |}
  | S remaining' =>
      match get attempts with
      | Ok response =>
          if String.eqb (PollResponse.status response) "complete" then
            {| Polled.outcome := Ok (PollResponse.output_url response);
               Polled.requests := S attempts; Polled.sleeps := attempts |}
          else if String.eqb (PollResponse.status response) "failed" then
            {| Polled.outcome := Err "PlayHT generation failed";
               Polled.requests := S attempts; Polled.sleeps := attempts |}
          else poll get remaining' (S attempts)
      | Err message =>
          {| Polled.outcome := Err message;
             Polled.requests := S attempts; Polled.sleeps := attempts |}
      end
  end.

Definition pollForCompletion (get : nat -> result PollResponse.t) (maxAttempts : nat)
  : Polled.t := poll get maxAttempts 0.

End PlayHT.

(** * Further vocabulary: the providers *)

(** the answer to a status request is neither [complete] nor [failed] *)
Definition pending (r : result PollResponse.t) : Prop :=
  exists response,
    r = Ok response
    /\ PollResponse.status response <> "complete"
    /\ PollResponse.status response <> "failed".

(** a setting lies between 0 and 1 *)
Definition unit_range (q : Q) : Prop := (0 <= q <= 1)%Q.

(** all the numbers of a group of settings lie between 0 and 1 *)
Definition settings_in_range (s : VoiceSettings.t) : Prop :=
  unit_range (VoiceSettings.stability s)
  /\ unit_range (VoiceSettings.similarity_boost s)
  /\ match VoiceSettings.style s with
     | Some style => unit_range style
     | None => True
     end.

(** an emotion of the given kind and intensity *)
Definition felt (type : EmotionType) (intensity : Q) : option EmotionContext.t :=
  Some {| EmotionContext.type := type; EmotionContext.intensity := intensity |}.

(** what the polling returns when request number [k] is the first whose
    answer is not pending *)
Definition answer_at (get : nat -> result PollResponse.t) (k : nat) : PlayHT.Polled.t :=
  {| PlayHT.Polled.outcome :=
       match get k with
       | Ok response =>
           if String.eqb (PollResponse.status response) "complete"
           then Ok (PollResponse.output_url response)
           else Err "PlayHT generation failed"
       | Err message => Err message
       end;
     PlayHT.Polled.requests := S k;
     PlayHT.Polled.sleeps := k |}.

(** * The configuration ([config/index.ts]) *)

Module Config.
Import Js.

(** A JavaScript number, as far as the configuration goes: a double.  [Num q]
    is the finite double of value [q] other than [-0]; a default written in
    the source stands for the double that the literal denotes. *)
Inductive number : Type :=
| NaN
| Num (q : Q)
| NegZero
| Infinity (negative : bool).

(** the value of a decimal digit *)
Definition digit (c : ascii) : option Z :=
  if ((48 <=? code c) && (code c <=? 57))%N then Some (Z.of_N (code c) - 48)%Z else None.

(** The value of the longest prefix of decimal digits of [s], after the
    digits of value [acc]; [seen] tells whether a digit was read. *)
Fixpoint digits (acc : Z) (seen : bool) (s : string) : option Z :=
  match s with
  | EmptyString => if seen then Some acc else None
  | String c rest =>
      match digit c with
      | Some d => digits (10 * acc + d)%Z true rest
      | None => if seen then Some acc else None
      end
  end.

(** The double nearest to the integer [m > 0], ties to the even
    significand; [None] is [Infinity].  Integers of at most 53 bits are
    doubles; a longer one keeps its 53 leading bits [q], rounded on the
    [shift] bits dropped. *)
Definition nearest_double (m : Z) : option Z :=
  let e := Z.log2 m in
  if (e <=? 52)%Z then Some m
  else
    let shift := (e - 52)%Z in
    let q := Z.shiftr m shift in
    let r := (m mod 2 ^ shift)%Z in
    let half := (2 ^ (shift - 1))%Z in
    let up := (half <? r)%Z || ((r =? half)%Z && Z.odd q) in
    let rounded := Z.shiftl (if up then q + 1 else q)%Z shift in
    if (2 ^ 1024 <=? rounded)%Z then None else Some rounded.

(** the number of a sign and of the integer read, if any *)
Definition to_number (negative : bool) (mathInt : option Z) : number :=
  match mathInt with
  | None => NaN
  | Some 0%Z => if negative then NegZero else Num 0
  | Some m =>
      match nearest_double m with
      | Some d => Num (inject_Z (if negative then - d else d))
      | None => Infinity negative
      end
  end.

(** [parseInt(s, 10)]: leading white space is skipped, then a sign may
    come, then the longest run of decimal digits is read; without a digit
    the result is [NaN].  The integer read is rounded to the nearest double,
    as Node does for any number of digits. *)
Definition parseInt (s : string) : number :=
  let trimmed := trimStart s in
  match trimmed with
  | String "-"%char rest => to_number true (digits 0 false rest)
  | String "+"%char rest => to_number false (digits 0 false rest)
  | _ => to_number false (digits 0 false trimmed)
  end.

(** [process.env] *)
Definition environment : Type := gmap string string.

(** The result [None] is [undefined]. *)
Definition getEnv (env : environment) (key : string) (defaultValue : option string)
  : result (option string) :=
  let value := env !! key in
  match value, defaultValue with
  | None, None => Err ("Missing required environment variable: " +:+ key)
  | _, _ =>
      Ok (match value with
          | Some v => if truthy v then Some v else defaultValue
          | None => defaultValue
          end)
  end.

Definition getEnvNumber (env : environment) (key : string) (defaultValue : Q) : number :=
  match env !! key with
  | Some value => if truthy value then parseInt value else Num defaultValue
  | None => Num defaultValue
  end.

Definition getEnvBoolean (env : environment) (key : string) (defaultValue : bool) : bool :=
  match env !! key with
  | Some value =>
      if truthy value then String.eqb (toLowerCase value) "true" else defaultValue
  | None => defaultValue
  end.

(** [config.concurrency.batchSize] and the two cost rates *)
Definition batchSize (env : environment) : number := getEnvNumber env "BATCH_SIZE" 10.
Definition elevenlabs_costPer1K (env : environment) : number :=
  getEnvNumber env "ELEVENLABS_COST_PER_1K" (30 # 100).
Definition playht_costPer1K (env : environment) : number :=
  getEnvNumber env "PLAYHT_COST_PER_1K" (20 # 100).

End Config.

(** * Further vocabulary: the configuration *)

(** [tail] does not go on with a digit *)
Definition no_digit_first (tail : string) : Prop :=
  match tail with
  | EmptyString => True
  | String c _ => Config.digit c = None
  end.

(** the digit 9, [k] times *)
Fixpoint nines (k : nat) : string :=
  match k with
  | 0 => EmptyString
  | S k => String "9" (nines k)
  end.

(** * Facts about the JavaScript primitives *)

Lemma startsWith_spec (s t : string) :
  Js.startsWith s t = true <-> exists rest, s = t +:+ rest.
Proof.
  revert s. induction t as [|b t IH]; intros s; destruct s as [|a s]; simpl.
  - split; [intros _; now exists EmptyString | reflexivity].
  - split; [intros _; now exists (String a s) | reflexivity].
  - split; [discriminate | intros [rest H]; discriminate].
  - rewrite andb_true_iff, Ascii.eqb_eq, IH. split.
    + intros [-> [rest ->]]. now exists rest.
    + intros [rest H]. injection H as -> ->. split; [reflexivity | now exists rest].
Qed.

Lemma includes_spec (s t : string) :
  Js.includes s t = true <-> occurs_in t s.
Proof.
  unfold occurs_in. induction s as [|a s IH]; cbn [Js.includes].
  - rewrite orb_false_r, startsWith_spec. split.
    + intros [rest H]. exists EmptyString, rest. exact H.
    + intros ([|c before] & after & H).
      * now exists after.
      * discriminate.
  - rewrite orb_true_iff, IH, startsWith_spec. split.
    + intros [[rest H] | (before & after & H)].
      * exists EmptyString, rest. exact H.
      * exists (String a before), after. simpl. now rewrite H.
    + intros ([|c before] & after & H).
      * left. now exists after.
      * right. simpl in H. injection H as -> ->. now exists before, after.
Qed.

Lemma Math_min_spec (a b : Q) :
  (Js.Math_min a b <= a /\ Js.Math_min a b <= b
   /\ (Js.Math_min a b == a \/ Js.Math_min a b == b))%Q.
Proof.
  unfold Js.Math_min. destruct (Qle_bool a b) eqn:E.
  - apply Qle_bool_iff in E. repeat split; [apply Qle_refl | exact E | left; reflexivity].
  - assert (~ (a <= b)%Q) as N by (rewrite <- Qle_bool_iff, E; discriminate).
    apply Qnot_le_lt in N. repeat split; [now apply Qlt_le_weak | apply Qle_refl | right; reflexivity].
Qed.

(** ** Lists *)

Lemma filter_twice {A} (p q : A -> bool) (l : list A) :
  List.filter q (List.filter p l) = List.filter (fun x => p x && q x) l.
Proof.
  induction l as [|x l IH]; simpl; [reflexivity|].
  destruct (p x); simpl; [destruct (q x)|]; now rewrite IH.
Qed.

Lemma filter_pointwise {A} (p q : A -> bool) (l : list A) :
  (forall x, p x = q x) -> List.filter p l = List.filter q l.
Proof.
  intros H. induction l as [|x l IH]; simpl; [reflexivity|]. now rewrite H, IH.
Qed.

(** ** [Array.prototype.sort] *)

Section SortFacts.
Context {A : Type} (cmp : A -> A -> Q).

Lemma sort_insert_Permutation (x : A) (l : list A) :
  Permutation (Js.sort_insert cmp x l) (x :: l).
Proof.
  induction l as [|y l IH]; simpl; [reflexivity|].
  destruct (Qle_bool (cmp x y) 0); [reflexivity|].
  rewrite IH. apply perm_swap.
Qed.

Lemma Array_sort_Permutation (l : list A) : Permutation (Js.Array_sort cmp l) l.
Proof.
  induction l as [|x l IH]; simpl; [reflexivity|].
  rewrite sort_insert_Permutation. now constructor.
Qed.
End SortFacts.

(** With the comparator [(a, b) => key(b) - key(a)] the sorted array starts
    with the first entry of greatest key. *)
Section SortDescending.
Context {A : Type} (key : A -> Q).

Lemma first_greatest_exists (l : list A) :
  l <> [] ->
  exists before best after,
    l = before ++ best :: after
    /\ (forall x, In x before -> (key x < key best)%Q)
    /\ (forall x, In x after -> (key x <= key best)%Q).
Proof.
  induction l as [|x l IH]; [congruence | intros _].
  destruct l as [|y l].
  - exists [], x, []. repeat split; simpl; intros ? [].
  - destruct IH as (before & best & after & E & Hb & Ha); [discriminate|].
    destruct (Qlt_le_dec (key x) (key best)) as [Hlt | Hle].
    + exists (x :: before), best, after. rewrite E. repeat split; auto.
      intros z [<- | Hz]; auto.
    + exists [], x, (y :: l). repeat split; [intros ? [] |].
      intros z Hz. rewrite E in Hz. apply in_app_or in Hz.
      destruct Hz as [Hz | [<- | Hz]].
      * apply Qlt_le_weak, Qlt_le_trans with (key best); auto.
      * exact Hle.
      * apply Qle_trans with (key best); auto.
Qed.

Lemma sort_insert_greatest (x : A) (l : list A) :
  (forall y, In y l -> (key y <= key x)%Q) ->
  Js.sort_insert (descending key) x l = x :: l.
Proof.
  intros H. destruct l as [|y l]; [reflexivity|]. simpl.
  assert (Qle_bool (descending key x y) 0 = true) as ->; [|reflexivity].
  apply Qle_bool_iff. unfold descending.
  specialize (H y (or_introl eq_refl)). lra.
Qed.

Lemma Array_sort_head (before after : list A) (best : A) :
  (forall x, In x before -> (key x < key best)%Q) ->
  (forall x, In x after -> (key x <= key best)%Q) ->
  exists rest, Js.Array_sort (descending key) (before ++ best :: after) = best :: rest.
Proof.
  intros Hb Ha. induction before as [|x before IH]; simpl.
  - exists (Js.Array_sort (descending key) after).
    apply sort_insert_greatest. intros y Hy. apply Ha.
    eapply Permutation_in; [apply Array_sort_Permutation | exact Hy].
  - destruct IH as [rest ->]; [intros z Hz; apply Hb; now right|].
    simpl.
    assert (Qle_bool (descending key x best) 0 = false) as ->; [|eauto].
    apply not_true_is_false. rewrite Qle_bool_iff. apply Qlt_not_le.
    unfold descending. specialize (Hb x (or_introl eq_refl)).
    apply Qlt_minus_iff in Hb. exact Hb.
Qed.
End SortDescending.

(** * Patterns *)

Lemma lang_never_inv (w : list ascii) : ~ lang Js.Never w.
Proof. intros H. inversion H. Qed.

Lemma lang_epsilon_inv (w : list ascii) : lang Js.Epsilon w -> w = [].
Proof. intros H. now inversion H. Qed.

Lemma lang_class_inv (p : ascii -> bool) (w : list ascii) :
  lang (Js.Class p) w -> exists c, w = [c] /\ p c = true.
Proof. intros H. inversion H; subst. eauto. Qed.

Lemma lang_cat_inv (r1 r2 : Js.regex) (w : list ascii) :
  lang (Js.Cat r1 r2) w -> exists w1 w2, w = w1 ++ w2 /\ lang r1 w1 /\ lang r2 w2.
Proof. intros H. inversion H; subst. eauto. Qed.

Lemma lang_alt_inv (r1 r2 : Js.regex) (w : list ascii) :
  lang (Js.Alt r1 r2) w -> lang r1 w \/ lang r2 w.
Proof. intros H. inversion H; subst; auto. Qed.

Lemma lang_cat_cons (r1 r2 : Js.regex) (c : ascii) (w1 w2 : list ascii) :
  lang r1 (c :: w1) -> lang r2 w2 -> lang (Js.Cat r1 r2) (c :: w1 ++ w2).
Proof. intros H1 H2. change (c :: w1 ++ w2) with ((c :: w1) ++ w2). now constructor. Qed.

Lemma nullable_spec (r : Js.regex) : Js.nullable r = true <-> lang r [].
Proof.
  induction r as [| |p|r1 IH1 r2 IH2|r1 IH1 r2 IH2|r IH]; simpl.
  - split; [discriminate | intros H; now apply lang_never_inv in H].
  - split; [intros _; constructor | reflexivity].
  - split; [discriminate|]. intros H. apply lang_class_inv in H.
    destruct H as (c & E & _). discriminate.
  - rewrite andb_true_iff, IH1, IH2. split.
    + intros [H1 H2]. change (@nil ascii) with (@nil ascii ++ []). now constructor.
    + intros H. apply lang_cat_inv in H. destruct H as (w1 & w2 & E & H1 & H2).
      symmetry in E. apply app_eq_nil in E. destruct E as [-> ->]. now split.
  - rewrite orb_true_iff, IH1, IH2. split.
    + intros [H|H]; [now apply lang_alt_left | now apply lang_alt_right].
    + apply lang_alt_inv.
  - split; [intros _; constructor | reflexivity].
Qed.

(** a word of a starred pattern that starts with [c] starts with a word of
    the pattern that starts with [c] *)
Lemma lang_star_head (r : Js.regex) (c : ascii) (w : list ascii) :
  lang (Js.Star r) (c :: w) ->
  exists w1 w2, w = w1 ++ w2 /\ lang r (c :: w1) /\ lang (Js.Star r) w2.
Proof.
  intros H. remember (Js.Star r) as s eqn:Es. remember (c :: w) as cw eqn:Ew.
  revert w Ew.
  induction H as [| | | | | |r' w1 w2 H1 _ H2 IH2]; intros rest Ew; try discriminate.
  injection Es as ->. destruct w1 as [|c' w1]; simpl in Ew.
  - now apply IH2.
  - injection Ew as -> <-. now exists w1, w2.
Qed.

Lemma lang_cat_head (r1 r2 : Js.regex) (c : ascii) (w : list ascii) :
  lang (Js.Cat r1 r2) (c :: w)
  <-> (exists w1 w2, w = w1 ++ w2 /\ lang r1 (c :: w1) /\ lang r2 w2)
      \/ (lang r1 [] /\ lang r2 (c :: w)).
Proof.
  split.
  - intros H. apply lang_cat_inv in H. destruct H as (w1 & w2 & E & H1 & H2).
    destruct w1 as [|c' w1]; simpl in E.
    + right. subst w2. now split.
    + injection E as -> ->. left. now exists w1, w2.
  - intros [(w1 & w2 & -> & H1 & H2) | [H1 H2]].
    + now apply lang_cat_cons.
    + change (c :: w) with ([] ++ c :: w). now constructor.
Qed.

Lemma deriv_spec (r : Js.regex) :
  forall c w, lang (Js.deriv c r) w <-> lang r (c :: w).
Proof.
  induction r as [| |p|r1 IH1 r2 IH2|r1 IH1 r2 IH2|r IH]; intros c w; simpl.
  - split; intros H; now apply lang_never_inv in H.
  - split; intros H; [now apply lang_never_inv in H|].
    apply lang_epsilon_inv in H. discriminate.
  - split.
    + destruct (p c) eqn:Hp; intros H; [|now apply lang_never_inv in H].
      apply lang_epsilon_inv in H. subst. now constructor.
    + intros H. apply lang_class_inv in H. destruct H as (c' & [= -> ->] & Hp).
      rewrite Hp. constructor.
  - assert (lang (Js.Cat (Js.deriv c r1) r2) w
            <-> exists w1 w2, w = w1 ++ w2 /\ lang r1 (c :: w1) /\ lang r2 w2) as Hcat.
    { split.
      - intros H. apply lang_cat_inv in H. destruct H as (w1 & w2 & -> & H1 & H2).
        exists w1, w2. repeat split; auto. now apply IH1.
      - intros (w1 & w2 & -> & H1 & H2). constructor; auto. now apply IH1. }
    rewrite lang_cat_head. destruct (Js.nullable r1) eqn:Hn.
    + split.
      * intros H. apply lang_alt_inv in H. destruct H as [H|H]; [left; now apply Hcat|].
        right. split; [now apply nullable_spec | now apply IH2].
      * intros [H | [_ H]]; [apply lang_alt_left; now apply Hcat|].
        apply lang_alt_right. now apply IH2.
    + rewrite Hcat. split; [now left|]. intros [H | [H _]]; [exact H|].
      apply nullable_spec in H. congruence.
  - split; intros H; apply lang_alt_inv in H; destruct H as [H|H].
    + apply lang_alt_left. now apply IH1.
    + apply lang_alt_right. now apply IH2.
    + apply lang_alt_left. now apply IH1.
    + apply lang_alt_right. now apply IH2.
  - split.
    + intros H. apply lang_cat_inv in H. destruct H as (w1 & w2 & -> & H1 & H2).
      change (c :: w1 ++ w2) with ((c :: w1) ++ w2). constructor; auto. now apply IH.
    + intros H. apply lang_star_head in H. destruct H as (w1 & w2 & -> & H1 & H2).
      constructor; auto. now apply IH.
Qed.

(** the matcher decides membership *)
Lemma accepts_spec (w : list ascii) : forall r, Js.accepts r w = true <-> lang r w.
Proof.
  induction w as [|c w IH]; intros r; simpl.
  - apply nullable_spec.
  - rewrite IH. apply deriv_spec.
Qed.

Lemma lang_anything (w : list ascii) : lang Js.anything w.
Proof.
  unfold Js.anything. induction w as [|c w IH]; [constructor|].
  change (c :: w) with ([c] ++ w). constructor; [now constructor | exact IH].
Qed.

(** [test] looks for a word of the pattern anywhere in the text *)
Lemma test_spec (r : Js.regex) (s : string) :
  Js.test r s = true <-> exists a m b, Js.chars s = a ++ m ++ b /\ lang r m.
Proof.
  unfold Js.test. rewrite accepts_spec. split.
  - intros H. apply lang_cat_inv in H. destruct H as (a & mb & -> & _ & H).
    apply lang_cat_inv in H. destruct H as (m & b & -> & Hm & _). now exists a, m, b.
  - intros (a & m & b & -> & Hm).
    constructor; [apply lang_anything|]. constructor; [exact Hm | apply lang_anything].
Qed.

Lemma lang_chr (c : ascii) (w : list ascii) : lang (Js.chr c) w <-> w = [c].
Proof.
  unfold Js.chr. split.
  - intros H. apply lang_class_inv in H. destruct H as (c' & -> & Hc).
    apply Ascii.eqb_eq in Hc. now subst.
  - intros ->. constructor. apply Ascii.eqb_refl.
Qed.

Lemma lang_lit_chars (cs w : list ascii) : lang (Js.lit_chars cs) w <-> w = cs.
Proof.
  revert w. induction cs as [|c cs IH]; intros w; simpl.
  - split; [apply lang_epsilon_inv | intros ->; constructor].
  - split.
    + intros H. apply lang_cat_inv in H. destruct H as (w1 & w2 & -> & H1 & H2).
      apply lang_chr in H1. apply IH in H2. now subst.
    + intros ->. change (c :: cs) with ([c] ++ cs).
      constructor; [now apply lang_chr | now apply IH].
Qed.

Lemma lang_alts_lit (words : list string) (w : list ascii) :
  lang (Js.alts (map Js.lit words)) w <-> exists word, In word words /\ w = Js.chars word.
Proof.
  induction words as [|x words IH]; simpl.
  - split; [intros H; now apply lang_never_inv in H | intros (? & [] & _)].
  - split.
    + intros H. apply lang_alt_inv in H. destruct H as [H|H].
      * exists x. split; [now left | now apply lang_lit_chars].
      * destruct (proj1 IH H) as (word & Hin & E). exists word. split; [now right | exact E].
    + intros (word & [<- | Hin] & ->).
      * apply lang_alt_left. now apply lang_lit_chars.
      * apply lang_alt_right. apply IH. now exists word.
Qed.

Lemma lang_star_dot (w : list ascii) :
  lang (Js.Star Js.dot) w <-> Forall (fun c => Js.isLineTerminator c = false) w.
Proof.
  split.
  - intros H. remember (Js.Star Js.dot) as s eqn:Es.
    induction H as [| | | | | |r w1 w2 H1 _ H2 IH2]; try discriminate; [constructor|].
    injection Es as ->. apply Forall_app. split; [|now apply IH2].
    apply lang_class_inv in H1. destruct H1 as (c & -> & Hc). constructor; [|constructor].
    now apply negb_true_iff.
  - induction 1 as [|c w Hc _ IH]; [constructor|].
    change (c :: w) with ([c] ++ w). constructor; [|exact IH].
    constructor. now apply negb_true_iff.
Qed.

Lemma lang_quoted_span (m : list ascii) :
  lang Segmenter.quoted_span m
  <-> exists inside,
      m = Js.dquote :: inside ++ [Js.dquote]
      /\ Forall (fun c => Js.isLineTerminator c = false) inside.
Proof.
  unfold Segmenter.quoted_span. split.
  - intros H. apply lang_cat_inv in H. destruct H as (w1 & w23 & -> & H1 & H).
    apply lang_cat_inv in H. destruct H as (w2 & w3 & -> & H2 & H3).
    apply lang_chr in H1. apply lang_chr in H3. apply lang_star_dot in H2. subst.
    now exists w2.
  - intros (inside & -> & Hin).
    change (Js.dquote :: inside ++ [Js.dquote]) with ([Js.dquote] ++ inside ++ [Js.dquote]).
    constructor; [now apply lang_chr|].
    constructor; [now apply lang_star_dot | now apply lang_chr].
Qed.

(** ** Strings and their characters *)

Lemma chars_app (s t : string) : Js.chars (s +:+ t) = Js.chars s ++ Js.chars t.
Proof. induction s as [|c s IH]; simpl; [reflexivity|]. unfold Js.chars in *. simpl. now rewrite IH. Qed.

Lemma chars_cons (c : ascii) (s : string) : Js.chars (String c s) = c :: Js.chars s.
Proof. reflexivity. Qed.

Lemma chars_str (l : list ascii) : Js.chars (Js.str l) = l.
Proof. apply list_ascii_of_string_of_list_ascii. Qed.

Lemma str_chars (s : string) : Js.str (Js.chars s) = s.
Proof. apply string_of_list_ascii_of_string. Qed.

Lemma chars_inj (s t : string) : Js.chars s = Js.chars t -> s = t.
Proof. intros H. rewrite <- (str_chars s), <- (str_chars t). now rewrite H. Qed.

Lemma test_quoted_span (text : string) :
  Js.test Segmenter.quoted_span text = true <-> quoted_on_one_line text.
Proof.
  rewrite test_spec. unfold quoted_on_one_line. split.
  - intros (a & m & b & E & Hm). apply lang_quoted_span in Hm.
    destruct Hm as (inside & -> & Hin).
    exists (Js.str a), (Js.str inside), (Js.str b). split.
    + apply chars_inj.
      rewrite E, chars_app, chars_cons, chars_app, chars_cons, !chars_str.
      simpl. now rewrite <- app_assoc.
    + now rewrite chars_str.
  - intros (before & inside & after & -> & Hin).
    exists (Js.chars before), (Js.dquote :: Js.chars inside ++ [Js.dquote]), (Js.chars after).
    split.
    + rewrite chars_app, chars_cons, chars_app, chars_cons.
      simpl. now rewrite <- app_assoc.
    + apply lang_quoted_span. now exists (Js.chars inside).
Qed.

Lemma test_attribution (text : string) :
  Js.test Segmenter.attribution text = true <-> has_attribution_verb text.
Proof.
  rewrite test_spec. unfold has_attribution_verb, occurs_in, Segmenter.attribution. split.
  - intros (a & m & b & E & Hm). apply lang_alts_lit in Hm.
    destruct Hm as (verb & Hin & ->). exists verb. split; [exact Hin|].
    exists (Js.str a), (Js.str b). apply chars_inj.
    now rewrite E, !chars_app, !chars_str.
  - intros (verb & Hin & before & after & ->).
    exists (Js.chars before), (Js.chars verb), (Js.chars after).
    split; [now rewrite !chars_app|]. apply lang_alts_lit. now exists verb.
Qed.

(** * The segmenter: dialogue detection *)

Lemma detectDialogue_spec (text : string) :
  Segmenter.detectDialogue text = true
  <-> quoted_on_one_line text /\ has_attribution_verb text.
Proof.
  unfold Segmenter.detectDialogue.
  now rewrite andb_true_iff, test_quoted_span, test_attribution.
Qed.

(** C7, as the code has it.  A paragraph is classified as dialogue exactly
    when it has two double quotes with no line terminator between them and
    one of the verbs said, asked, replied, whispered, shouted occurs in it in
    lower case; otherwise it is narrative.  A paragraph with a quoted phrase
    on one line and the word "said" is dialogue; the same paragraph without
    an attribution verb is narrative. *)
Theorem dialogue_iff_quote_on_a_line_and_verb (text : string) :
  (Segmenter.detectDialogue text = true
   <-> quoted_on_one_line text /\ has_attribution_verb text)
  /\ (forall c index,
        AudioSegment.segment_type (Segmenter.make_segment c index text)
        = if Segmenter.detectDialogue text then dialogue else narrative)
  /\ Segmenter.detectDialogue said_paragraph = true
  /\ Segmenter.detectDialogue plain_paragraph = false.
Proof.
  split; [apply detectDialogue_spec|].
  split; [reflexivity|].
  split; vm_compute; reflexivity.
Qed.

(** C7 as stated does not hold: a quoted phrase that runs over a line break,
    followed by "said", is classified as narrative. *)
Lemma wrapped_quote_is_narrative :
  quoted_somewhere wrapped_paragraph
  /\ has_attribution_verb wrapped_paragraph
  /\ Segmenter.detectDialogue wrapped_paragraph = false
  /\ AudioSegment.segment_type
       (Segmenter.make_segment (chapter "ch1" wrapped_paragraph) 0 wrapped_paragraph)
     = narrative.
Proof.
  split.
  - exists EmptyString, ("We should leave," +:+ newline +:+ "before dawn,"), " Mara said.".
    reflexivity.
  - split; [apply test_attribution; vm_compute; reflexivity|].
    split; vm_compute; reflexivity.
Qed.

(** * The voice matcher *)

(** The candidates are the voices of the pool that pass all stages, in pool
    order. *)
Lemma candidates_of_filter (c : CharacterBible.t) (pool : list Voice.t) :
  VoiceMatchingEngine.candidates_of c pool = List.filter (survives c) pool.
Proof.
  unfold VoiceMatchingEngine.candidates_of, VoiceMatchingEngine.filterByGender,
    VoiceMatchingEngine.filterByAgeRange, VoiceMatchingEngine.filterByAccent, survives.
  destruct (VoiceProfile.accent (CharacterBible.voice_profile c)) as [accent|].
  - destruct (Js.truthy accent).
    + rewrite !filter_twice. apply filter_pointwise. intros v.
      now rewrite andb_assoc.
    + rewrite filter_twice. apply filter_pointwise. intros v. now rewrite andb_true_r.
  - rewrite filter_twice. apply filter_pointwise. intros v. now rewrite andb_true_r.
Qed.

Lemma count_inner (p : string -> bool) (l : list string) :
  forall n,
    fold_left (fun matchCount d => if p d then matchCount + 1 else matchCount) l n
    = n + length (List.filter p l).
Proof.
  induction l as [|d l IH]; intros n; simpl; [lia|].
  rewrite IH. destruct (p d); simpl; lia.
Qed.

Lemma count_outer (tones descriptors : list string) :
  forall n,
    fold_left
      (fun matchCount tone =>
         fold_left
           (fun matchCount descriptor =>
              if VoiceMatchingEngine.tags_match tone descriptor
              then matchCount + 1 else matchCount)
           descriptors matchCount)
      tones n
    = n + length (List.filter (fun p => VoiceMatchingEngine.tags_match (fst p) (snd p))
                              (list_prod tones descriptors)).
Proof.
  induction tones as [|t tones IH]; intros n; simpl; [lia|].
  rewrite IH, count_inner, List.filter_app, length_app.
  assert (length (List.filter (fun p => VoiceMatchingEngine.tags_match (fst p) (snd p))
                              (map (fun y => (t, y)) descriptors))
          = length (List.filter (VoiceMatchingEngine.tags_match t) descriptors)) as ->; [|lia].
  clear. induction descriptors as [|d ds IH]; simpl; [reflexivity|].
  destruct (VoiceMatchingEngine.tags_match t d); simpl; now rewrite IH.
Qed.

Lemma count_matches_overlap (tone descriptors : list string) :
  VoiceMatchingEngine.count_matches (map Js.toLowerCase tone) (map Js.toLowerCase descriptors)
  = overlap tone descriptors.
Proof. unfold VoiceMatchingEngine.count_matches, overlap. now rewrite count_outer. Qed.

Lemma tags_match_spec (tone descriptor : string) :
  VoiceMatchingEngine.tags_match tone descriptor = true
  <-> occurs_in tone descriptor \/ occurs_in descriptor tone.
Proof.
  unfold VoiceMatchingEngine.tags_match.
  now rewrite orb_true_iff, !includes_spec.
Qed.

Lemma ratio_nonneg (a b : nat) :
  (0 <= inject_Z (Z.of_nat a) / inject_Z (Z.of_nat b))%Q.
Proof.
  unfold Qdiv. apply Qmult_le_0_compat.
  - change 0%Q with (inject_Z 0). rewrite <- Zle_Qle. lia.
  - apply Qinv_le_0_compat. change 0%Q with (inject_Z 0). rewrite <- Zle_Qle. lia.
Qed.

Lemma calculatePersonalityMatch_spec (descriptors tone : list string) :
  (tone = [] \/ descriptors = [] ->
   VoiceMatchingEngine.calculatePersonalityMatch descriptors tone = (1 # 2)%Q)
  /\ (tone <> [] -> descriptors <> [] ->
      (VoiceMatchingEngine.calculatePersonalityMatch descriptors tone
       == Qmin 1 (inject_Z (Z.of_nat (overlap tone descriptors))
                  / inject_Z (Z.of_nat (Nat.max (length tone) (length descriptors)))))%Q)
  /\ (0 <= VoiceMatchingEngine.calculatePersonalityMatch descriptors tone <= 1)%Q.
Proof.
  unfold VoiceMatchingEngine.calculatePersonalityMatch.
  rewrite count_matches_overlap, !length_map.
  destruct tone as [|t tone]; [repeat split; auto; try congruence; simpl; lra|].
  destruct descriptors as [|d descriptors];
    [repeat split; auto; try congruence; simpl; lra|].
  cbn [length Nat.eqb orb].
  set (ratio := (inject_Z _ / inject_Z _)%Q).
  assert (0 <= ratio)%Q as Hr by apply ratio_nonneg.
  destruct (Math_min_spec 1 ratio) as (H1 & H2 & H3).
  split; [intros [?|?]; discriminate|]. split.
  - intros _ _. destruct (Qlt_le_dec ratio 1) as [Hlt|Hle].
    + rewrite Q.min_r by lra. destruct H3 as [H3|H3]; lra.
    + rewrite Q.min_l by lra. destruct H3 as [H3|H3]; lra.
  - destruct H3 as [H3|H3]; lra.
Qed.

Lemma matchCharacterToVoice_best (c : CharacterBible.t) (pool : list Voice.t)
    (before after : list Voice.t) (best : Voice.t) :
  VoiceMatchingEngine.candidates_of c pool = before ++ best :: after ->
  (forall v, In v before ->
             (VoiceMatchingEngine.score_of c v < VoiceMatchingEngine.score_of c best)%Q) ->
  (forall v, In v after ->
             (VoiceMatchingEngine.score_of c v <= VoiceMatchingEngine.score_of c best)%Q) ->
  VoiceMatchingEngine.matchCharacterToVoice c pool = Ok (match_of c best).
Proof.
  intros E Hb Ha. unfold VoiceMatchingEngine.matchCharacterToVoice. rewrite E.
  rewrite map_app. cbn [map].
  set (pair_of := fun voice => (voice, VoiceMatchingEngine.score_of c voice)).
  destruct (Array_sort_head (@snd Voice.t Q) (map pair_of before) (map pair_of after)
              (pair_of best)) as [rest Hs].
  - intros x Hx. apply in_map_iff in Hx. destruct Hx as (v & <- & Hv). now apply Hb.
  - intros x Hx. apply in_map_iff in Hx. destruct Hx as (v & <- & Hv). now apply Ha.
  - change VoiceMatchingEngine.by_score_desc with (descending (@snd Voice.t Q)).
    change (best, VoiceMatchingEngine.score_of c best) with (pair_of best).
    rewrite Hs. reflexivity.
Qed.

(** C3. For a character whose candidate set is not empty after the filters:
    the candidates are the surviving voices in pool order; the score of a
    voice is 1/2 when either tag list is empty and otherwise
    min(1, matches / max(number of tone tags, number of descriptor tags)),
    where a match is a pair of lower-cased tags of which one occurs in the
    other, and lies in [0,1]; the voice returned is the candidate whose
    descriptors score greatest against the tone of the character, every
    candidate before it in pool order scoring strictly less, and the match
    carries that voice and that score. *)
Theorem highest_score_first_in_pool_order
    (c : CharacterBible.t) (pool : list Voice.t)
    (nonempty : List.filter (survives c) pool <> []) :
  VoiceMatchingEngine.candidates_of c pool = List.filter (survives c) pool
  /\ (forall descriptors tone,
        (tone = [] \/ descriptors = [] ->
         VoiceMatchingEngine.calculatePersonalityMatch descriptors tone = (1 # 2)%Q)
        /\ (tone <> [] -> descriptors <> [] ->
            (VoiceMatchingEngine.calculatePersonalityMatch descriptors tone
             == Qmin 1 (inject_Z (Z.of_nat (overlap tone descriptors))
                        / inject_Z (Z.of_nat (Nat.max (length tone) (length descriptors)))))%Q)
        /\ (0 <= VoiceMatchingEngine.calculatePersonalityMatch descriptors tone <= 1)%Q)
  /\ (forall tone descriptor,
        VoiceMatchingEngine.tags_match tone descriptor = true
        <-> occurs_in tone descriptor \/ occurs_in descriptor tone)
  /\ exists before best after,
      List.filter (survives c) pool = before ++ best :: after
      /\ (forall v, In v before ->
            (VoiceMatchingEngine.calculatePersonalityMatch (Voice.descriptors v)
               (VoiceProfile.tone (CharacterBible.voice_profile c))
             < VoiceMatchingEngine.calculatePersonalityMatch (Voice.descriptors best)
                 (VoiceProfile.tone (CharacterBible.voice_profile c)))%Q)
      /\ (forall v, In v after ->
            (VoiceMatchingEngine.calculatePersonalityMatch (Voice.descriptors v)
               (VoiceProfile.tone (CharacterBible.voice_profile c))
             <= VoiceMatchingEngine.calculatePersonalityMatch (Voice.descriptors best)
                  (VoiceProfile.tone (CharacterBible.voice_profile c)))%Q)
      /\ VoiceMatchingEngine.matchCharacterToVoice c pool
         = Ok {| VoiceMatch.voice_id := Voice.id best;
                 VoiceMatch.voice_name := Voice.name best;
                 VoiceMatch.provider := Voice.provider best;
                 VoiceMatch.match_score :=
                   VoiceMatchingEngine.calculatePersonalityMatch (Voice.descriptors best)
                     (VoiceProfile.tone (CharacterBible.voice_profile c));
                 VoiceMatch.voice_settings :=
                   VoiceMatchingEngine.optimizeSettings best
                     (CharacterBible.voice_profile c) |}.
Proof.
  split; [apply candidates_of_filter|].
  split; [intros; apply calculatePersonalityMatch_spec|].
  split; [apply tags_match_spec|].
  destruct (first_greatest_exists (VoiceMatchingEngine.score_of c) _ nonempty)
    as (before & best & after & E & Hb & Ha).
  exists before, best, after.
  split; [exact E|]. split; [exact Hb|]. split; [exact Ha|].
  change (VoiceMatchingEngine.matchCharacterToVoice c pool = Ok (match_of c best)).
  apply matchCharacterToVoice_best with before after; auto.
  now rewrite candidates_of_filter.
Qed.

Lemma highest_score_first_in_pool_order_witness :
  List.filter (survives (character female 30 None ["calm"])) sample_pool <> []
  /\ exists before best after,
      List.filter (survives (character female 30 None ["calm"])) sample_pool
      = before ++ best :: after
      /\ (forall v, In v before ->
            (VoiceMatchingEngine.calculatePersonalityMatch (Voice.descriptors v) ["calm"]
             < VoiceMatchingEngine.calculatePersonalityMatch (Voice.descriptors best)
                 ["calm"])%Q)
      /\ (forall v, In v after ->
            (VoiceMatchingEngine.calculatePersonalityMatch (Voice.descriptors v) ["calm"]
             <= VoiceMatchingEngine.calculatePersonalityMatch (Voice.descriptors best)
                  ["calm"])%Q)
      /\ VoiceMatchingEngine.matchCharacterToVoice
           (character female 30 None ["calm"]) sample_pool
         = Ok {| VoiceMatch.voice_id := Voice.id best;
                 VoiceMatch.voice_name := Voice.name best;
                 VoiceMatch.provider := Voice.provider best;
                 VoiceMatch.match_score :=
                   VoiceMatchingEngine.calculatePersonalityMatch (Voice.descriptors best)
                     ["calm"];
                 VoiceMatch.voice_settings :=
                   VoiceMatchingEngine.optimizeSettings best
                     (CharacterBible.voice_profile
                        (character female 30 None ["calm"])) |}.
Proof.
  assert (List.filter (survives (character female 30 None ["calm"])) sample_pool <> [])
    as nonempty by (vm_compute; discriminate).
  split; [exact nonempty|].
  exact (proj2 (proj2 (proj2
           (highest_score_first_in_pool_order
              (character female 30 None ["calm"]) sample_pool nonempty)))).
Defined.

(** On the sample pool the two calm voices tie at 1/2 and the earlier one,
    "v-warm", is returned. *)
Example sample_pool_choice :
  VoiceMatchingEngine.matchCharacterToVoice (character female 30 None ["calm"]) sample_pool
  = Ok (match_of (character female 30 None ["calm"])
                 (voice "v-warm" female age_20_35 ["warm"; "calm"]))
  /\ map (VoiceMatchingEngine.score_of (character female 30 None ["calm"])) sample_pool
     = [0%Q; (1 # 2)%Q; (1 # 2)%Q].
Proof. split; vm_compute; reflexivity. Qed.

Lemma matchCharacterToVoice_no_candidate (c : CharacterBible.t) (pool : list Voice.t) :
  VoiceMatchingEngine.candidates_of c pool = [] ->
  VoiceMatchingEngine.matchCharacterToVoice c pool = Err (no_suitable_voice c).
Proof.
  intros E. unfold VoiceMatchingEngine.matchCharacterToVoice. now rewrite E.
Qed.

Lemma stage_emptied_no_candidate (c : CharacterBible.t) (pool : list Voice.t) :
  stage_emptied c pool -> VoiceMatchingEngine.candidates_of c pool = [].
Proof.
  unfold stage_emptied, VoiceMatchingEngine.candidates_of.
  intros [E | [E | (accent & Ha & Ht & E)]].
  - rewrite E. cbn.
    destruct (VoiceProfile.accent _) as [a|]; [destruct (Js.truthy a)|]; reflexivity.
  - rewrite E.
    destruct (VoiceProfile.accent _) as [a|]; [destruct (Js.truthy a)|]; reflexivity.
  - now rewrite Ha, Ht.
Qed.

Lemma filterByGender_all_male (pool : list Voice.t) :
  Forall (fun v => Voice.gender v = male) pool ->
  VoiceMatchingEngine.filterByGender pool female = [].
Proof.
  unfold VoiceMatchingEngine.filterByGender.
  induction 1 as [|v pool Hv _ IH]; simpl; [reflexivity|].
  now rewrite Hv, IH.
Qed.

(** C4. Whenever a filter stage (gender, age bracket, or the accent stage of
    a character that states an accent) leaves no candidate,
    [matchCharacterToVoice] fails with the no-suitable-voice error instead of
    returning a voice; so it does for a female character of age 30 and a
    pool of male voices only. *)
Theorem no_candidate_no_voice (c : CharacterBible.t) (pool : list Voice.t) :
  (stage_emptied c pool ->
   VoiceMatchingEngine.matchCharacterToVoice c pool = Err (no_suitable_voice c))
  /\ (CharacterBible.gender c = female ->
      (CharacterBible.age c == 30)%Q ->
      Forall (fun v => Voice.gender v = male) pool ->
      VoiceMatchingEngine.matchCharacterToVoice c pool = Err (no_suitable_voice c)).
Proof.
  split.
  - intros H. now apply matchCharacterToVoice_no_candidate, stage_emptied_no_candidate.
  - intros Hg _ Hm.
    apply matchCharacterToVoice_no_candidate, stage_emptied_no_candidate.
    left. rewrite Hg. now apply filterByGender_all_male.
Qed.

Lemma no_candidate_no_voice_witness :
  VoiceMatchingEngine.matchCharacterToVoice (character female 30 None ["calm"]) male_pool
  = Err "No suitable voice found for character: Ann".
Proof.
  apply (proj2 (no_candidate_no_voice (character female 30 None ["calm"]) male_pool)).
  - reflexivity.
  - reflexivity.
  - repeat constructor.
Defined.

(** * The orchestrator: one unit *)

Lemma find_first_such {A} (p : A -> bool) (P : A -> Prop) (l : list A) :
  (forall x, p x = true <-> P x) ->
  forall a, List.find p l = Some a <-> first_such P l a.
Proof.
  intros HP a. unfold first_such. induction l as [|x l IH]; simpl.
  - split; [discriminate | intros ([|? ?] & after & H & _); discriminate].
  - destruct (p x) eqn:Hx.
    + split.
      * intros [= ->]. exists [], l. repeat split; auto. now apply HP.
      * intros ([|y before] & after & E & Ha & Hb).
        -- now injection E as ->.
        -- injection E as -> _. apply Forall_inv in Hb.
           exfalso. apply Hb. now apply HP.
    + rewrite IH. split.
      * intros (before & after & -> & Ha & Hb). exists (x :: before), after.
        repeat split; auto. constructor; auto.
        rewrite <- HP, Hx. discriminate.
      * intros ([|y before] & after & E & Ha & Hb).
        -- injection E as -> _. apply HP in Ha. congruence.
        -- injection E as -> ->. exists before, after. repeat split; auto.
           now apply Forall_inv_tail in Hb.
Qed.

Lemma find_none_iff {A} (p : A -> bool) (l : list A) :
  List.find p l = None <-> Forall (fun x => p x = false) l.
Proof.
  induction l as [|x l IH]; simpl.
  - split; auto.
  - destruct (p x) eqn:Hx.
    + split; [discriminate | intros H; apply Forall_inv in H; congruence].
    + rewrite IH. split; [now constructor | apply Forall_inv_tail].
Qed.

(** the name of an assignment is exactly the sentinel *)
Lemma narrator_test (a : VoiceAssignment.t) :
  String.eqb (VoiceAssignment.character_name a) "narrator" = true
  <-> VoiceAssignment.character_name a = "narrator".
Proof. apply String.eqb_eq. Qed.

Lemma same_name_test (name : string) (a : VoiceAssignment.t) :
  String.eqb (Js.toLowerCase (VoiceAssignment.character_name a)) (Js.toLowerCase name) = true
  <-> Js.toLowerCase (VoiceAssignment.character_name a) = Js.toLowerCase name.
Proof. apply String.eqb_eq. Qed.

Lemma findVoiceAssignment_unset (speaker : option string)
    (assignments : list VoiceAssignment.t) (a : VoiceAssignment.t) :
  TTSOrchestrator.option_truthy speaker = false ->
  TTSOrchestrator.findVoiceAssignment speaker assignments = Some a
  <-> first_such (fun a => VoiceAssignment.character_name a = "narrator") assignments a.
Proof.
  intros H. rewrite <- (find_first_such _ _ assignments narrator_test).
  destruct speaker as [name|]; simpl in *; [now rewrite H | reflexivity].
Qed.

Lemma findVoiceAssignment_named (name : string)
    (assignments : list VoiceAssignment.t) (a : VoiceAssignment.t) :
  Js.truthy name = true ->
  TTSOrchestrator.findVoiceAssignment (Some name) assignments = Some a
  <-> first_such (fun a => Js.toLowerCase (VoiceAssignment.character_name a)
                           = Js.toLowerCase name) assignments a.
Proof.
  intros H. rewrite <- (find_first_such _ _ assignments (same_name_test name)).
  simpl. now rewrite H.
Qed.

Lemma generateSingleSegment_unresolved (env : Env.t) (segment : AudioSegment.t)
    (assignments : list VoiceAssignment.t) :
  TTSOrchestrator.findVoiceAssignment (AudioSegment.character_name segment) assignments = None ->
  TTSOrchestrator.generateSingleSegment env segment assignments
  = (Err ("No voice assignment found for segment: " +:+ AudioSegment.id segment), []).
Proof. intros H. unfold TTSOrchestrator.generateSingleSegment. now rewrite H. Qed.

Lemma generateSingleSegment_resolved (env : Env.t) (segment : AudioSegment.t)
    (assignments : list VoiceAssignment.t) (a : VoiceAssignment.t) :
  TTSOrchestrator.findVoiceAssignment (AudioSegment.character_name segment) assignments = Some a ->
  fallback_outcome env (TTSOrchestrator.params_of segment a)
    (TTSOrchestrator.generateSingleSegment env segment assignments).
Proof.
  intros H. unfold TTSOrchestrator.generateSingleSegment. rewrite H.
  destruct (ElevenLabsProvider.generateSpeech env _) as [audio|m1] eqn:E1.
  - now constructor.
  - destruct (PlayHTProvider.generateSpeech env _) as [audio|m2] eqn:E2.
    + econstructor 2; eauto.
    + econstructor 3; eauto.
Qed.

(** C8. The assignment of a unit is resolved before anything else: a unit
    without speaker gets the first assignment named exactly "narrator"; a
    unit with a speaker gets the first assignment whose name equals the
    speaker's up to case; when none is found the unit fails with the
    missing-assignment error and no provider has been called for it; when
    one is found, every provider call made for the unit carries the request
    built from it. *)
Theorem assignment_resolved_before_synthesis
    (env : Env.t) (segment : AudioSegment.t) (assignments : list VoiceAssignment.t) :
  (TTSOrchestrator.option_truthy (AudioSegment.character_name segment) = false ->
   forall a,
     TTSOrchestrator.findVoiceAssignment (AudioSegment.character_name segment) assignments
     = Some a
     <-> first_such (fun a => VoiceAssignment.character_name a = "narrator") assignments a)
  /\ (forall name,
        AudioSegment.character_name segment = Some name -> Js.truthy name = true ->
        forall a,
          TTSOrchestrator.findVoiceAssignment (AudioSegment.character_name segment) assignments
          = Some a
          <-> first_such (fun a => Js.toLowerCase (VoiceAssignment.character_name a)
                                   = Js.toLowerCase name) assignments a)
  /\ (TTSOrchestrator.findVoiceAssignment (AudioSegment.character_name segment) assignments
      = None ->
      TTSOrchestrator.generateSingleSegment env segment assignments
      = (Err ("No voice assignment found for segment: " +:+ AudioSegment.id segment), []))
  /\ (forall a,
        TTSOrchestrator.findVoiceAssignment (AudioSegment.character_name segment) assignments
        = Some a ->
        forall call,
          In call (snd (TTSOrchestrator.generateSingleSegment env segment assignments)) ->
          snd call = TTSOrchestrator.params_of segment a).
Proof.
  split; [intros H a; now apply findVoiceAssignment_unset|].
  split; [intros name -> H a; now apply findVoiceAssignment_named|].
  split; [apply generateSingleSegment_unresolved|].
  intros a H call Hc.
  pose proof (generateSingleSegment_resolved env segment assignments a H) as Ho.
  inversion Ho as [audio E Hr | m audio E1 E2 Hr | m1 m2 E1 E2 Hr];
    rewrite <- Hr in Hc; simpl in Hc;
    repeat (destruct Hc as [<- | Hc]; [reflexivity|]); destruct Hc.
Qed.

(** * [Promise.all] *)

Section PromiseFacts.
Context {A : Type}.
Implicit Types (order : list (nat * (nat * result A))) (values : list (option A)).

Lemma indexed_fst {B} (l : list B) : map fst (Segmenter.indexed l) = seq 0 (length l).
Proof.
  unfold Segmenter.indexed. generalize 0.
  induction l as [|x l IH]; intros k; simpl; [reflexivity|]. now rewrite IH.
Qed.

Lemma indexed_lookup {B} (l : list B) (i : nat) (x : B) :
  l !! i = Some x -> In (i, x) (Segmenter.indexed l).
Proof.
  unfold Segmenter.indexed. change i with (0 + i) at 2. generalize 0.
  revert i. induction l as [|y l IH]; intros i k H; [discriminate|].
  destruct i as [|i]; simpl in *.
  - injection H as ->. left. f_equal. lia.
  - right. replace (k + S i) with (S k + i) by lia. now apply IH.
Qed.

Lemma completion_order_Permutation (promises : list (nat * result A)) :
  Permutation (Promise.completion_order promises) (Segmenter.indexed promises).
Proof. apply Array_sort_Permutation. Qed.

Lemma completion_order_NoDup (promises : list (nat * result A)) :
  List.NoDup (map fst (Promise.completion_order promises)).
Proof.
  eapply Permutation_NoDup.
  - symmetry. apply Permutation_map, completion_order_Permutation.
  - rewrite indexed_fst. apply List.seq_NoDup.
Qed.

Lemma stored_length order : forall values, length (stored order values) = length values.
Proof.
  induction order as [|[index [t [v|m]]] order IH]; intros values; simpl; auto.
  now rewrite IH, length_insert.
Qed.

Lemma stored_elsewhere order (i : nat) :
  ~ In i (map fst order) -> forall values, stored order values !! i = values !! i.
Proof.
  induction order as [|[index [t [v|m]]] order IH]; intros Hi values; simpl in *; auto.
  rewrite IH by tauto. apply list_lookup_insert_ne. tauto.
Qed.

Lemma stored_at order (i t : nat) (v : A) :
  List.NoDup (map fst order) -> In (i, (t, Ok v)) order ->
  forall values, i < length values -> stored order values !! i = Some (Some v).
Proof.
  induction order as [|[index [t' [v'|m]]] order IH]; intros Hn Hin values Hi;
    simpl in *; [tauto| |]; apply List.NoDup_cons_iff in Hn; destruct Hn as [Hfresh Hn].
  - destruct Hin as [[= -> -> ->] | Hin].
    + rewrite stored_elsewhere by assumption. now apply list_lookup_insert_eq.
    + apply IH; auto. now rewrite length_insert.
  - destruct Hin as [[=] | Hin]. now apply IH.
Qed.

(** When every promise is fulfilled, the values come back in the order of
    the promises, whatever the order of the settlements. *)
Lemma settle_fulfilled order :
  Forall (fun e => is_ok (snd (snd e)) = true) order ->
  forall values,
    Promise.settle order values
    = (Ok (omap id (stored order values)), map (fun e => (fst e, true)) order).
Proof.
  induction 1 as [|[index [t [v|m]]] order Hok _ IH]; intros values; simpl in *;
    [reflexivity | | discriminate].
  now rewrite IH.
Qed.

Lemma omap_id_Some (l : list A) : omap id (map Some l) = l.
Proof. induction l as [|x l IH]; simpl; [reflexivity|]. f_equal. exact IH. Qed.

Lemma all_fulfilled (promises : list (nat * result A)) (values : list A) :
  Forall2 (fun p v => snd p = Ok v) promises values ->
  Promise.all promises
  = (Ok values, map (fun e => (fst e, true)) (Promise.completion_order promises)).
Proof.
  intros H. unfold Promise.all. rewrite settle_fulfilled.
  - f_equal. f_equal. rewrite <- (omap_id_Some values). f_equal.
    apply list_eq. intros i.
    destruct (le_lt_dec (length promises) i) as [Hge|Hlt].
    + rewrite !lookup_ge_None_2; auto.
      * rewrite length_map. rewrite <- (Forall2_length _ _ _ H). exact Hge.
      * now rewrite stored_length, length_replicate.
    + destruct (lookup_lt_is_Some_2 promises i Hlt) as [[t r] Hp].
      destruct (Forall2_lookup_l _ _ _ _ _ H Hp) as (v & Hv & Hr). simpl in Hr. subst r.
      rewrite list_lookup_fmap, Hv. simpl.
      apply stored_at with t.
      * apply completion_order_NoDup.
      * eapply Permutation_in; [symmetry; apply completion_order_Permutation|].
        now apply indexed_lookup.
      * now rewrite length_replicate.
  - eapply Permutation_Forall; [symmetry; apply completion_order_Permutation|].
    apply List.Forall_forall. intros [i [t r]] Hin. simpl.
    unfold Segmenter.indexed in Hin. apply in_combine_r in Hin.
    apply (Forall2_Forall_l) with (Q := fun p => is_ok (snd p) = true) in H.
    + rewrite List.Forall_forall in H. apply (H _ Hin).
    + apply List.Forall_forall. intros v _ p ->. reflexivity.
Qed.

Lemma settle_rejected order :
  Exists (fun e => is_ok (snd (snd e)) = false) order ->
  forall values, exists message seen,
    Promise.settle order values = (Err message, seen) /\
    forall j ok, In (j, ok) seen -> In j (map fst order).
Proof.
  induction order as [|[index [t [v|m]]] order IH]; intros Hex values.
  - inversion Hex.
  - apply Exists_cons in Hex. destruct Hex as [Hex|Hex]; [discriminate|].
    destruct (IH Hex (<[index := Some v]> values)) as (message & seen & E & Hs).
    exists message, ((index, true) :: seen). simpl. rewrite E. split; [reflexivity|].
    intros j ok [[= <- <-]|Hin]; [now left | right; eauto].
  - exists m, [(index, false)]. split; [reflexivity|].
    intros j ok [[= <- <-]|[]]. now left.
Qed.

Lemma all_rejected (promises : list (nat * result A)) :
  Exists (fun p => is_ok (snd p) = false) promises ->
  exists message seen, Promise.all promises = (Err message, seen).
Proof.
  intros Hex. unfold Promise.all.
  destruct (settle_rejected (Promise.completion_order promises)) with
    (values := replicate (length promises) (@None A)) as (message & seen & E & _).
  - apply List.Exists_exists in Hex. destruct Hex as ([t r] & Hin & Hr).
    apply list_elem_of_In, list_elem_of_lookup_1 in Hin. destruct Hin as [i Hi].
    apply List.Exists_exists. exists (i, (t, r)). split; [|exact Hr].
    eapply Permutation_in; [symmetry; apply completion_order_Permutation|].
    now apply indexed_lookup.
  - eauto.
Qed.
End PromiseFacts.

(** * The orchestrator: batches *)

Lemma in_flight_app (t1 t2 : list TTSOrchestrator.event) :
  forall pending,
    in_flight pending (t1 ++ t2)
    = match in_flight pending t1 with
      | Some pending' => in_flight pending' t2
      | None => None
      end.
Proof.
  induction t1 as [|e t1 IH]; intros pending; simpl; [reflexivity|].
  destruct e; auto. destruct pending; auto.
Qed.

Lemma in_flight_starts (js : list nat) (rest : list TTSOrchestrator.event) :
  forall pending,
    in_flight pending (map TTSOrchestrator.UnitStarted js ++ rest)
    = in_flight (rev js ++ pending) rest.
Proof.
  induction js as [|j js IH]; intros pending; simpl; [reflexivity|].
  rewrite IH, <- app_assoc. reflexivity.
Qed.

Lemma in_flight_settles (i : nat) (seen : list (nat * bool))
    (rest : list TTSOrchestrator.event) :
  forall pending,
    in_flight pending
      (map (fun s => TTSOrchestrator.UnitSettled (i + fst s) (snd s)) seen ++ rest)
    = in_flight
        (List.filter (fun k => forallb (fun s => negb (k =? i + fst s)) seen) pending)
        rest.
Proof.
  induction seen as [|s seen IH]; intros pending; simpl.
  - f_equal. induction pending as [|k pending IHp]; simpl; [reflexivity|]. now rewrite <- IHp.
  - rewrite IH. f_equal. rewrite filter_twice. reflexivity.
Qed.

Lemma filter_none {A} (p : A -> bool) (l : list A) :
  (forall x, In x l -> p x = false) -> List.filter p l = [].
Proof.
  induction l as [|x l IH]; intros H; simpl; [reflexivity|].
  rewrite (H x) by now left. apply IH. intros y Hy. apply H. now right.
Qed.

Lemma dispatched_app (t1 t2 : list TTSOrchestrator.event) :
  dispatched (t1 ++ t2) = dispatched t1 ++ dispatched t2.
Proof.
  induction t1 as [|e t1 IH]; simpl; [reflexivity|].
  destruct e; simpl; now rewrite IH.
Qed.

Lemma dispatched_batch_events (i : nat) (batch : list AudioSegment.t)
    (seen : list (nat * bool)) :
  dispatched (TTSOrchestrator.batch_events i batch seen) = [(i, length batch)].
Proof.
  unfold TTSOrchestrator.batch_events. simpl. f_equal.
  rewrite dispatched_app.
  assert (forall js, dispatched (map TTSOrchestrator.UnitStarted js) = []) as ->
      by (induction js; simpl; auto).
  induction seen; simpl; auto.
Qed.

(** the events of a batch whose promises are all fulfilled leave nothing in
    flight *)
Lemma in_flight_fulfilled_batch {A} (i : nat) (batch : list AudioSegment.t)
    (promises : list (nat * result A)) :
  length promises = length batch ->
  in_flight []
    (TTSOrchestrator.batch_events i batch
       (map (fun e => (fst e, true)) (Promise.completion_order promises)))
  = Some [].
Proof.
  intros Hlen. unfold TTSOrchestrator.batch_events. cbn [in_flight].
  rewrite in_flight_starts.
  rewrite <- (app_nil_r (map _ (map _ _))), in_flight_settles. cbn [in_flight].
  f_equal. apply filter_none. intros k Hk.
  rewrite app_nil_r, <- in_rev, in_seq in Hk.
  apply not_true_is_false. rewrite forallb_forall. intros H.
  assert (In (k - i) (map fst (Promise.completion_order promises))) as Hin.
  { eapply Permutation_in.
    - symmetry. apply Permutation_map, completion_order_Permutation.
    - rewrite indexed_fst, in_seq. unfold Promise.started in *. lia. }
  apply in_map_iff in Hin. destruct Hin as (e & He & Hin).
  specialize (H (fst e, true)). rewrite in_map_iff in H.
  specialize (H (ex_intro _ e (conj eq_refl Hin))). simpl in H.
  rewrite He in H. rewrite negb_true_iff, Nat.eqb_neq in H. lia.
Qed.

(** the events of any batch, started with nothing in flight, respect the
    barrier *)
Lemma in_flight_any_batch (i : nat) (batch : list AudioSegment.t)
    (seen : list (nat * bool)) :
  in_flight [] (TTSOrchestrator.batch_events i batch seen) <> None.
Proof.
  unfold TTSOrchestrator.batch_events. cbn [in_flight].
  rewrite in_flight_starts.
  rewrite <- (app_nil_r (map _ seen)), in_flight_settles. discriminate.
Qed.

Lemma cover_count (n b : nat) :
  0 < b ->
  forall i batches, batches_cover n b i batches -> length batches = (n - i + b - 1) / b.
Proof.
  intros Hb i batches H. induction H as [i Hi | i batches Hi _ IH]; simpl.
  - replace (n - i + b - 1) with (b - 1) by lia. symmetry. apply Nat.div_small. lia.
  - rewrite IH. destruct (le_lt_dec b (n - i)) as [Hle | Hlt].
    + replace (n - i + b - 1) with ((n - (i + b) + b - 1) + 1 * b) by lia.
      rewrite Nat.div_add by lia. lia.
    + replace (n - (i + b) + b - 1) with (b - 1) by lia.
      rewrite (Nat.div_small (b - 1)) by lia.
      apply (Nat.div_unique _ _ 1 (n - i - 1)); lia.
Qed.

Section Loop.
Context (env : Env.t) (latency : AudioSegment.t -> nat).
Context (segments : list AudioSegment.t) (assignments : list VoiceAssignment.t).
Context (positive : 0 < Env.batchSize env).

Local Abbreviation b := (Env.batchSize env).
Local Abbreviation n := (length segments).
Local Abbreviation unit_result s :=
  (fst (TTSOrchestrator.generateSingleSegment env s assignments)).
Local Abbreviation loop :=
  (TTSOrchestrator.generateSegments_from env latency segments assignments).

Lemma slice_length (i : nat) :
  length (Js.slice i (i + b) segments) = Nat.min b (n - i).
Proof.
  unfold Js.slice. rewrite length_take, length_drop.
  replace (i + b - i) with b by lia. reflexivity.
Qed.

Lemma slice_batch (i : nat) : Js.slice i (i + b) segments = take b (drop i segments).
Proof. unfold Js.slice. now replace (i + b - i) with b by lia. Qed.

(** a batch either is fulfilled as a whole, its values in the order of its
    units, or is rejected *)
Lemma batch_cases (batch : list AudioSegment.t) :
  (exists audios,
      Forall2 (fun s a => unit_result s = Ok a) batch audios
      /\ Promise.all (map (TTSOrchestrator.start_unit env latency assignments) batch)
         = (Ok audios,
            map (fun e => (fst e, true))
                (Promise.completion_order
                   (map (TTSOrchestrator.start_unit env latency assignments) batch))))
  \/ (Exists (fun s => is_ok (unit_result s) = false) batch
      /\ exists message seen,
          Promise.all (map (TTSOrchestrator.start_unit env latency assignments) batch)
          = (Err message, seen)).
Proof.
  assert (forall l : list AudioSegment.t,
             (exists audios, Forall2 (fun s a => unit_result s = Ok a) l audios)
             \/ Exists (fun s => is_ok (unit_result s) = false) l) as split_cases.
  { induction l as [|s l [[audios IH] | IH]].
    - left. exists []. constructor.
    - destruct (unit_result s) as [a|m] eqn:E.
      + left. exists (a :: audios). now constructor.
      + right. apply Exists_cons_hd. now rewrite E.
    - right. now apply Exists_cons_tl. }
  destruct (split_cases batch) as [[audios H] | H].
  - left. exists audios. split; [exact H|]. apply all_fulfilled.
    apply Forall2_fmap_l. eapply Forall2_impl; [exact H|]. intros s a E. exact E.
  - right. split; [exact H|]. apply all_rejected.
    apply List.Exists_exists in H. destruct H as (s & Hin & Hs).
    apply List.Exists_exists. exists (TTSOrchestrator.start_unit env latency assignments s).
    split; [now apply in_map | exact Hs].
Qed.

(** The loop ends, and no batch starts while a unit is in flight. *)
Lemma loop_ends (fuel : nat) :
  forall i results trace,
    n - i < fuel -> in_flight [] trace = Some [] ->
    exists outcome trace',
      loop fuel i results trace = Some (outcome, trace')
      /\ batches_do_not_overlap trace'.
Proof.
  unfold batches_do_not_overlap.
  induction fuel as [|fuel IH]; intros i results trace Hfuel Hquiet; [lia|].
  cbn [TTSOrchestrator.generateSegments_from].
  destruct (i <? n) eqn:Hi.
  - apply Nat.ltb_lt in Hi.
    destruct (batch_cases (Js.slice i (i + b) segments))
      as [(audios & _ & ->) | (_ & message & seen & ->)].
    + apply IH; [lia|].
      rewrite in_flight_app, Hquiet, in_flight_app, in_flight_fulfilled_batch; [reflexivity|].
      now rewrite length_map.
    + do 2 eexists. split; [reflexivity|].
      rewrite in_flight_app, Hquiet. apply in_flight_any_batch.
  - do 2 eexists. split; [reflexivity|]. now rewrite Hquiet.
Qed.

(** When every unit is synthesised, the fragments come back one per unit, in
    the order of the units, and the batches cut the units in runs of [b]. *)
Lemma loop_fulfilled (audios : list GeneratedAudio.t) :
  Forall2 (fun s a => unit_result s = Ok a) segments audios ->
  forall fuel i results trace,
    n - i < fuel ->
    exists more,
      loop fuel i results trace = Some (Ok (results ++ drop i audios), trace ++ more)
      /\ batches_cover n b i (dispatched more).
Proof.
  intros Hall. induction fuel as [|fuel IH]; intros i results trace Hfuel; [lia|].
  cbn [TTSOrchestrator.generateSegments_from].
  pose proof (Forall2_length _ _ _ Hall) as Hlen.
  destruct (i <? n) eqn:Hi.
  - apply Nat.ltb_lt in Hi.
    assert (Forall2 (fun s a => unit_result s = Ok a)
              (Js.slice i (i + b) segments) (take b (drop i audios))) as Hbatch.
    { rewrite slice_batch. now apply Forall2_take, Forall2_drop. }
    destruct (batch_cases (Js.slice i (i + b) segments))
      as [(audios' & Hb' & ->) | (Hex & _)].
    + assert (audios' = take b (drop i audios)) as ->.
      { clear - Hbatch Hb'. revert Hb'. generalize audios'.
        induction Hbatch as [|s a l l' Ha _ IHl]; intros x Hx; inversion Hx; subst.
        - reflexivity.
        - f_equal; [congruence | now apply IHl]. }
      destruct (IH (i + b) (results ++ take b (drop i audios))
                  (trace ++ TTSOrchestrator.batch_events i (Js.slice i (i + b) segments)
                     (map (fun e => (fst e, true))
                        (Promise.completion_order
                           (map (TTSOrchestrator.start_unit env latency assignments)
                              (Js.slice i (i + b) segments))))
                     ++ [TTSOrchestrator.Progress
                           (i + length (Js.slice i (i + b) segments)) n]))
        as (more & -> & Hcover); [lia|].
      eexists. split.
      * f_equal. f_equal.
        -- rewrite <- app_assoc. f_equal.
           rewrite <- (take_drop b (drop i audios)) at 2. f_equal.
           now rewrite drop_drop.
        -- rewrite <- !app_assoc. reflexivity.
      * rewrite !dispatched_app, dispatched_batch_events, slice_length. simpl.
        now constructor.
    + exfalso. apply List.Exists_exists in Hex. destruct Hex as (s & Hin & Hs).
      apply list_elem_of_In, list_elem_of_lookup_1 in Hin. destruct Hin as [j Hj].
      destruct (Forall2_lookup_l _ _ _ _ _ Hbatch Hj) as (a & _ & Ha).
      rewrite Ha in Hs. discriminate.
  - apply Nat.ltb_ge in Hi. exists []. rewrite drop_ge, !app_nil_r by lia.
    split; [reflexivity | now constructor].
Qed.

(** When a unit cannot be synthesised, the run is rejected. *)
Lemma loop_rejected (fuel : nat) :
  forall i results trace,
    n - i < fuel ->
    Exists (fun s => is_ok (unit_result s) = false) (drop i segments) ->
    exists message trace', loop fuel i results trace = Some (Err message, trace').
Proof.
  induction fuel as [|fuel IH]; intros i results trace Hfuel Hex; [lia|].
  cbn [TTSOrchestrator.generateSegments_from].
  destruct (i <? n) eqn:Hi.
  - apply Nat.ltb_lt in Hi.
    destruct (batch_cases (Js.slice i (i + b) segments))
      as [(audios & Hok & ->) | (_ & message & seen & ->)]; [|eauto].
    apply IH; [lia|].
    rewrite <- (take_drop b (drop i segments)), drop_drop in Hex.
    apply Exists_app in Hex. destruct Hex as [Hex | Hex]; [|exact Hex].
    exfalso. rewrite <- slice_batch in Hex.
    apply List.Exists_exists in Hex. destruct Hex as (s & Hin & Hs).
    apply list_elem_of_In, list_elem_of_lookup_1 in Hin. destruct Hin as [j Hj].
    destruct (Forall2_lookup_l _ _ _ _ _ Hok Hj) as (a & _ & Ha).
    rewrite Ha in Hs. discriminate.
  - apply Nat.ltb_ge in Hi. rewrite drop_ge in Hex by lia. inversion Hex.
Qed.
End Loop.

(** C5. With a positive batch size [b] and [n] units, the run ends, and no
    batch is dispatched while a unit of an earlier batch is in flight.  When
    every unit is synthesised, the run returns one fragment per unit, in the
    order of the units whatever the order in which their promises settled,
    and the batches dispatched cut the units into ceil(n/b) consecutive runs
    of [b] units, the last one possibly shorter.  When some unit is not
    synthesised, the run returns an error and no fragment.  Five units that
    are all synthesised and a batch size of 2 give the three batches of
    offsets 0, 2, 4 and sizes 2, 2, 1. *)
Theorem batches_in_order
    (env : Env.t) (latency : AudioSegment.t -> nat)
    (segments : list AudioSegment.t) (assignments : list VoiceAssignment.t) (fuel : nat)
    (positive : 0 < Env.batchSize env) (enough : length segments < fuel) :
  (exists outcome trace,
      TTSOrchestrator.generateSegments env latency segments assignments fuel
      = Some (outcome, trace)
      /\ batches_do_not_overlap trace)
  /\ (forall audios,
        Forall2 (fun s a => fst (TTSOrchestrator.generateSingleSegment env s assignments) = Ok a)
                segments audios ->
        exists trace,
          TTSOrchestrator.generateSegments env latency segments assignments fuel
          = Some (Ok audios, trace)
          /\ length audios = length segments
          /\ batches_cover (length segments) (Env.batchSize env) 0 (dispatched trace)
          /\ length (dispatched trace)
             = (length segments + Env.batchSize env - 1) / Env.batchSize env)
  /\ (exists audios trace,
        TTSOrchestrator.generateSegments (sample_env 2 [] []) reversed_latency five_units
          [narrator_assignment] 6 = Some (Ok audios, trace)
        /\ dispatched trace = [(0, 2); (2, 2); (4, 1)])
  /\ (Exists (fun s => is_ok (fst (TTSOrchestrator.generateSingleSegment env s assignments))
                       = false) segments ->
      exists message trace,
        TTSOrchestrator.generateSegments env latency segments assignments fuel
        = Some (Err message, trace)).
Proof.
  split; [|split; [|split]].
  - apply loop_ends; [exact positive | lia | reflexivity].
  - intros audios Hall.
    destruct (loop_fulfilled env latency segments assignments positive audios Hall
                fuel 0 [] []) as (more & E & Hcover); [lia|].
    exists more. unfold TTSOrchestrator.generateSegments. rewrite E. simpl.
    repeat split; auto.
    + symmetry. eapply Forall2_length, Hall.
    + rewrite (cover_count _ _ positive _ _ Hcover). f_equal. lia.
  - do 2 eexists. split; vm_compute; reflexivity.
  - intros Hex. apply loop_rejected; [exact positive | lia | exact Hex].
Qed.

Lemma batches_in_order_witness :
  0 < Env.batchSize (sample_env 2 [] [])
  /\ length five_units < 6
  /\ exists outcome trace,
      TTSOrchestrator.generateSegments (sample_env 2 [] []) reversed_latency five_units
        [narrator_assignment] 6 = Some (outcome, trace)
      /\ batches_do_not_overlap trace.
Proof.
  assert (0 < Env.batchSize (sample_env 2 [] [])) as positive by (simpl; lia).
  assert (length five_units < 6) as enough by (simpl; lia).
  split; [exact positive|]. split; [exact enough|].
  exact (proj1 (batches_in_order (sample_env 2 [] []) reversed_latency five_units
                  [narrator_assignment] 6 positive enough)).
Defined.

(** C5 as stated does not hold for every run: with five units and a batch
    size of 2, when neither provider takes the first unit the run stops
    after one batch, not three, and returns an error in place of the five
    fragments. *)
Lemma failing_unit_stops_the_batches :
  0 < Env.batchSize (sample_env 2 ["one"] ["one"])
  /\ TTSOrchestrator.generateSegments (sample_env 2 ["one"] ["one"]) reversed_latency
       five_units [narrator_assignment] 6
     = Some (Err "Failed to generate audio for segment",
             [ TTSOrchestrator.BatchDispatched 0 2;
               TTSOrchestrator.UnitStarted 0; TTSOrchestrator.UnitStarted 1;
               TTSOrchestrator.UnitSettled 1 true; TTSOrchestrator.UnitSettled 0 false ])
  /\ dispatched
       [ TTSOrchestrator.BatchDispatched 0 2;
         TTSOrchestrator.UnitStarted 0; TTSOrchestrator.UnitStarted 1;
         TTSOrchestrator.UnitSettled 1 true; TTSOrchestrator.UnitSettled 0 false ]
     = [(0, 2)]
  /\ (length five_units + 2 - 1) / 2 = 3.
Proof.
  split; [simpl; lia|]. split; [vm_compute; reflexivity|]. split; reflexivity.
Qed.

(** The fragments of the sample run come back in the order of the units
    although the promises settle last unit first. *)
Example sample_run_order :
  exists audios trace,
    TTSOrchestrator.generateSegments (sample_env 2 ["two"] []) reversed_latency five_units
      [narrator_assignment] 6 = Some (Ok audios, trace)
    /\ map GeneratedAudio.provider audios
       = [elevenlabs; playht; elevenlabs; elevenlabs; elevenlabs]
    /\ trace
       = [ TTSOrchestrator.BatchDispatched 0 2;
           TTSOrchestrator.UnitStarted 0; TTSOrchestrator.UnitStarted 1;
           TTSOrchestrator.UnitSettled 1 true; TTSOrchestrator.UnitSettled 0 true;
           TTSOrchestrator.Progress 2 5;
           TTSOrchestrator.BatchDispatched 2 2;
           TTSOrchestrator.UnitStarted 2; TTSOrchestrator.UnitStarted 3;
           TTSOrchestrator.UnitSettled 3 true; TTSOrchestrator.UnitSettled 2 true;
           TTSOrchestrator.Progress 4 5;
           TTSOrchestrator.BatchDispatched 4 1;
           TTSOrchestrator.UnitStarted 4; TTSOrchestrator.UnitSettled 4 true;
           TTSOrchestrator.Progress 5 5 ].
Proof. do 2 eexists. repeat split; vm_compute; reflexivity. Qed.

Lemma PlayHT_stamp (env : Env.t) (params : TTSGenerationParams.t) (audio : GeneratedAudio.t) :
  PlayHTProvider.generateSpeech env params = Ok audio ->
  GeneratedAudio.provider audio = playht.
Proof.
  unfold PlayHTProvider.generateSpeech.
  destruct (Env.http env playht params); [intros [= <-]; reflexivity | discriminate].
Qed.

Lemma ElevenLabs_stamp (env : Env.t) (params : TTSGenerationParams.t)
    (audio : GeneratedAudio.t) :
  ElevenLabsProvider.generateSpeech env params = Ok audio ->
  GeneratedAudio.provider audio = elevenlabs.
Proof.
  unfold ElevenLabsProvider.generateSpeech.
  destruct (Env.http env elevenlabs params); [intros [= <-]; reflexivity | discriminate].
Qed.

(** C2. For a unit whose assignment is resolved, whatever provider that
    assignment pins: the first provider called is the primary one, with the
    request of the unit; when it answers nothing else is called; when it
    fails the fallback provider is called, once, and its answer, stamped
    with the fallback provider, is the fragment of the unit; when both fail
    the unit fails, and any run over a list that contains the unit is
    rejected, returning an error and no fragment. *)
Theorem primary_then_fallback
    (env : Env.t) (segment : AudioSegment.t) (assignments : list VoiceAssignment.t)
    (a : VoiceAssignment.t)
    (resolved :
       TTSOrchestrator.findVoiceAssignment (AudioSegment.character_name segment) assignments
       = Some a) :
  let params := TTSOrchestrator.params_of segment a in
  fallback_outcome env params (TTSOrchestrator.generateSingleSegment env segment assignments)
  /\ hd_error (snd (TTSOrchestrator.generateSingleSegment env segment assignments))
     = Some (elevenlabs, params)
  /\ (forall message audio,
        ElevenLabsProvider.generateSpeech env params = Err message ->
        PlayHTProvider.generateSpeech env params = Ok audio ->
        TTSOrchestrator.generateSingleSegment env segment assignments
        = (Ok audio, [(elevenlabs, params); (playht, params)])
        /\ GeneratedAudio.provider audio = playht)
  /\ (forall message1 message2,
        ElevenLabsProvider.generateSpeech env params = Err message1 ->
        PlayHTProvider.generateSpeech env params = Err message2 ->
        forall latency segments fuel,
          In segment segments -> 0 < Env.batchSize env -> length segments < fuel ->
          exists message trace,
            TTSOrchestrator.generateSegments env latency segments assignments fuel
            = Some (Err message, trace)).
Proof.
  intros params.
  pose proof (generateSingleSegment_resolved env segment assignments a resolved) as Ho.
  fold params in Ho.
  split; [exact Ho|]. split; [|split].
  - inversion Ho; reflexivity.
  - intros message audio E1 E2. split; [|now apply PlayHT_stamp with env params].
    unfold TTSOrchestrator.generateSingleSegment. rewrite resolved. fold params.
    now rewrite E1, E2.
  - intros m1 m2 E1 E2 latency segments fuel Hin positive enough.
    apply loop_rejected; [exact positive | lia |].
    rewrite drop_0. apply List.Exists_exists. exists segment. split; [exact Hin|].
    unfold TTSOrchestrator.generateSingleSegment. rewrite resolved. fold params.
    now rewrite E1, E2.
Qed.

Lemma primary_then_fallback_witness :
  TTSOrchestrator.findVoiceAssignment
    (AudioSegment.character_name (narrative_unit 2 "two")) [narrator_assignment]
  = Some narrator_assignment
  /\ fallback_outcome (sample_env 2 ["two"] [])
       (TTSOrchestrator.params_of (narrative_unit 2 "two") narrator_assignment)
       (TTSOrchestrator.generateSingleSegment (sample_env 2 ["two"] [])
          (narrative_unit 2 "two") [narrator_assignment]).
Proof.
  split; [reflexivity|].
  exact (proj1 (primary_then_fallback (sample_env 2 ["two"] []) (narrative_unit 2 "two")
                  [narrator_assignment] narrator_assignment eq_refl)).
Defined.

(** The narrator is pinned to XTTS, the primary provider refuses the text,
    and the fragment comes from PlayHT; when PlayHT refuses it too, the run
    over the five units is rejected. *)
Example fallback_run :
  fst (TTSOrchestrator.generateSingleSegment (sample_env 2 ["two"] [])
         (narrative_unit 2 "two") [narrator_assignment])
  = Ok {| GeneratedAudio.audio_data := [Byte.x02];
          GeneratedAudio.format := mp3;
          GeneratedAudio.duration := 3%Q;
          GeneratedAudio.provider := playht;
          GeneratedAudio.cost := (1 # 10)%Q |}
  /\ map fst (snd (TTSOrchestrator.generateSingleSegment (sample_env 2 ["two"] [])
                     (narrative_unit 2 "two") [narrator_assignment]))
     = [elevenlabs; playht]
  /\ TTSOrchestrator.generateSegments (sample_env 2 ["two"] ["two"]) reversed_latency
       five_units [narrator_assignment] 6
     = Some (Err "Failed to generate audio for segment",
             [ TTSOrchestrator.BatchDispatched 0 2;
               TTSOrchestrator.UnitStarted 0; TTSOrchestrator.UnitStarted 1;
               TTSOrchestrator.UnitSettled 1 false ]).
Proof. repeat split; vm_compute; reflexivity. Qed.

Lemma assignment_resolved_before_synthesis_witness :
  TTSOrchestrator.generateSingleSegment (sample_env 2 [] [])
    (narrative_unit 1 "one") [ ]
  = (Err "No voice assignment found for segment: ch1_seg_0", []).
Proof.
  exact (proj1 (proj2 (proj2
           (assignment_resolved_before_synthesis (sample_env 2 [] [])
              (narrative_unit 1 "one") []))) eq_refl).
Defined.

(** * Progress updates *)

Lemma StronglySorted_non_decreasing (l : list Z) :
  StronglySorted Z.le l -> non_decreasing l.
Proof.
  unfold non_decreasing. induction 1 as [|x l Hs IH Hx]; intros i j a b Hi Hj Hij.
  - discriminate.
  - destruct i as [|i], j as [|j]; simpl in *; try lia.
    + injection Hi as ->. injection Hj as ->. lia.
    + injection Hi as ->. rewrite List.Forall_forall in Hx. apply Hx.
      apply list_elem_of_In. eapply list_elem_of_lookup_2, Hj.
    + apply (IH i j); auto. lia.
Qed.

Lemma StronglySorted_app_Z (l1 l2 : list Z) :
  StronglySorted Z.le l1 -> StronglySorted Z.le l2 ->
  (forall x y, In x l1 -> In y l2 -> (x <= y)%Z) ->
  StronglySorted Z.le (l1 ++ l2).
Proof.
  intros H1 H2 H. induction H1 as [|x l1 Hs IH Hx]; simpl; [exact H2|].
  constructor.
  - apply IH. intros a c Ha Hc. apply H; [now right | exact Hc].
  - apply Forall_app. split; [exact Hx|].
    apply List.Forall_forall. intros y Hy. apply H; [now left | exact Hy].
Qed.

Lemma ratio_le_1 (c n : nat) :
  0 < n -> c <= n -> (inject_Z (Z.of_nat c) / inject_Z (Z.of_nat n) <= 1)%Q.
Proof.
  intros Hn Hc. apply Qle_shift_div_r.
  - change 0%Q with (inject_Z 0). rewrite <- Zlt_Qlt. lia.
  - rewrite Qmult_1_l, <- Zle_Qle. lia.
Qed.

Lemma ratio_mono (c c' n : nat) :
  c <= c' ->
  (inject_Z (Z.of_nat c) / inject_Z (Z.of_nat n)
   <= inject_Z (Z.of_nat c') / inject_Z (Z.of_nat n))%Q.
Proof.
  intros H. unfold Qdiv. apply Qmult_le_compat_r.
  - rewrite <- Zle_Qle. lia.
  - apply Qinv_le_0_compat. change 0%Q with (inject_Z 0). rewrite <- Zle_Qle. lia.
Qed.

Lemma batch_percent_mono (c c' n : nat) :
  c <= c' ->
  (ProgressUpdate.percent_complete (TTSOrchestrator.batch_update c n)
   <= ProgressUpdate.percent_complete (TTSOrchestrator.batch_update c' n))%Z.
Proof.
  intros H. simpl. unfold Js.Math_round. apply Qfloor_resp_le.
  pose proof (ratio_mono c c' n H). lra.
Qed.

Lemma batch_percent_bounds (c n : nat) :
  0 < n -> c <= n ->
  (10 <= ProgressUpdate.percent_complete (TTSOrchestrator.batch_update c n) <= 90)%Z.
Proof.
  intros Hn Hc. simpl. unfold Js.Math_round.
  pose proof (ratio_le_1 c n Hn Hc) as H1.
  pose proof (ratio_nonneg c n) as H0.
  split.
  - transitivity (Qfloor (21 # 2)); [reflexivity|]. apply Qfloor_resp_le. lra.
  - transitivity (Qfloor (181 # 2)); [|reflexivity]. apply Qfloor_resp_le. lra.
Qed.

Lemma progress_of_app (t1 t2 : list TTSOrchestrator.event) :
  progress_of (t1 ++ t2) = progress_of t1 ++ progress_of t2.
Proof.
  induction t1 as [|e t1 IH]; simpl; [reflexivity|]. destruct e; simpl; now rewrite IH.
Qed.

Lemma progress_of_batch_events (i : nat) (batch : list AudioSegment.t)
    (seen : list (nat * bool)) :
  progress_of (TTSOrchestrator.batch_events i batch seen) = [].
Proof.
  unfold TTSOrchestrator.batch_events. simpl. rewrite progress_of_app.
  assert (forall js, progress_of (map TTSOrchestrator.UnitStarted js) = []) as ->
      by (induction js; simpl; auto).
  induction seen; simpl; auto.
Qed.

Lemma updates_of_progress (trace : list TTSOrchestrator.event) :
  flat_map TTSOrchestrator.updates_of trace
  = map (fun ct => TTSOrchestrator.batch_update (fst ct) (snd ct)) (progress_of trace).
Proof.
  induction trace as [|e trace IH]; simpl; [reflexivity|].
  destruct e; simpl; now rewrite IH.
Qed.

(** The progress callback is called with the number of units done so far,
    which grows and never exceeds the total. *)
Lemma loop_progress (env : Env.t) (latency : AudioSegment.t -> nat)
    (segments : list AudioSegment.t) (assignments : list VoiceAssignment.t) (fuel : nat) :
  forall i results trace outcome trace',
    TTSOrchestrator.generateSegments_from env latency segments assignments
      fuel i results trace = Some (outcome, trace') ->
    exists more,
      trace' = trace ++ more
      /\ Forall (fun ct => snd ct = length segments
                           /\ i <= fst ct <= length segments
                           /\ 0 < length segments) (progress_of more)
      /\ StronglySorted le (map fst (progress_of more)).
Proof.
  induction fuel as [|fuel IH]; intros i results trace outcome trace' E; [discriminate|].
  cbn [TTSOrchestrator.generateSegments_from] in E.
  destruct (i <? length segments) eqn:Hi.
  - apply Nat.ltb_lt in Hi.
    destruct (Promise.all _) as [[audios|message] seen] eqn:Ea.
    + apply IH in E. destruct E as (more & -> & Hall & Hsorted).
      eexists. split; [rewrite <- !app_assoc; reflexivity|].
      rewrite !progress_of_app, progress_of_batch_events. simpl.
      assert (length (Js.slice i (i + Env.batchSize env) segments) <= Env.batchSize env
              /\ i + length (Js.slice i (i + Env.batchSize env) segments) <= length segments)
        as [Hb Hn].
      { unfold Js.slice. rewrite length_take, length_drop. lia. }
      split.
      * constructor; [simpl; lia|].
        eapply List.Forall_impl; [|exact Hall]. simpl. intros ct. lia.
      * constructor; [exact Hsorted|].
        rewrite List.Forall_map. eapply List.Forall_impl; [|exact Hall].
        simpl. intros ct. lia.
    + injection E as <- <-. eexists. split; [reflexivity|].
      rewrite progress_of_batch_events. split; constructor.
  - injection E as <- <-. exists []. rewrite app_nil_r. repeat split; constructor.
Qed.

Lemma batch_percents_sorted (n : nat) (points : list (nat * nat)) :
  Forall (fun ct => snd ct = n /\ fst ct <= n /\ 0 < n) points ->
  StronglySorted le (map fst points) ->
  StronglySorted Z.le
    (percents (map (fun ct => TTSOrchestrator.batch_update (fst ct) (snd ct)) points))
  /\ Forall (fun p => (10 <= p <= 90)%Z)
       (percents (map (fun ct => TTSOrchestrator.batch_update (fst ct) (snd ct)) points)).
Proof.
  unfold percents.
  induction points as [|[c t] points IH]; intros Hall Hs; simpl; [split; constructor|].
  apply Forall_cons_iff in Hall. destruct Hall as [(Ht & Hc & Hn) Hall]. simpl in *. subst t.
  apply StronglySorted_inv in Hs. destruct Hs as [Hs Hle].
  destruct (IH Hall Hs) as [IHs IHb].
  split; constructor; auto.
  - rewrite !List.Forall_map. rewrite List.Forall_map in Hle.
    rewrite List.Forall_forall in *. intros [c' t'] Hin. simpl.
    destruct (Hall _ Hin) as (Ht' & _ & _). simpl in Ht'. subst t'.
    apply batch_percent_mono. apply (Hle _ Hin).
  - now apply batch_percent_bounds.
Qed.

Lemma percents_app (l1 l2 : list ProgressUpdate.t) :
  percents (l1 ++ l2) = percents l1 ++ percents l2.
Proof. apply map_app. Qed.

Lemma percents_cons (u : ProgressUpdate.t) (l : list ProgressUpdate.t) :
  percents (u :: l) = ProgressUpdate.percent_complete u :: percents l.
Proof. reflexivity. Qed.

Lemma run_percents_sorted (middle : list Z) :
  StronglySorted Z.le middle -> Forall (fun p => (10 <= p <= 90)%Z) middle ->
  StronglySorted Z.le ([5; 10] ++ middle)%Z
  /\ StronglySorted Z.le ([5; 10] ++ middle ++ [95; 100])%Z.
Proof.
  intros Hs Hb. rewrite List.Forall_forall in Hb.
  assert (StronglySorted Z.le [5; 10]%Z) as H0
      by (repeat constructor; lia).
  assert (StronglySorted Z.le [95; 100]%Z) as H1
      by (repeat constructor; lia).
  split; repeat apply StronglySorted_app_Z; auto.
  - intros x y [<-|[<-|[]]] Hy; specialize (Hb _ Hy); lia.
  - intros x y Hx [<-|[<-|[]]]; specialize (Hb _ Hx); lia.
  - intros x y [<-|[<-|[]]] Hy; apply in_app_or in Hy;
      destruct Hy as [Hy|[<-|[<-|[]]]]; try lia; specialize (Hb _ Hy); lia.
Qed.

(** The updates of a run, up to a final error update. *)
Lemma generateAudiobook_updates
    (env : Env.t) (latency : AudioSegment.t -> nat) (fuel : nat) (project_id : string)
    (chapters : list Chapter.t) (voice_assignments : list VoiceAssignment.t)
    (outcome : result (option AudiobookProject.t)) (updates : list ProgressUpdate.t) :
  TTSOrchestrator.generateAudiobook env latency fuel project_id chapters voice_assignments
  = Some (outcome, updates) ->
  match outcome with
  | Ok _ => StronglySorted Z.le (percents updates)
  | Err message =>
      exists shown,
        updates = shown ++ [TTSOrchestrator.error_update message]
        /\ StronglySorted Z.le (percents shown)
  end.
Proof.
  unfold TTSOrchestrator.generateAudiobook, TTSOrchestrator.generateSegments.
  destruct (TTSOrchestrator.generateSegments_from _ _ _ _ _ _ _ _)
    as [[result trace]|] eqn:E; [|discriminate].
  apply loop_progress in E. destruct E as (more & -> & Hall & Hsorted). simpl in Hsorted.
  destruct (batch_percents_sorted (length (Segmenter.segmentChapters chapters))
              (progress_of more)) as [Hs Hb]; [|exact Hsorted|].
  { eapply List.Forall_impl; [|exact Hall]. simpl. intros ct. lia. }
  rewrite <- updates_of_progress in Hs, Hb.
  destruct (run_percents_sorted _ Hs Hb) as [Hshort Hlong].
  destruct result as [audios|message].
  - cbn [TTSOrchestrator.saveAudioSegments].
    destruct (TTSOrchestrator.getAudiobookProject env project_id) as [project|message];
      intros [= <- <-].
    + rewrite !percents_cons, !percents_app, <- !app_assoc. exact Hlong.
    + eexists (_ :: _ :: _). split; [reflexivity|].
      rewrite !percents_cons, !percents_app, <- !app_assoc. exact Hlong.
  - intros [= <- <-]. eexists (_ :: _ :: _). split; [reflexivity|].
    rewrite !percents_cons. exact Hshort.
Qed.

(** C9, as the code has it.  With a positive batch size every run ends; the
    percent values of its updates never decrease up to the last update of a
    successful run; a failed run ends with one more update, of stage [error]
    and percent 0, and the updates before that one never decrease. *)
Theorem progress_non_decreasing_until_error
    (env : Env.t) (latency : AudioSegment.t -> nat) (fuel : nat) (project_id : string)
    (chapters : list Chapter.t) (voice_assignments : list VoiceAssignment.t)
    (positive : 0 < Env.batchSize env)
    (enough : length (Segmenter.segmentChapters chapters) < fuel) :
  exists outcome updates,
    TTSOrchestrator.generateAudiobook env latency fuel project_id chapters voice_assignments
    = Some (outcome, updates)
    /\ match outcome with
       | Ok _ => non_decreasing (percents updates)
       | Err message =>
           exists shown last,
             updates = shown ++ [last]
             /\ non_decreasing (percents shown)
             /\ ProgressUpdate.stage last = error
             /\ ProgressUpdate.percent_complete last = 0%Z
       end.
Proof.
  destruct (loop_ends env latency (Segmenter.segmentChapters chapters) voice_assignments
              positive fuel 0 [] []) as (result & trace & E & _); [lia | reflexivity|].
  assert (exists outcome updates,
             TTSOrchestrator.generateAudiobook env latency fuel project_id chapters
               voice_assignments = Some (outcome, updates)) as (outcome & updates & Hrun).
  { unfold TTSOrchestrator.generateAudiobook, TTSOrchestrator.generateSegments.
    rewrite E. destruct result; [destruct (TTSOrchestrator.getAudiobookProject _ _)|]; eauto. }
  exists outcome, updates. split; [exact Hrun|].
  apply generateAudiobook_updates in Hrun. destruct outcome as [project|message].
  - now apply StronglySorted_non_decreasing.
  - destruct Hrun as (shown & -> & Hs).
    exists shown, (TTSOrchestrator.error_update message).
    repeat split; auto. now apply StronglySorted_non_decreasing.
Qed.

Lemma progress_non_decreasing_until_error_witness :
  0 < Env.batchSize (sample_env 2 [] [])
  /\ length (Segmenter.segmentChapters [chapter "ch1" "A"]) < 6
  /\ exists outcome updates,
      TTSOrchestrator.generateAudiobook (sample_env 2 [] []) reversed_latency 6 "project"
        [chapter "ch1" "A"] [narrator_assignment] = Some (outcome, updates)
      /\ match outcome with
         | Ok _ => non_decreasing (percents updates)
         | Err message =>
             exists shown last,
               updates = shown ++ [last]
               /\ non_decreasing (percents shown)
               /\ ProgressUpdate.stage last = error
               /\ ProgressUpdate.percent_complete last = 0%Z
         end.
Proof.
  assert (0 < Env.batchSize (sample_env 2 [] [])) as positive by (simpl; lia).
  assert (length (Segmenter.segmentChapters [chapter "ch1" "A"]) < 6) as enough
      by (vm_compute; lia).
  split; [exact positive|]. split; [exact enough|].
  exact (progress_non_decreasing_until_error (sample_env 2 [] []) reversed_latency 6
           "project" [chapter "ch1" "A"] [narrator_assignment] positive enough).
Defined.

(** C9 as stated does not hold: a run that fails sends the percent values
    5, 10 and then 0. *)
Lemma progress_drops_on_error :
  exists message updates,
    TTSOrchestrator.generateAudiobook (sample_env 2 [] []) reversed_latency 6 "project"
      [chapter "ch1" "A"] [] = Some (Err message, updates)
    /\ percents updates = [5; 10; 0]%Z
    /\ ~ non_decreasing (percents updates).
Proof.
  do 2 eexists. split; [vm_compute; reflexivity|]. split; [reflexivity|].
  intros H. specialize (H 1 2 10%Z 0%Z eq_refl eq_refl). lia.
Qed.

(** * The audio assembler: markers and totals *)

Lemma add_marker_fold (l : list NormalizedAudio.t) :
  forall k chapters t,
    fst (fold_left AudioAssembler.add_marker (combine (seq k (length l)) l) (chapters, t))
    = chapters ++ markers_from k t l.
Proof.
  induction l as [|segment rest IH]; intros k chapters t; simpl.
  - now rewrite app_nil_r.
  - rewrite IH, <- app_assoc. reflexivity.
Qed.

Lemma addChapterMarkers_markers (normalized : list NormalizedAudio.t) :
  snd (AudioAssembler.addChapterMarkers normalized) = markers_from 0 0 normalized.
Proof.
  unfold AudioAssembler.addChapterMarkers, Segmenter.indexed.
  pose proof (add_marker_fold normalized 0 [] 0%Q) as H.
  destruct (fold_left _ _ _) as [chapters t]. simpl in *. exact H.
Qed.

Lemma markers_from_length l : forall k t, length (markers_from k t l) = length l.
Proof. induction l; intros; simpl; auto. Qed.

Lemma markers_from_lookup l :
  forall k t i segment,
    l !! i = Some segment ->
    exists m,
      markers_from k t l !! i = Some m
      /\ ChapterMarker.chapter_number m = k + i + 1
      /\ (ChapterMarker.start_time m
          == t + Qsum (map NormalizedAudio.duration (take i l)))%Q
      /\ ChapterMarker.duration m = NormalizedAudio.duration segment.
Proof.
  induction l as [|x rest IH]; intros k t i segment Hi; [discriminate|].
  destruct i as [|i]; simpl in *.
  - injection Hi as ->. eexists; repeat split; simpl; try lia.
    unfold Qsum; simpl. ring.
  - destruct (IH (S k) (t + NormalizedAudio.duration x)%Q i segment Hi)
      as (m & Hm & Hn & Hs & Hd).
    exists m; repeat split; auto; try lia.
    rewrite Hs. unfold Qsum; simpl. ring.
Qed.

Lemma fold_left_Qplus {A} (f : A -> Q) (l : list A) :
  forall acc, (fold_left (fun sum x => sum + f x) l acc == acc + Qsum (map f l))%Q.
Proof.
  induction l as [|x l IH]; intros acc; simpl.
  - unfold Qsum; simpl. ring.
  - rewrite IH. unfold Qsum; simpl. ring.
Qed.

Lemma calculateTotalDuration_sum normalized :
  (AudioAssembler.calculateTotalDuration normalized
   == Qsum (map NormalizedAudio.duration normalized))%Q.
Proof.
  unfold AudioAssembler.calculateTotalDuration.
  rewrite (fold_left_Qplus NormalizedAudio.duration). ring.
Qed.

Lemma calculateCost_sum segments :
  (AudioAssembler.calculateCost segments
   == Qsum (map GeneratedAudio.cost segments))%Q.
Proof.
  unfold AudioAssembler.calculateCost.
  rewrite (fold_left_Qplus GeneratedAudio.cost). ring.
Qed.

(** ** The report of a whole assembly *)

Lemma normalize_segment_duration (engine : Engine.t) (segment : GeneratedAudio.t)
    (w w' : World.t) (audio : NormalizedAudio.t) :
  AudioAssembler.normalize_segment engine segment w = (Ok audio, w') ->
  NormalizedAudio.duration audio = GeneratedAudio.duration segment.
Proof.
  unfold AudioAssembler.normalize_segment, AudioAssembler.bind, AudioAssembler.Date_now,
    AudioAssembler.writeFile, AudioAssembler.ffmpeg, AudioAssembler.readFile,
    AudioAssembler.unlink, AudioAssembler.ret.
  intros H. cbn [World.files World.reads] in H.
  repeat match type of H with
         | context [match ?x with _ => _ end] => destruct x eqn:?; try discriminate
         end.
  injection H as <- <-. reflexivity.
Qed.

Lemma normalize_from_durations (engine : Engine.t) (segments : list GeneratedAudio.t) :
  forall done w normalized w',
    AudioAssembler.normalize_from engine segments done w = (Ok normalized, w') ->
    map NormalizedAudio.duration normalized
    = map NormalizedAudio.duration done ++ map GeneratedAudio.duration segments.
Proof.
  induction segments as [|segment rest IH]; intros done w normalized w' H; simpl in H.
  - injection H as <- <-. now rewrite app_nil_r.
  - unfold AudioAssembler.bind, AudioAssembler.try_catch, AudioAssembler.throw in H.
    destruct (AudioAssembler.normalize_segment engine segment w) as [[audio|m] w1] eqn:E;
      [|discriminate].
    apply IH in H. rewrite H, map_app, <- app_assoc. simpl.
    now rewrite (normalize_segment_duration _ _ _ _ _ E).
Qed.

(** A successful assembly reports the markers and the totals of the
    fragments it was given. *)
Lemma assembleAudiobook_report (engine : Engine.t) (segments : list GeneratedAudio.t)
    (metadata : AudiobookMetadata.t) (w w' : World.t) (book : AssembledAudiobook.t) :
  AudioAssembler.assembleAudiobook engine segments metadata w = (Ok book, w') ->
  exists normalized,
    map NormalizedAudio.duration normalized = map GeneratedAudio.duration segments
    /\ AssembledAudiobook.chapters book = snd (AudioAssembler.addChapterMarkers normalized)
    /\ AssembledAudiobook.total_duration book
       = AudioAssembler.calculateTotalDuration normalized
    /\ AssembledAudiobook.total_cost book = AudioAssembler.calculateCost segments.
Proof.
  unfold AudioAssembler.assembleAudiobook, AudioAssembler.try_catch, AudioAssembler.bind,
    AudioAssembler.throw, AudioAssembler.generateMP3, AudioAssembler.ret.
  intros H.
  destruct (AudioAssembler.normalizeAudio engine segments w) as [[normalized|m] w1] eqn:E;
    [|discriminate].
  destruct (AudioAssembler.generateM4B engine _ w1) as [[m4b_data|m] w2]; [|discriminate].
  injection H as <- <-. exists normalized. repeat split.
  apply normalize_from_durations in E. exact E.
Qed.

(** C6. For every list of normalised fragments, [addChapterMarkers] yields
    one marker per fragment; the marker of fragment [i] starts at the sum of
    the durations of the fragments before it and lasts as long as the
    fragment; [calculateTotalDuration] is the sum of all durations and
    [calculateCost] the sum of all costs, and these are what a successful
    assembly reports for the fragments it was given.  For durations 10, 20,
    15 the markers are numbered 1, 2, 3, start at 0, 10, 30, and the total
    is 45. *)
Theorem chapter_markers_and_totals :
  forall (normalized : list NormalizedAudio.t) (segments : list GeneratedAudio.t),
    length (snd (AudioAssembler.addChapterMarkers normalized)) = length normalized
    /\ (forall i segment,
           normalized !! i = Some segment ->
           exists m,
             snd (AudioAssembler.addChapterMarkers normalized) !! i = Some m
             /\ (ChapterMarker.start_time m
                 == Qsum (map NormalizedAudio.duration (take i normalized)))%Q
             /\ ChapterMarker.duration m = NormalizedAudio.duration segment)
    /\ (AudioAssembler.calculateTotalDuration normalized
        == Qsum (map NormalizedAudio.duration normalized))%Q
    /\ (AudioAssembler.calculateCost segments
        == Qsum (map GeneratedAudio.cost segments))%Q
    /\ (forall engine metadata w w' book,
          AudioAssembler.assembleAudiobook engine segments metadata w = (Ok book, w') ->
          length (AssembledAudiobook.chapters book) = length segments
          /\ (AssembledAudiobook.total_duration book
              == Qsum (map GeneratedAudio.duration segments))%Q
          /\ (AssembledAudiobook.total_cost book
              == Qsum (map GeneratedAudio.cost segments))%Q)
    /\ map ChapterMarker.chapter_number
           (snd (AudioAssembler.addChapterMarkers three_fragments)) = [1; 2; 3]
    /\ map ChapterMarker.start_time
           (snd (AudioAssembler.addChapterMarkers three_fragments)) = [0%Q; 10%Q; 30%Q]
    /\ AudioAssembler.calculateTotalDuration three_fragments = 45%Q.
Proof.
  intros normalized segments.
  rewrite addChapterMarkers_markers.
  split; [apply markers_from_length|].
  split.
  { intros i segment Hi.
    destruct (markers_from_lookup normalized 0 0%Q i segment Hi) as (m & Hm & _ & Hs & Hd).
    exists m; repeat split; auto. rewrite Hs. ring. }
  split; [apply calculateTotalDuration_sum|].
  split; [apply calculateCost_sum|].
  split.
  { intros engine metadata w w' book H.
    apply assembleAudiobook_report in H. destruct H as (done & Hd & -> & -> & ->).
    rewrite addChapterMarkers_markers, markers_from_length.
    split; [|split].
    - rewrite <- (length_map NormalizedAudio.duration), Hd. apply length_map.
    - rewrite calculateTotalDuration_sum, Hd. reflexivity.
    - apply calculateCost_sum. }
  repeat split; reflexivity.
Qed.

(** The whole assembly of three fragments of 10, 20 and 15 seconds, costing
    1, 1/2 and 2 dollars. *)
Example three_fragment_book :
  exists book w,
    AudioAssembler.assembleAudiobook sample_engine
      [ fragment 10 1 [Byte.x01]; fragment 20 (1 # 2) [Byte.x02]; fragment 15 2 [Byte.x03] ]
      {| AudiobookMetadata.title := "Title"; AudiobookMetadata.author := "Author";
         AudiobookMetadata.narrator := "Narrator"; AudiobookMetadata.publisher := "Press";
         AudiobookMetadata.language := "en" |}
      empty_world = (Ok book, w)
    /\ map ChapterMarker.start_time (AssembledAudiobook.chapters book) = [0%Q; 10%Q; 30%Q]
    /\ AssembledAudiobook.total_duration book = 45%Q
    /\ AssembledAudiobook.total_cost book = (7 # 2)%Q
    /\ AssembledAudiobook.mp3_file book = Some [Byte.x01; Byte.x02; Byte.x03]
    /\ paths w = [].
Proof. do 2 eexists. split; [vm_compute; reflexivity|]. repeat split. Qed.

(** * The audio assembler: temp files *)

(** When the audio engine fails for a segment, [normalizeAudio] rethrows
    with the temp input file of that segment still in place. *)
Lemma normalize_segment_engine_failure (engine : Engine.t) (segment : GeneratedAudio.t)
    (w : World.t) (message : string) :
  Engine.refuses engine fs_writeFile
    (temp_input engine (Engine.now engine (World.reads w)) segment) = None ->
  Engine.loudnorm engine (Engine.normalizationLUFS engine) (GeneratedAudio.audio_data segment)
  = Err message ->
  exists w',
    AudioAssembler.normalize_segment engine segment w = (Err message, w')
    /\ World.files w' !! temp_input engine (Engine.now engine (World.reads w)) segment
       = Some (GeneratedAudio.audio_data segment).
Proof.
  intros Hwrite Hfail.
  unfold AudioAssembler.normalize_segment, AudioAssembler.bind, AudioAssembler.Date_now,
    AudioAssembler.ffmpeg, AudioAssembler.writeFile.
  unfold temp_input in *.
  cbn [World.files World.reads]. rewrite Hwrite. cbn [World.files World.reads].
  rewrite lookup_insert_eq, Hfail.
  eexists. split; [reflexivity|]. cbn [World.files]. apply lookup_insert_eq.
Qed.

Lemma normalizeAudio_engine_failure (engine : Engine.t) (segment : GeneratedAudio.t)
    (rest : list GeneratedAudio.t) (w : World.t) (message : string) :
  Engine.refuses engine fs_writeFile
    (temp_input engine (Engine.now engine (World.reads w)) segment) = None ->
  Engine.loudnorm engine (Engine.normalizationLUFS engine) (GeneratedAudio.audio_data segment)
  = Err message ->
  exists w',
    AudioAssembler.normalizeAudio engine (segment :: rest) w = (Err message, w')
    /\ World.files w' !! temp_input engine (Engine.now engine (World.reads w)) segment
       = Some (GeneratedAudio.audio_data segment).
Proof.
  intros Hwrite Hfail.
  destruct (normalize_segment_engine_failure engine segment w message Hwrite Hfail)
    as (w' & E & Hfile).
  exists w'. split; [|exact Hfile].
  unfold AudioAssembler.normalizeAudio. cbn [AudioAssembler.normalize_from].
  unfold AudioAssembler.bind, AudioAssembler.try_catch, AudioAssembler.throw.
  now rewrite E.
Qed.

(** C10, on the code.  The engine refuses the audio of the only segment:
    [normalizeAudio] propagates the error and the temp input file it wrote
    is still there; likewise [generateM4B] leaves its temp input file when
    the encoding fails.  When the engine succeeds both leave nothing. *)
Theorem temp_input_survives_engine_failure :
  (exists w,
      AudioAssembler.normalizeAudio sample_engine [fragment 10 1 []] empty_world
      = (Err "Invalid data found when processing input", w)
      /\ paths w = ["/app/temp/input_1000.mp3"])
  /\ (exists w,
        AudioAssembler.generateM4B sample_engine ([], []) empty_world
        = (Err "Invalid data found when processing input", w)
        /\ paths w = ["/app/temp/input_1000.mp3"])
  /\ (exists normalized w,
        AudioAssembler.normalizeAudio sample_engine [fragment 10 1 [Byte.x01]] empty_world
        = (Ok normalized, w)
        /\ paths w = [])
  /\ (exists encoded w,
        AudioAssembler.generateM4B sample_engine ([Byte.x01], []) empty_world
        = (Ok encoded, w)
        /\ paths w = []).
Proof.
  split; [|split; [|split]].
  - eexists. split; vm_compute; reflexivity.
  - eexists. split; vm_compute; reflexivity.
  - do 2 eexists. split; vm_compute; reflexivity.
  - do 2 eexists. split; vm_compute; reflexivity.
Qed.

(** * The segmenter: sequence numbers *)

Lemma visit_paragraphs (c : Chapter.t) (entries : list (nat * string)) :
  forall segments,
    fold_left (Segmenter.visit_paragraph c) entries segments
    = segments ++ map (fun entry => Segmenter.make_segment c (fst entry) (snd entry))
                      (List.filter kept entries).
Proof.
  induction entries as [|[index paragraph] entries IH]; intros segments; simpl.
  - now rewrite app_nil_r.
  - rewrite IH. unfold kept at 2. simpl.
    destruct (Js.truthy (Js.trim paragraph)); simpl; [now rewrite <- app_assoc | reflexivity].
Qed.

Lemma visit_chapter_units (c : Chapter.t) (segments : list AudioSegment.t) :
  Segmenter.visit_chapter segments c = segments ++ chapter_units c.
Proof. unfold Segmenter.visit_chapter, chapter_units. apply visit_paragraphs. Qed.

(** The units of a book are those of its chapters, chapter after chapter. *)
Lemma segmentChapters_units (chapters : list Chapter.t) :
  Segmenter.segmentChapters chapters = flat_map chapter_units chapters.
Proof.
  unfold Segmenter.segmentChapters.
  assert (forall segments,
             fold_left Segmenter.visit_chapter chapters segments
             = segments ++ flat_map chapter_units chapters) as H.
  { induction chapters as [|c chapters IH]; intros segments; simpl.
    - now rewrite app_nil_r.
    - now rewrite IH, visit_chapter_units, <- app_assoc. }
  apply (H []).
Qed.

Lemma kept_positions_sorted (pieces : list string) :
  forall k,
    StronglySorted lt (map fst (List.filter kept (combine (seq k (length pieces)) pieces)))
    /\ Forall (fun entry => k <= fst entry < k + length pieces
                            /\ pieces !! (fst entry - k) = Some (snd entry)
                            /\ kept entry = true)
              (List.filter kept (combine (seq k (length pieces)) pieces)).
Proof.
  induction pieces as [|p pieces IH]; intros k; simpl; [split; constructor|].
  destruct (IH (S k)) as [Hs Hb].
  assert (Forall (fun entry => k <= fst entry < k + S (length pieces)
                               /\ (p :: pieces) !! (fst entry - k) = Some (snd entry)
                               /\ kept entry = true)
                 (List.filter kept (combine (seq (S k) (length pieces)) pieces))) as Hb'.
  { eapply List.Forall_impl; [|exact Hb]. intros [i q] (Hi & Hq & Hk). simpl in *.
    repeat split; try lia; auto.
    replace (i - k) with (S (i - S k)) by lia. exact Hq. }
  destruct (kept (k, p)) eqn:Hk; simpl; [|split; assumption].
  split; constructor; auto.
  - rewrite List.Forall_map. eapply List.Forall_impl; [|exact Hb].
    intros [i q] (Hi & _). simpl in *. lia.
  - simpl. rewrite Nat.sub_diag. repeat split; auto; lia.
Qed.

Lemma StronglySorted_strictly_increasing (l : list nat) :
  StronglySorted lt l -> strictly_increasing l.
Proof.
  unfold strictly_increasing. induction 1 as [|x l Hs IH Hx]; intros i j a b Hi Hj Hij.
  - discriminate.
  - destruct i as [|i], j as [|j]; simpl in *; try lia.
    + injection Hi as ->. rewrite List.Forall_forall in Hx. apply Hx.
      apply list_elem_of_In. eapply list_elem_of_lookup_2, Hj.
    + apply (IH i j); auto. lia.
Qed.

Lemma chapter_units_numbers (c : Chapter.t) :
  sequence_numbers (chapter_units c)
  = map (fun entry => fst entry + 1)
        (List.filter kept (Segmenter.indexed (Js.split_blank_lines (Chapter.content c)))).
Proof. unfold sequence_numbers, chapter_units. now rewrite map_map. Qed.

Lemma sorted_successors (l : list nat) :
  StronglySorted lt l -> StronglySorted lt (map (fun x => x + 1) l).
Proof.
  induction 1 as [|x l _ IH Hx]; simpl; constructor; auto.
  rewrite List.Forall_map. eapply List.Forall_impl; [|exact Hx]. simpl. intros. lia.
Qed.

Lemma chapter_units_increasing (c : Chapter.t) :
  strictly_increasing (sequence_numbers (chapter_units c)).
Proof.
  apply StronglySorted_strictly_increasing. rewrite chapter_units_numbers.
  rewrite <- (map_map fst (fun x => x + 1)). apply sorted_successors.
  apply (kept_positions_sorted (Js.split_blank_lines (Chapter.content c)) 0).
Qed.

(** every unit of a chapter comes from a kept piece of its text and carries
    the position of that piece plus one *)
Lemma chapter_units_origin (c : Chapter.t) (unit : AudioSegment.t) :
  In unit (chapter_units c) ->
  exists index paragraph,
    Js.split_blank_lines (Chapter.content c) !! index = Some paragraph
    /\ Js.truthy (Js.trim paragraph) = true
    /\ unit = Segmenter.make_segment c index paragraph
    /\ AudioSegment.sequence_number unit = index + 1.
Proof.
  unfold chapter_units. rewrite in_map_iff. intros ([index paragraph] & <- & Hin).
  destruct (kept_positions_sorted (Js.split_blank_lines (Chapter.content c)) 0) as [_ Hb].
  rewrite List.Forall_forall in Hb. destruct (Hb _ Hin) as (_ & Hp & Hk). simpl in *.
  rewrite Nat.sub_0_r in Hp. exists index, paragraph. repeat split; auto.
Qed.

Lemma filter_all {A} (p : A -> bool) (l : list A) :
  Forall (fun x => p x = true) l -> List.filter p l = l.
Proof.
  induction 1 as [|x l Hx _ IH]; simpl; [reflexivity|]. now rewrite Hx, IH.
Qed.

Lemma successors_of_positions {A} (l : list A) :
  forall k, map (fun entry => fst entry + 1) (combine (seq k (length l)) l)
            = seq (k + 1) (length l).
Proof.
  induction l as [|x l IH]; intros k; simpl; [reflexivity|]. now rewrite IH.
Qed.

(** a chapter none of whose pieces is blank is numbered 1, 2, 3, ... *)
Lemma chapter_units_dense (c : Chapter.t) :
  Forall (fun piece => Js.truthy (Js.trim piece) = true)
         (Js.split_blank_lines (Chapter.content c)) ->
  sequence_numbers (chapter_units c)
  = seq 1 (length (Js.split_blank_lines (Chapter.content c))).
Proof.
  intros H. rewrite chapter_units_numbers, filter_all.
  - apply (successors_of_positions _ 0).
  - apply List.Forall_forall. intros [i piece] Hin. unfold kept. simpl.
    rewrite List.Forall_forall in H. apply H.
    unfold Segmenter.indexed in Hin. now apply in_combine_r in Hin.
Qed.

Lemma addChapterMarkers_audio (normalized : list NormalizedAudio.t) :
  fst (AudioAssembler.addChapterMarkers normalized)
  = concat (map NormalizedAudio.audio_data normalized).
Proof.
  unfold AudioAssembler.addChapterMarkers. now destruct (fold_left _ _ _).
Qed.

Lemma markers_from_numbers (l : list NormalizedAudio.t) :
  forall k t, map ChapterMarker.chapter_number (markers_from k t l) = seq (k + 1) (length l).
Proof.
  induction l as [|x l IH]; intros k t; simpl; [reflexivity|].
  rewrite IH. reflexivity.
Qed.

(** the numbers of a book are those of its chapters, each numbered on its
    own *)
Lemma book_numbers (chapters : list Chapter.t) :
  sequence_numbers (Segmenter.segmentChapters chapters)
  = flat_map (fun c => sequence_numbers (chapter_units c)) chapters.
Proof.
  rewrite segmentChapters_units. unfold sequence_numbers.
  induction chapters as [|c chapters IH]; simpl; [reflexivity|].
  now rewrite map_app, IH.
Qed.

(** a chapter that starts with text starts at 1 *)
Lemma chapter_starts_at_1 (c : Chapter.t) :
  starts_with_text c -> exists numbers, sequence_numbers (chapter_units c) = 1 :: numbers.
Proof.
  unfold starts_with_text. rewrite chapter_units_numbers. unfold Segmenter.indexed.
  destruct (Js.split_blank_lines (Chapter.content c)) as [|first rest]; [intros []|].
  intros H. cbn [length seq combine List.filter]. unfold kept at 1. cbn [snd].
  rewrite H. cbn [map fst Nat.add]. eauto.
Qed.

(** a chapter that starts with a blank piece starts later *)
Lemma chapter_starts_later (c : Chapter.t) :
  ~ starts_with_text c -> Forall (fun k => 2 <= k) (sequence_numbers (chapter_units c)).
Proof.
  intros Hblank. unfold sequence_numbers. rewrite List.Forall_map.
  apply List.Forall_forall. intros unit Hin.
  destruct (chapter_units_origin c unit Hin) as (index & paragraph & Hp & Hk & _ & ->).
  destruct index as [|index]; [|lia].
  exfalso. apply Hblank. unfold starts_with_text.
  destruct (Js.split_blank_lines (Chapter.content c)) as [|first rest]; [discriminate|].
  injection Hp as ->. exact Hk.
Qed.

(** two chapters that start with text both start at 1 *)
Lemma second_start_not_increasing (before : list Chapter.t) (c1 : Chapter.t)
    (between : list Chapter.t) (c2 : Chapter.t) (after : list Chapter.t) :
  starts_with_text c1 -> starts_with_text c2 ->
  ~ strictly_increasing
      (sequence_numbers
         (Segmenter.segmentChapters (before ++ c1 :: between ++ c2 :: after))).
Proof.
  intros H1 H2 Hinc.
  destruct (chapter_starts_at_1 c1 H1) as (n1 & E1).
  destruct (chapter_starts_at_1 c2 H2) as (n2 & E2).
  rewrite book_numbers in Hinc.
  rewrite flat_map_app in Hinc. cbn [flat_map] in Hinc.
  rewrite flat_map_app in Hinc. cbn [flat_map] in Hinc.
  rewrite E1, E2 in Hinc.
  set (l0 := flat_map (fun c => sequence_numbers (chapter_units c)) before) in Hinc.
  set (l1 := flat_map (fun c => sequence_numbers (chapter_units c)) between) in Hinc.
  set (l2 := flat_map (fun c => sequence_numbers (chapter_units c)) after) in Hinc.
  assert (l0 ++ (1 :: n1) ++ l1 ++ (1 :: n2) ++ l2
          = (l0 ++ 1 :: n1 ++ l1) ++ 1 :: n2 ++ l2) as E
      by (rewrite <- !app_assoc; cbn [app]; rewrite <- ?app_assoc; reflexivity).
  specialize (Hinc (length l0) (length (l0 ++ 1 :: n1 ++ l1)) 1 1).
  assert (1 < 1); [|lia]. apply Hinc.
  - cbn [app]. apply list_lookup_middle. reflexivity.
  - rewrite E. apply list_lookup_middle. reflexivity.
  - rewrite length_app. cbn [length]. lia.
Qed.

(** C1, as the code has it.  The units of a book are the units of its
    chapters, chapter after chapter; within a chapter the sequence numbers
    are strictly increasing, each being one more than the position of a
    non-blank piece in the chapter's own text, blank pieces counted, and
    they are 1, 2, 3, ... when no piece of the chapter is blank.  The
    numbers of a book are those of its chapters, each numbered on its own: a
    chapter that starts with text starts at 1, so a book with two such
    chapters is not increasing throughout, while a chapter that starts with
    a blank piece starts later.
    Downstream the order of the list is what is kept: when every
    unit is synthesised the orchestrator returns the fragments in the order
    of the units, whatever the order in which the promises settled, and the
    assembler concatenates the audio and numbers the markers in the order
    of the fragments it is given. *)
Theorem sequence_numbers_increase_within_a_chapter (chapters : list Chapter.t) :
  Segmenter.segmentChapters chapters = flat_map chapter_units chapters
  /\ (forall c, strictly_increasing (sequence_numbers (chapter_units c)))
  /\ (forall c unit,
        In unit (chapter_units c) ->
        exists index paragraph,
          Js.split_blank_lines (Chapter.content c) !! index = Some paragraph
          /\ Js.truthy (Js.trim paragraph) = true
          /\ unit = Segmenter.make_segment c index paragraph
          /\ AudioSegment.sequence_number unit = index + 1)
  /\ (forall c,
        Forall (fun piece => Js.truthy (Js.trim piece) = true)
               (Js.split_blank_lines (Chapter.content c)) ->
        sequence_numbers (chapter_units c)
        = seq 1 (length (Js.split_blank_lines (Chapter.content c))))
  /\ (forall env latency assignments fuel audios,
        0 < Env.batchSize env ->
        length (Segmenter.segmentChapters chapters) < fuel ->
        Forall2 (fun s a => fst (TTSOrchestrator.generateSingleSegment env s assignments) = Ok a)
                (Segmenter.segmentChapters chapters) audios ->
        exists trace,
          TTSOrchestrator.generateSegments env latency (Segmenter.segmentChapters chapters)
            assignments fuel = Some (Ok audios, trace))
  /\ (forall normalized,
        fst (AudioAssembler.addChapterMarkers normalized)
        = concat (map NormalizedAudio.audio_data normalized)
        /\ map ChapterMarker.chapter_number (snd (AudioAssembler.addChapterMarkers normalized))
           = seq 1 (length normalized))
  /\ sequence_numbers (Segmenter.segmentChapters chapters)
     = flat_map (fun c => sequence_numbers (chapter_units c)) chapters
  /\ (forall c,
        starts_with_text c ->
        exists numbers, sequence_numbers (chapter_units c) = 1 :: numbers)
  /\ (forall c,
        ~ starts_with_text c ->
        Forall (fun k => 2 <= k) (sequence_numbers (chapter_units c)))
  /\ (forall before c1 between c2 after,
        chapters = before ++ c1 :: between ++ c2 :: after ->
        starts_with_text c1 -> starts_with_text c2 ->
        ~ strictly_increasing (sequence_numbers (Segmenter.segmentChapters chapters)))
  /\ sequence_numbers
       (Segmenter.segmentChapters
          [chapter "ch1" "First."; chapter "ch2" (blank_line +:+ "Second.")])
     = [1; 2].
Proof.
  split; [apply segmentChapters_units|].
  split; [apply chapter_units_increasing|].
  split; [apply chapter_units_origin|].
  split; [apply chapter_units_dense|].
  split.
  - intros env latency assignments fuel audios positive enough Hall.
    destruct (loop_fulfilled env latency _ assignments positive audios Hall fuel 0 [] [])
      as (more & E & _); [lia|].
    exists more. exact E.
  - split.
    + intros normalized. split; [apply addChapterMarkers_audio|].
      rewrite addChapterMarkers_markers. apply markers_from_numbers.
    + split; [apply book_numbers|]. split; [apply chapter_starts_at_1|].
      split; [apply chapter_starts_later|]. split.
      * intros before c1 between c2 after ->. apply second_start_not_increasing.
      * reflexivity.
Qed.

(** C1 as stated does not hold: the numbering starts again at 1 in the
    second chapter, and a blank piece between two paragraphs leaves a gap. *)
Lemma sequence_numbers_restart_and_skip :
  sequence_numbers
    (Segmenter.segmentChapters [chapter "ch1" "First."; chapter "ch2" "Second."])
  = [1; 1]
  /\ ~ strictly_increasing
        (sequence_numbers
           (Segmenter.segmentChapters [chapter "ch1" "First."; chapter "ch2" "Second."]))
  /\ sequence_numbers
       (Segmenter.segmentChapters
          [chapter "ch1" ("First." +:+ blank_line +:+ " " +:+ blank_line +:+ "Second.")])
     = [1; 3]
  /\ ~ dense
        (sequence_numbers
           (Segmenter.segmentChapters
              [chapter "ch1" ("First." +:+ blank_line +:+ " " +:+ blank_line +:+ "Second.")])).
Proof.
  split; [reflexivity|]. split.
  - intros H. specialize (H 0 1 1 1 eq_refl eq_refl). lia.
  - split; [reflexivity|].
    intros H. specialize (H 0 1 3 eq_refl eq_refl). lia.
Qed.

(** * More on the segmenter *)

(** ** [trim] *)

Lemma trimStart_fixed (s : string) :
  match s with
  | EmptyString => True
  | String c _ => Js.isSpace c = false
  end ->
  Js.trimStart s = s.
Proof. destruct s as [|c s]; simpl; [reflexivity|]. now intros ->. Qed.

Lemma trimStart_head (s : string) :
  match Js.trimStart s with
  | EmptyString => True
  | String c _ => Js.isSpace c = false
  end.
Proof.
  induction s as [|c s IH]; simpl; [exact I|].
  destruct (Js.isSpace c) eqn:E; [exact IH | exact E].
Qed.

Lemma trimEnd_head (s : string) :
  match s with
  | EmptyString => True
  | String c _ => Js.isSpace c = false
  end ->
  match Js.trimEnd s with
  | EmptyString => True
  | String c _ => Js.isSpace c = false
  end.
Proof.
  destruct s as [|c s]; simpl; [auto|]. intros Hc.
  destruct (Js.trimEnd s); [now rewrite Hc | exact Hc].
Qed.

Lemma trimEnd_idempotent (s : string) : Js.trimEnd (Js.trimEnd s) = Js.trimEnd s.
Proof.
  induction s as [|c s IH]; simpl; [reflexivity|].
  destruct (Js.trimEnd s) as [|c' s'] eqn:E.
  - destruct (Js.isSpace c) eqn:Hc; simpl; [reflexivity | now rewrite Hc].
  - cbn [Js.trimEnd]. cbn [Js.trimEnd] in IH. rewrite IH. reflexivity.
Qed.

(** trimming twice is trimming once *)
Lemma trim_idempotent (s : string) : Js.trim (Js.trim s) = Js.trim s.
Proof.
  unfold Js.trim.
  rewrite (trimStart_fixed (Js.trimEnd (Js.trimStart s))).
  - apply trimEnd_idempotent.
  - apply trimEnd_head, trimStart_head.
Qed.

(** ** The units and their texts *)

Lemma filter_map_commute {A B} (f : A -> B) (p : B -> bool) (l : list A) :
  List.filter p (map f l) = map f (List.filter (fun x => p (f x)) l).
Proof.
  induction l as [|x l IH]; simpl; [reflexivity|].
  destruct (p (f x)); simpl; now rewrite IH.
Qed.

Lemma indexed_snd {A} (l : list A) : map snd (Segmenter.indexed l) = l.
Proof.
  unfold Segmenter.indexed. generalize 0.
  induction l as [|x l IH]; intros k; simpl; [reflexivity|]. now rewrite IH.
Qed.

Lemma chapter_units_texts (c : Chapter.t) :
  map AudioSegment.text_content (chapter_units c) = map Js.trim (non_blank_pieces c).
Proof.
  unfold chapter_units, non_blank_pieces. rewrite map_map. cbn [Segmenter.make_segment
    AudioSegment.text_content].
  rewrite <- (indexed_snd (Js.split_blank_lines (Chapter.content c))) at 2.
  rewrite filter_map_commute, map_map. reflexivity.
Qed.

Lemma segmentChapters_texts (chapters : list Chapter.t) :
  map AudioSegment.text_content (Segmenter.segmentChapters chapters)
  = flat_map (fun c => map Js.trim (non_blank_pieces c)) chapters.
Proof.
  rewrite segmentChapters_units.
  induction chapters as [|c chapters IH]; simpl; [reflexivity|].
  now rewrite map_app, IH, chapter_units_texts.
Qed.

Lemma segmentChapters_count (chapters : list Chapter.t) :
  length (Segmenter.segmentChapters chapters)
  = list_sum (map (fun c => length (non_blank_pieces c)) chapters).
Proof.
  rewrite <- (length_map AudioSegment.text_content), segmentChapters_texts.
  induction chapters as [|c chapters IH]; simpl; [reflexivity|].
  now rewrite length_app, length_map, IH.
Qed.

(** X1. The segmenter yields exactly one unit per non-blank piece of text:
    the texts of the units of a book are the trimmed non-blank pieces of its
    chapters, in order; so every unit has a text that is not empty and has
    no white space at either end. *)
Theorem one_unit_per_non_blank_piece (chapters : list Chapter.t) :
  map AudioSegment.text_content (Segmenter.segmentChapters chapters)
  = flat_map (fun c => map Js.trim (non_blank_pieces c)) chapters
  /\ length (Segmenter.segmentChapters chapters)
     = list_sum (map (fun c => length (non_blank_pieces c)) chapters)
  /\ forall unit,
      In unit (Segmenter.segmentChapters chapters) ->
      AudioSegment.text_content unit <> EmptyString
      /\ Js.trim (AudioSegment.text_content unit) = AudioSegment.text_content unit.
Proof.
  split; [apply segmentChapters_texts|]. split; [apply segmentChapters_count|].
  rewrite segmentChapters_units.
  intros unit Hin. apply in_flat_map in Hin. destruct Hin as (c & _ & Hin).
  apply chapter_units_origin in Hin.
  destruct Hin as (index & paragraph & _ & Hkept & -> & _).
  cbn [Segmenter.make_segment AudioSegment.text_content]. split.
  - intros E. now rewrite E in Hkept.
  - apply trim_idempotent.
Qed.

(** ** The speaker of a unit *)

Lemma lang_plus_class (p : ascii -> bool) (w : list ascii) :
  lang (Js.plus (Js.Class p)) w <-> w <> [] /\ Forall (fun c => p c = true) w.
Proof.
  unfold Js.plus. split.
  - intros H. apply lang_cat_inv in H. destruct H as (w1 & w2 & -> & H1 & H2).
    apply lang_class_inv in H1. destruct H1 as (c & -> & Hc).
    split; [discriminate|]. constructor; [exact Hc|].
    clear c Hc. remember (Js.Star (Js.Class p)) as s eqn:Es.
    induction H2 as [| | | | | |r w1 w3 H1 _ H3 IH3]; try discriminate; [constructor|].
    injection Es as ->. apply lang_class_inv in H1. destruct H1 as (c & -> & Hc).
    constructor; [exact Hc | now apply IH3].
  - intros [Hne Hall]. destruct w as [|c w]; [congruence|].
    apply Forall_cons_iff in Hall. destruct Hall as [Hc Hall].
    change (c :: w) with ([c] ++ w). constructor; [now constructor|].
    clear Hne Hc. induction Hall as [|d w Hd _ IH]; [constructor|].
    change (d :: w) with ([d] ++ w). constructor; [now constructor | exact IH].
Qed.

Lemma lang_lit_ci_chars (cs w : list ascii) :
  lang (Js.lit_ci_chars cs) w <-> map Js.toLowerChar w = cs.
Proof.
  revert w. induction cs as [|c cs IH]; intros w; simpl.
  - split.
    + intros H. apply lang_epsilon_inv in H. now subst.
    + intros H. apply map_eq_nil in H. subst. constructor.
  - split.
    + intros H. apply lang_cat_inv in H. destruct H as (w1 & w2 & -> & H1 & H2).
      apply lang_class_inv in H1. destruct H1 as (x & -> & Hx).
      apply Ascii.eqb_eq in Hx. apply IH in H2. simpl. now subst.
    + intros H. destruct w as [|x w]; [discriminate|]. simpl in H.
      injection H as Hx Hw. change (x :: w) with ([x] ++ w). constructor.
      * constructor. now apply Ascii.eqb_eq.
      * now apply IH.
Qed.

Lemma lang_alts_lit_ci (words : list string) (w : list ascii) :
  lang (Js.alts (map Js.lit_ci words)) w
  <-> exists word, In word words /\ map Js.toLowerChar w = Js.chars word.
Proof.
  induction words as [|x words IH]; simpl.
  - split; [intros H; now apply lang_never_inv in H | intros (? & [] & _)].
  - split.
    + intros H. apply lang_alt_inv in H. destruct H as [H|H].
      * apply lang_lit_ci_chars in H. exists x. auto.
      * apply IH in H. destruct H as (word & Hin & E). exists word. auto.
    + intros (word & [->|Hin] & E).
      * apply lang_alt_left. now apply lang_lit_ci_chars.
      * apply lang_alt_right. apply IH. now exists word.
Qed.

Lemma lang_name_then_verb (m : list ascii) :
  lang Segmenter.name_then_verb m
  <-> exists word spaces verb,
      m = word ++ spaces ++ verb /\ names_speaker word spaces verb.
Proof.
  unfold Segmenter.name_then_verb, names_speaker. split.
  - intros H. apply lang_cat_inv in H. destruct H as (word & rest & -> & Hw & H).
    apply lang_cat_inv in H. destruct H as (spaces & verb & -> & Hs & Hv).
    apply lang_plus_class in Hw, Hs. apply lang_alts_lit_ci in Hv.
    exists word, spaces, verb. tauto.
  - intros (word & spaces & verb & -> & Hw1 & Hw2 & Hs1 & Hs2 & Hv).
    constructor; [now apply lang_plus_class|].
    constructor; [now apply lang_plus_class | now apply lang_alts_lit_ci].
Qed.

Lemma matchesAtStart_spec (r : Js.regex) (w : list ascii) :
  Js.matchesAtStart r w = true <-> exists m rest, w = m ++ rest /\ lang r m.
Proof.
  unfold Js.matchesAtStart. rewrite accepts_spec. split.
  - intros H. apply lang_cat_inv in H. destruct H as (m & rest & -> & Hm & _).
    now exists m, rest.
  - intros (m & rest & -> & Hm). constructor; [exact Hm | apply lang_anything].
Qed.

Lemma space_is_no_word_character (c : ascii) : Js.isSpace c = true -> Js.isWord c = false.
Proof.
  unfold Js.isSpace, Js.isWord. generalize (Js.code c). intros n H.
  apply Bool.orb_true_iff in H. destruct H as [H|H].
  - apply Bool.orb_true_iff in H. destruct H as [H|H].
    + apply Bool.andb_true_iff in H. destruct H as [H1 H2].
      apply N.leb_le in H1, H2.
      repeat (apply Bool.orb_false_iff; split);
        try (apply Bool.andb_false_iff; left; apply N.leb_gt; lia).
      apply N.eqb_neq. lia.
    + apply N.eqb_eq in H. subst. reflexivity.
  - apply N.eqb_eq in H. subst. reflexivity.
Qed.

(** the greedy group stops where the white space starts *)
Lemma takeWhile_word (word spaces rest : list ascii) :
  Forall (fun c => Js.isWord c = true) word ->
  spaces <> [] -> Forall (fun c => Js.isSpace c = true) spaces ->
  Segmenter.takeWhile Js.isWord (word ++ spaces ++ rest) = word.
Proof.
  intros Hword Hne Hspaces. induction Hword as [|c word Hc _ IH]; simpl.
  - destruct spaces as [|s spaces]; [congruence|]. simpl.
    apply Forall_cons_iff in Hspaces. destruct Hspaces as [Hs _].
    now rewrite (space_is_no_word_character s Hs).
  - now rewrite Hc, IH.
Qed.

Lemma matchesAtStart_named (w : list ascii) :
  Js.matchesAtStart Segmenter.name_then_verb w = true
  <-> exists word, named_at w 0 word.
Proof.
  rewrite matchesAtStart_spec. unfold named_at. rewrite drop_0. split.
  - intros (m & rest & -> & Hm). apply lang_name_then_verb in Hm.
    destruct Hm as (word & spaces & verb & -> & Hn).
    exists word, spaces, verb, rest. rewrite <- !app_assoc. split; [reflexivity|].
    split; [lia | exact Hn].
  - intros (word & spaces & verb & after & -> & _ & Hn).
    exists (word ++ spaces ++ verb), after. rewrite <- !app_assoc. split; [reflexivity|].
    apply lang_name_then_verb. now exists word, spaces, verb.
Qed.

Lemma named_at_word (w : list ascii) (k : nat) (word : list ascii) :
  named_at w k word -> Segmenter.takeWhile Js.isWord (drop k w) = word.
Proof.
  intros (spaces & verb & after & -> & _ & _ & Hw & Hne & Hs & _).
  now apply takeWhile_word.
Qed.

Lemma named_at_tail (c : ascii) (w : list ascii) (k : nat) (word : list ascii) :
  named_at (c :: w) (S k) word <-> named_at w k word.
Proof.
  unfold named_at. simpl.
  split; intros (spaces & verb & after & E & Hk & Hn);
    exists spaces, verb, after; (split; [exact E|]); (split; [lia | exact Hn]).
Qed.

Lemma first_match_spec (w : list ascii) (name : string) :
  Segmenter.first_match w = Some name
  <-> exists k word,
      named_at w k word /\ name = Js.str word
      /\ forall k' word', named_at w k' word' -> k <= k'.
Proof.
  induction w as [|c w IH].
  - cbn [Segmenter.first_match].
    destruct (Js.matchesAtStart Segmenter.name_then_verb []) eqn:E.
    + apply matchesAtStart_named in E. destruct E as (word & Hn).
      pose proof (named_at_word _ _ _ Hn) as Hw. simpl in Hw. subst word.
      destruct Hn as (spaces & verb & after & _ & _ & Hne & _). congruence.
    + split; [discriminate|]. intros (k & word & Hn & _).
      destruct Hn as (spaces & verb & after & E' & Hk & Hn). simpl in Hk.
      assert (k = 0) as -> by lia.
      assert (Js.matchesAtStart Segmenter.name_then_verb [] = true) as E''.
      { apply matchesAtStart_named. exists word, spaces, verb, after. auto. }
      congruence.
  - cbn [Segmenter.first_match].
    destruct (Js.matchesAtStart Segmenter.name_then_verb (c :: w)) eqn:E.
    + apply matchesAtStart_named in E. destruct E as (word & Hn).
      pose proof (named_at_word _ _ _ Hn) as Hw. rewrite drop_0 in Hw. rewrite Hw.
      split.
      * intros [= <-]. exists 0, word. split; [exact Hn|]. split; [reflexivity|].
        intros; lia.
      * intros (k & word' & Hn' & -> & Hleft).
        specialize (Hleft 0 word Hn). assert (k = 0) as -> by lia.
        apply named_at_word in Hn'. rewrite drop_0 in Hn'. congruence.
    + rewrite IH. split.
      * intros (k & word & Hn & -> & Hleft). exists (S k), word.
        split; [now apply named_at_tail|]. split; [reflexivity|].
        intros [|k'] word' Hn'.
        -- assert (Js.matchesAtStart Segmenter.name_then_verb (c :: w) = true) as E'
             by (apply matchesAtStart_named; now exists word').
           congruence.
        -- apply named_at_tail in Hn'. apply Hleft in Hn'. lia.
      * intros (k & word & Hn & -> & Hleft). destruct k as [|k].
        -- assert (Js.matchesAtStart Segmenter.name_then_verb (c :: w) = true) as E'
             by (apply matchesAtStart_named; now exists word).
           congruence.
        -- exists k, word. split; [now apply named_at_tail in Hn|].
           split; [reflexivity|]. intros k' word' Hn'.
           pose proof (proj2 (named_at_tail c w k' word') Hn') as Hn''.
           apply Hleft in Hn''. lia.
Qed.

Lemma named_at_somewhere (text : string) :
  speaker_named_somewhere text <-> exists k word, named_at (Js.chars text) k word.
Proof.
  unfold speaker_named_somewhere, named_at. split.
  - intros (before & word & spaces & verb & after & E & Hn).
    exists (length before), word, spaces, verb, after. rewrite E.
    rewrite drop_app_length. split; [reflexivity|]. split; [|exact Hn].
    rewrite length_app. lia.
  - intros (k & word & spaces & verb & after & E & _ & Hn).
    exists (take k (Js.chars text)), word, spaces, verb, after.
    split; [|exact Hn]. rewrite <- E. symmetry. apply take_drop.
Qed.

(** X2. The name taken for the speaker of a paragraph is the word in front
    of the first place where a word, white space and one of the attribution
    verbs (in either case) follow each other: it is returned exactly when
    such a place exists, it is the word of the leftmost one, and no other
    split of the text at that place gives another word. *)
Theorem speaker_is_the_word_before_the_first_verb (text name : string) :
  Segmenter.extractCharacterName text = Some name
  <-> exists k word,
      named_at (Js.chars text) k word /\ name = Js.str word
      /\ forall k' word', named_at (Js.chars text) k' word' -> k <= k'.
Proof. apply first_match_spec. Qed.

Lemma first_match_none (w : list ascii) :
  Segmenter.first_match w = None <-> forall k word, ~ named_at w k word.
Proof.
  induction w as [|c w IH]; cbn [Segmenter.first_match].
  - destruct (Js.matchesAtStart Segmenter.name_then_verb []) eqn:E.
    + split; [discriminate|]. intros Hno.
      apply matchesAtStart_named in E. destruct E as (word & Hn). now apply Hno in Hn.
    + split; [|reflexivity]. intros _ k word Hn.
      destruct Hn as (spaces & verb & after & E' & Hk & Hn). simpl in Hk.
      assert (k = 0) as -> by lia.
      assert (Js.matchesAtStart Segmenter.name_then_verb [] = true) as E''.
      { apply matchesAtStart_named. exists word, spaces, verb, after. auto. }
      congruence.
  - destruct (Js.matchesAtStart Segmenter.name_then_verb (c :: w)) eqn:E.
    + split; [discriminate|]. intros Hno.
      apply matchesAtStart_named in E. destruct E as (word & Hn). now apply Hno in Hn.
    + rewrite IH. split.
      * intros Hno [|k] word Hn.
        -- assert (Js.matchesAtStart Segmenter.name_then_verb (c :: w) = true) as E'
             by (apply matchesAtStart_named; now exists word).
           congruence.
        -- apply named_at_tail in Hn. now apply Hno in Hn.
      * intros Hno k word Hn. apply (Hno (S k) word). now apply named_at_tail.
Qed.

(** X3. No speaker is taken from a paragraph exactly when the paragraph has
    no word followed by white space and an attribution verb. *)
Theorem no_speaker_iff_no_word_before_a_verb (text : string) :
  Segmenter.extractCharacterName text = None <-> ~ speaker_named_somewhere text.
Proof.
  unfold Segmenter.extractCharacterName. rewrite first_match_none, named_at_somewhere.
  split.
  - intros Hno (k & word & Hn). now apply Hno in Hn.
  - intros Hno k word Hn. apply Hno. now exists k, word.
Qed.

(** ** What a unit carries *)

Lemma segmentChapters_origin (chapters : list Chapter.t) (unit : AudioSegment.t) :
  In unit (Segmenter.segmentChapters chapters) ->
  exists c index paragraph,
    In c chapters /\ unit = Segmenter.make_segment c index paragraph.
Proof.
  rewrite segmentChapters_units. intros Hin. apply in_flat_map in Hin.
  destruct Hin as (c & Hc & Hin). apply chapter_units_origin in Hin.
  destruct Hin as (index & paragraph & _ & _ & -> & _). now exists c, index, paragraph.
Qed.

(** X4. A unit of the segmenter has a speaker only if it is dialogue, and
    the speaker is then a non-empty run of word characters; it never has an
    emotion, so no synthesis request made for it carries an emotion. *)
Theorem units_have_word_speakers_and_no_emotion (env : Env.t)
    (chapters : list Chapter.t) (assignments : list VoiceAssignment.t)
    (unit : AudioSegment.t) :
  In unit (Segmenter.segmentChapters chapters) ->
  (forall name,
      AudioSegment.character_name unit = Some name ->
      AudioSegment.segment_type unit = dialogue
      /\ name <> EmptyString
      /\ Forall (fun c => Js.isWord c = true) (Js.chars name))
  /\ AudioSegment.emotion_detected unit = None
  /\ forall call,
      In call (snd (TTSOrchestrator.generateSingleSegment env unit assignments)) ->
      TTSGenerationParams.emotion (snd call) = None.
Proof.
  intros Hin. apply segmentChapters_origin in Hin.
  destruct Hin as (c & index & paragraph & _ & ->). split; [|split].
  - cbn [Segmenter.make_segment AudioSegment.character_name AudioSegment.segment_type].
    intros name Hname. destruct (Segmenter.detectDialogue paragraph); [|discriminate].
    split; [reflexivity|].
    apply first_match_spec in Hname.
    destruct Hname as (k & word & (spaces & verb & after & _ & _ & Hne & Hword & _) & -> & _).
    split.
    + intros E. apply (f_equal Js.chars) in E. rewrite chars_str in E. now apply Hne.
    + now rewrite chars_str.
  - reflexivity.
  - intros call. unfold TTSOrchestrator.generateSingleSegment.
    destruct (TTSOrchestrator.findVoiceAssignment _ _) as [assignment|]; [|intros []].
    destruct (ElevenLabsProvider.generateSpeech _ _).
    + intros [<-|[]]. reflexivity.
    + destruct (PlayHTProvider.generateSpeech _ _);
        (intros [<-|[<-|[]]]; reflexivity).
Qed.

Lemma units_have_word_speakers_and_no_emotion_witness :
  In (Segmenter.make_segment (chapter "ch1" said_paragraph) 0 said_paragraph)
     (Segmenter.segmentChapters [chapter "ch1" said_paragraph])
  /\ AudioSegment.emotion_detected
       (Segmenter.make_segment (chapter "ch1" said_paragraph) 0 said_paragraph) = None.
Proof.
  assert (In (Segmenter.make_segment (chapter "ch1" said_paragraph) 0 said_paragraph)
             (Segmenter.segmentChapters [chapter "ch1" said_paragraph])) as Hin
    by (vm_compute; left; reflexivity).
  split; [exact Hin|].
  exact (proj1 (proj2 (units_have_word_speakers_and_no_emotion (sample_env 2 [] [])
                         [chapter "ch1" said_paragraph] [narrator_assignment] _ Hin))).
Defined.

(** ** The identifiers of the units *)

(** ** The identifiers of the units *)

Lemma pretty_N_go_no_underscore (x : N) :
  forall s, ~ In "_"%char (Js.chars s) -> ~ In "_"%char (Js.chars (pretty_N_go x s)).
Proof.
  induction (N.lt_wf_0 x) as [x _ IH]. intros s Hs.
  destruct (N.eq_dec x 0%N) as [->|Hx]; [now rewrite pretty_N_go_0|].
  rewrite pretty_N_go_step by lia. apply IH.
  - apply N.div_lt; lia.
  - rewrite chars_cons. intros [E|Hin]; [|now apply Hs].
    revert E. unfold pretty_N_char. repeat case_match; discriminate.
Qed.

Lemma pretty_nat_no_underscore (n : nat) : ~ In "_"%char (Js.chars (pretty n)).
Proof.
  unfold pretty, pretty_nat, pretty, pretty_N. case_decide.
  - simpl. intros [E|[]]. discriminate.
  - apply pretty_N_go_no_underscore. simpl. tauto.
Qed.

Lemma app_last_separator {A} (sep : A) (a b d1 d2 : list A) :
  ~ In sep d1 -> ~ In sep d2 -> a ++ sep :: d1 = b ++ sep :: d2 -> a = b /\ d1 = d2.
Proof.
  intros H1 H2. revert b. induction a as [|x a IH]; intros [|y b] E; simpl in E.
  - injection E as ->. auto.
  - injection E as <- ->. exfalso. apply H1. apply in_or_app. right. now left.
  - injection E as -> <-. exfalso. apply H2. apply in_or_app. right. now left.
  - injection E as -> E. apply IH in E. destruct E as [-> ->]. auto.
Qed.

Lemma unit_id_inj (c c' : Chapter.t) (i i' : nat) (p p' : string) :
  AudioSegment.id (Segmenter.make_segment c i p)
  = AudioSegment.id (Segmenter.make_segment c' i' p') ->
  Chapter.id c = Chapter.id c' /\ i = i'.
Proof.
  cbn [Segmenter.make_segment AudioSegment.id]. intros E.
  apply (f_equal Js.chars) in E. rewrite !chars_app in E.
  change (Js.chars "_seg_") with (Js.chars "_seg" ++ ["_"%char]) in E.
  rewrite <- !app_assoc in E. simpl ((["_"%char] ++ _)) in E.
  rewrite !app_assoc in E.
  apply app_last_separator in E; try apply pretty_nat_no_underscore.
  destruct E as [E1 E2]. apply app_inv_tail in E1. split.
  - now apply chars_inj.
  - apply chars_inj in E2. now apply (inj pretty) in E2.
Qed.

Lemma StronglySorted_lt_NoDup (l : list nat) : StronglySorted lt l -> List.NoDup l.
Proof.
  induction 1 as [|x l _ IH Hx]; constructor; [|exact IH].
  intros Hin. rewrite List.Forall_forall in Hx. apply Hx in Hin. lia.
Qed.

Lemma NoDup_map_on {A B} (f : A -> B) (l : list A) :
  (forall x y, In x l -> In y l -> f x = f y -> x = y) ->
  List.NoDup l -> List.NoDup (map f l).
Proof.
  intros Hinj H. induction H as [|x l Hx _ IH]; simpl; constructor.
  - intros Hin. apply in_map_iff in Hin. destruct Hin as (y & E & Hy).
    apply Hinj in E; [|now right|now left]. now subst.
  - apply IH. intros a b Ha Hb. apply Hinj; now right.
Qed.

Lemma chapter_units_ids (c : Chapter.t) :
  List.NoDup (map AudioSegment.id (chapter_units c)).
Proof.
  unfold chapter_units. rewrite map_map. cbn [Segmenter.make_segment AudioSegment.id].
  rewrite <- (map_map fst (fun index => Chapter.id c +:+ "_seg_" +:+ pretty index)).
  apply NoDup_map_on.
  - intros i j _ _ E. now apply (unit_id_inj c c i j EmptyString EmptyString).
  - apply StronglySorted_lt_NoDup.
    apply (kept_positions_sorted (Js.split_blank_lines (Chapter.content c)) 0).
Qed.

(** X5. In a book whose chapters have distinct identifiers no two units
    have the same identifier. *)
Theorem unit_ids_are_unique (chapters : list Chapter.t) :
  List.NoDup (map Chapter.id chapters) ->
  List.NoDup (map AudioSegment.id (Segmenter.segmentChapters chapters)).
Proof.
  rewrite segmentChapters_units.
  induction chapters as [|c chapters IH]; simpl; [constructor|].
  intros H. apply List.NoDup_cons_iff in H. destruct H as [Hc H].
  rewrite map_app. apply List.NoDup_app.
  - apply chapter_units_ids.
  - now apply IH.
  - intros id Hin1 Hin2. apply in_map_iff in Hin1, Hin2.
    destruct Hin1 as (u1 & E1 & Hu1). destruct Hin2 as (u2 & E2 & Hu2).
    apply chapter_units_origin in Hu1. destruct Hu1 as (i1 & p1 & _ & _ & -> & _).
    apply in_flat_map in Hu2. destruct Hu2 as (c2 & Hc2 & Hu2).
    apply chapter_units_origin in Hu2. destruct Hu2 as (i2 & p2 & _ & _ & -> & _).
    rewrite <- E2 in E1. apply unit_id_inj in E1. destruct E1 as [E1 _].
    apply Hc. rewrite E1. now apply in_map.
Qed.

Lemma unit_ids_are_unique_witness :
  List.NoDup (map Chapter.id [chapter "ch1" "First."; chapter "ch2" "Second."])
  /\ List.NoDup (map AudioSegment.id
       (Segmenter.segmentChapters [chapter "ch1" "First."; chapter "ch2" "Second."])).
Proof.
  assert (List.NoDup (map Chapter.id [chapter "ch1" "First."; chapter "ch2" "Second."])) as H.
  { simpl. repeat constructor; simpl; intuition discriminate. }
  split; [exact H|].
  exact (unit_ids_are_unique [chapter "ch1" "First."; chapter "ch2" "Second."] H).
Defined.

(** * More on the orchestrator *)

(** ** A batch size of zero *)

Lemma all_of_nothing {A} : Promise.all (@nil (@Promise.started A)) = (Ok [], []).
Proof. reflexivity. Qed.

Lemma loop_stalls (env : Env.t) (latency : AudioSegment.t -> nat)
    (segments : list AudioSegment.t) (assignments : list VoiceAssignment.t) :
  Env.batchSize env = 0 ->
  forall fuel i results trace,
    i < length segments ->
    TTSOrchestrator.generateSegments_from env latency segments assignments fuel i results trace
    = None.
Proof.
  intros Hzero. induction fuel as [|fuel IH]; intros i results trace Hi; [reflexivity|].
  cbn [TTSOrchestrator.generateSegments_from].
  apply Nat.ltb_lt in Hi. rewrite Hi. apply Nat.ltb_lt in Hi.
  rewrite Hzero. unfold Js.slice. replace (i + 0 - i) with 0 by lia.
  rewrite take_0. cbn [map]. rewrite all_of_nothing.
  apply IH. lia.
Qed.

(** X6. With a batch size of zero the batch loop never advances: a book
    with at least one unit is never finished, whatever the number of
    iterations allowed, neither by [generateSegments] nor by
    [generateAudiobook]. *)
Theorem zero_batch_size_never_returns (env : Env.t) (latency : AudioSegment.t -> nat)
    (assignments : list VoiceAssignment.t) :
  Env.batchSize env = 0 ->
  (forall segments fuel,
      segments <> [] ->
      TTSOrchestrator.generateSegments env latency segments assignments fuel = None)
  /\ (forall chapters project_id fuel,
        Segmenter.segmentChapters chapters <> [] ->
        TTSOrchestrator.generateAudiobook env latency fuel project_id chapters assignments
        = None).
Proof.
  intros Hzero.
  assert (forall segments fuel,
             segments <> [] ->
             TTSOrchestrator.generateSegments env latency segments assignments fuel = None)
    as Hloop.
  { intros segments fuel Hne. apply loop_stalls; [exact Hzero|].
    destruct segments; [congruence | simpl; lia]. }
  split; [exact Hloop|].
  intros chapters project_id fuel Hne. unfold TTSOrchestrator.generateAudiobook.
  now rewrite Hloop.
Qed.

Lemma zero_batch_size_never_returns_witness :
  Env.batchSize (sample_env 0 [] []) = 0
  /\ TTSOrchestrator.generateSegments (sample_env 0 [] []) reversed_latency five_units
       [narrator_assignment] 1000 = None.
Proof.
  split; [reflexivity|].
  apply (proj1 (zero_batch_size_never_returns (sample_env 0 [] []) reversed_latency
                  [narrator_assignment] eq_refl)).
  discriminate.
Defined.

(** ** Where the outcome of a run comes from *)

Lemma In_insert {A} (x y : A) (l : list A) :
  forall i, In x (<[i := y]> l) -> x = y \/ In x l.
Proof.
  induction l as [|z l IH]; intros i H; [destruct i; destruct H|].
  destruct i as [|i]; simpl in H.
  - destruct H as [<-|H]; [now left | right; now right].
  - destruct H as [<-|H]; [right; now left|].
    apply IH in H. destruct H as [->|H]; [now left | right; now right].
Qed.

Lemma In_omap_id {A} (v : A) (l : list (option A)) : In v (omap id l) -> In (Some v) l.
Proof.
  induction l as [|[x|] l IH]; simpl; [tauto| |].
  - intros [->|H]; [now left | right; now apply IH].
  - intros H. right. now apply IH.
Qed.

Lemma settle_values {A} (order : list (nat * (nat * result A))) :
  forall values vs seen,
    Promise.settle order values = (Ok vs, seen) ->
    forall v, In v vs ->
              (exists i t, In (i, (t, Ok v)) order) \/ In (Some v) values.
Proof.
  induction order as [|[index [t [value|message]]] order IH]; intros values vs seen E v Hv;
    simpl in E.
  - injection E as <- _. right. now apply In_omap_id.
  - destruct (Promise.settle order (<[index := Some value]> values)) as [r seen'] eqn:E'.
    injection E as -> _.
    destruct (IH _ _ _ E' v Hv) as [(i & t' & Hin)|Hin].
    + left. exists i, t'. now right.
    + apply In_insert in Hin. destruct Hin as [[= ->]|Hin]; [|now right].
      left. exists index, t. now left.
  - discriminate.
Qed.

Lemma settle_message {A} (order : list (nat * (nat * result A))) :
  forall values message seen,
    Promise.settle order values = (Err message, seen) ->
    exists i t, In (i, (t, Err message)) order.
Proof.
  induction order as [|[index [t [value|m]]] order IH]; intros values message seen E;
    simpl in E.
  - discriminate.
  - destruct (Promise.settle order (<[index := Some value]> values)) as [r seen'] eqn:E'.
    injection E as -> _. destruct (IH _ _ _ E') as (i & t' & Hin).
    exists i, t'. now right.
  - injection E as -> _. exists index, t. now left.
Qed.

Lemma completion_order_In {A} (promises : list (nat * result A)) (i : nat)
    (p : nat * result A) :
  In (i, p) (Promise.completion_order promises) -> In p promises.
Proof.
  intros H. eapply Permutation_in in H; [|apply completion_order_Permutation].
  unfold Segmenter.indexed in H. now apply in_combine_r in H.
Qed.

Lemma In_replicate_None {A} (v : A) (k : nat) : ~ In (Some v) (replicate k None).
Proof. induction k as [|k IH]; simpl; [tauto|]. intros [E|H]; [discriminate | auto]. Qed.

(** a value of [Promise.all] is the value of one of the promises, its
    rejection the rejection of one of them *)
Lemma all_values {A} (promises : list (nat * result A)) (vs : list A)
    (seen : list (nat * bool)) :
  Promise.all promises = (Ok vs, seen) ->
  forall v, In v vs -> exists t, In (t, Ok v) promises.
Proof.
  unfold Promise.all. intros E v Hv.
  destruct (settle_values _ _ _ _ E v Hv) as [(i & t & Hin)|Hin].
  - exists t. now apply completion_order_In in Hin.
  - now apply In_replicate_None in Hin.
Qed.

Lemma all_message {A} (promises : list (nat * result A)) (message : string)
    (seen : list (nat * bool)) :
  Promise.all promises = (Err message, seen) ->
  exists t, In (t, Err message) promises.
Proof.
  unfold Promise.all. intros E. apply settle_message in E.
  destruct E as (i & t & Hin). exists t. now apply completion_order_In in Hin.
Qed.

Lemma In_slice {A} (x : A) (i j : nat) (l : list A) : In x (Js.slice i j l) -> In x l.
Proof.
  unfold Js.slice. intros H.
  rewrite <- (take_drop i l). apply in_or_app. right.
  rewrite <- (take_drop (j - i) (drop i l)). apply in_or_app. now left.
Qed.

Section Provenance.
Context (env : Env.t) (latency : AudioSegment.t -> nat).
Context (segments : list AudioSegment.t) (assignments : list VoiceAssignment.t).

Lemma start_unit_In (batch : list AudioSegment.t) (t : nat) (r : result GeneratedAudio.t) :
  In (t, r) (map (TTSOrchestrator.start_unit env latency assignments) batch) ->
  exists s, In s batch /\ fst (TTSOrchestrator.generateSingleSegment env s assignments) = r.
Proof.
  rewrite in_map_iff. intros (s & E & Hin). exists s. split; [exact Hin|].
  unfold TTSOrchestrator.start_unit in E. now injection E.
Qed.

Lemma loop_values (fuel : nat) :
  forall i results trace audios trace',
    TTSOrchestrator.generateSegments_from env latency segments assignments fuel i results trace
    = Some (Ok audios, trace') ->
    forall a, In a audios ->
      In a results
      \/ exists s, In s segments
                   /\ fst (TTSOrchestrator.generateSingleSegment env s assignments) = Ok a.
Proof.
  induction fuel as [|fuel IH]; intros i results trace audios trace' E a Ha; [discriminate|].
  cbn [TTSOrchestrator.generateSegments_from] in E.
  destruct (i <? length segments).
  - destruct (Promise.all _) as [[values|message] seen] eqn:Eall; [|discriminate].
    destruct (IH _ _ _ _ _ E a Ha) as [Hin|Hin]; [|now right].
    apply in_app_or in Hin. destruct Hin as [Hin|Hin]; [now left|]. right.
    destruct (all_values _ _ _ Eall a Hin) as (t & Ht).
    apply start_unit_In in Ht. destruct Ht as (s & Hs & Hr).
    exists s. split; [|exact Hr]. now apply In_slice in Hs.
  - injection E as <- _. now left.
Qed.

Lemma loop_message (fuel : nat) :
  forall i results trace message trace',
    TTSOrchestrator.generateSegments_from env latency segments assignments fuel i results trace
    = Some (Err message, trace') ->
    exists s, In s segments
              /\ fst (TTSOrchestrator.generateSingleSegment env s assignments) = Err message.
Proof.
  induction fuel as [|fuel IH]; intros i results trace message trace' E; [discriminate|].
  cbn [TTSOrchestrator.generateSegments_from] in E.
  destruct (i <? length segments); [|discriminate].
  destruct (Promise.all _) as [[values|m] seen] eqn:Eall.
  - exact (IH _ _ _ _ _ E).
  - injection E as -> _. apply all_message in Eall. destruct Eall as (t & Ht).
    apply start_unit_In in Ht. destruct Ht as (s & Hs & Hr).
    exists s. split; [|exact Hr]. now apply In_slice in Hs.
Qed.
End Provenance.

Lemma unit_audio (env : Env.t) (s : AudioSegment.t) (assignments : list VoiceAssignment.t)
    (a : GeneratedAudio.t) :
  fst (TTSOrchestrator.generateSingleSegment env s assignments) = Ok a ->
  GeneratedAudio.format a = mp3
  /\ (GeneratedAudio.provider a = elevenlabs \/ GeneratedAudio.provider a = playht)
  /\ exists assignment,
      TTSOrchestrator.findVoiceAssignment (AudioSegment.character_name s) assignments
      = Some assignment
      /\ GeneratedAudio.cost a
         = Env.calculateCost env (GeneratedAudio.provider a)
             (String.length (AudioSegment.text_content s)).
Proof.
  unfold TTSOrchestrator.generateSingleSegment.
  destruct (TTSOrchestrator.findVoiceAssignment _ _) as [assignment|]; [|discriminate].
  unfold ElevenLabsProvider.generateSpeech, PlayHTProvider.generateSpeech.
  cbn [TTSOrchestrator.params_of TTSGenerationParams.text].
  destruct (Env.http env elevenlabs _).
  - intros [= <-]. simpl. eauto 6.
  - destruct (Env.http env playht _); [|discriminate].
    intros [= <-]. simpl. eauto 6.
Qed.

Lemma unit_message (env : Env.t) (s : AudioSegment.t) (assignments : list VoiceAssignment.t)
    (message : string) :
  fst (TTSOrchestrator.generateSingleSegment env s assignments) = Err message ->
  (TTSOrchestrator.findVoiceAssignment (AudioSegment.character_name s) assignments = None
   /\ message = "No voice assignment found for segment: " +:+ AudioSegment.id s)
  \/ (TTSOrchestrator.findVoiceAssignment (AudioSegment.character_name s) assignments <> None
      /\ message = "Failed to generate audio for segment").
Proof.
  unfold TTSOrchestrator.generateSingleSegment.
  destruct (TTSOrchestrator.findVoiceAssignment _ _) as [assignment|].
  - destruct (ElevenLabsProvider.generateSpeech _ _); [discriminate|].
    destruct (PlayHTProvider.generateSpeech _ _); [discriminate|].
    intros [= <-]. right. split; [discriminate | reflexivity].
  - intros [= <-]. left. split; reflexivity.
Qed.

(** X7. A run of the batch loop that fails does so with the error of one of
    its units, and that error is one of two fixed texts: the unit has no
    assignment and is named in the message, or both providers failed and the
    message says nothing of either provider's own error. *)
Theorem generation_fails_with_a_unit_error
    (env : Env.t) (latency : AudioSegment.t -> nat)
    (segments : list AudioSegment.t) (assignments : list VoiceAssignment.t)
    (fuel : nat) (message : string) (trace : list TTSOrchestrator.event) :
  TTSOrchestrator.generateSegments env latency segments assignments fuel
  = Some (Err message, trace) ->
  exists s,
    In s segments
    /\ fst (TTSOrchestrator.generateSingleSegment env s assignments) = Err message
    /\ ((TTSOrchestrator.findVoiceAssignment (AudioSegment.character_name s) assignments = None
         /\ message = "No voice assignment found for segment: " +:+ AudioSegment.id s)
        \/ (TTSOrchestrator.findVoiceAssignment (AudioSegment.character_name s) assignments
            <> None
            /\ message = "Failed to generate audio for segment")).
Proof.
  intros E. apply loop_message in E. destruct E as (s & Hs & Hr).
  exists s. split; [exact Hs|]. split; [exact Hr|]. now apply unit_message in Hr.
Qed.

Lemma generation_fails_with_a_unit_error_witness :
  exists s,
    In s five_units
    /\ fst (TTSOrchestrator.generateSingleSegment (sample_env 2 ["four"] ["four"]) s
              [narrator_assignment])
       = Err "Failed to generate audio for segment".
Proof.
  destruct (generation_fails_with_a_unit_error (sample_env 2 ["four"] ["four"])
              reversed_latency five_units [narrator_assignment] 6
              "Failed to generate audio for segment"
              [ TTSOrchestrator.BatchDispatched 0 2;
                TTSOrchestrator.UnitStarted 0; TTSOrchestrator.UnitStarted 1;
                TTSOrchestrator.UnitSettled 1 true; TTSOrchestrator.UnitSettled 0 true;
                TTSOrchestrator.Progress 2 5;
                TTSOrchestrator.BatchDispatched 2 2;
                TTSOrchestrator.UnitStarted 2; TTSOrchestrator.UnitStarted 3;
                TTSOrchestrator.UnitSettled 3 false ] eq_refl)
    as (s & Hs & Hr & _).
  exists s. split; [exact Hs | exact Hr].
Defined.

(** X8. Every fragment returned by a run of the batch loop is the audio
    generated for one of the units, which had an assignment; it is an mp3
    produced by the primary or by the fallback provider, never by XTTS, and
    is charged at the rate of the provider that produced it. *)
Theorem fragments_come_from_the_two_providers
    (env : Env.t) (latency : AudioSegment.t -> nat)
    (segments : list AudioSegment.t) (assignments : list VoiceAssignment.t)
    (fuel : nat) (audios : list GeneratedAudio.t) (trace : list TTSOrchestrator.event) :
  TTSOrchestrator.generateSegments env latency segments assignments fuel
  = Some (Ok audios, trace) ->
  forall a,
    In a audios ->
    GeneratedAudio.format a = mp3
    /\ GeneratedAudio.provider a <> xtts
    /\ exists s,
        In s segments
        /\ fst (TTSOrchestrator.generateSingleSegment env s assignments) = Ok a
        /\ TTSOrchestrator.findVoiceAssignment (AudioSegment.character_name s) assignments
           <> None
        /\ GeneratedAudio.cost a
           = Env.calculateCost env (GeneratedAudio.provider a)
               (String.length (AudioSegment.text_content s)).
Proof.
  intros E a Ha. apply (loop_values _ _ _ _ _ _ _ _ _ _ E) in Ha.
  destruct Ha as [[]|(s & Hs & Hr)].
  destruct (unit_audio _ _ _ _ Hr) as (Hf & Hp & assignment & Hfound & Hcost).
  split; [exact Hf|]. split.
  - destruct Hp as [-> | ->]; discriminate.
  - exists s. repeat split; auto. now rewrite Hfound.
Qed.

Lemma fragments_come_from_the_two_providers_witness :
  GeneratedAudio.format
    {| GeneratedAudio.audio_data := [Byte.x02]; GeneratedAudio.format := mp3;
       GeneratedAudio.duration := 3%Q; GeneratedAudio.provider := playht;
       GeneratedAudio.cost := (1 # 10)%Q |} = mp3.
Proof.
  refine (proj1 (fragments_come_from_the_two_providers (sample_env 5 ["two"] [])
                   reversed_latency five_units [narrator_assignment] 6 _ _ _ _ _)).
  - vm_compute. reflexivity.
  - right. left. reflexivity.
Defined.

(** ** The stages of a run *)

Lemma batch_update_stages (trace : list TTSOrchestrator.event) :
  map ProgressUpdate.stage (flat_map TTSOrchestrator.updates_of trace)
  = replicate (length (progress_of trace)) generating_audio.
Proof.
  induction trace as [|e trace IH]; simpl; [reflexivity|].
  destruct e; simpl; now rewrite IH.
Qed.

(** the batches of a run that returns: every batch dispatched reports its
    progress, but the one that fails *)
Lemma loop_counts (env : Env.t) (latency : AudioSegment.t -> nat)
    (segments : list AudioSegment.t) (assignments : list VoiceAssignment.t) (fuel : nat) :
  forall i results trace r trace',
    TTSOrchestrator.generateSegments_from env latency segments assignments fuel i results trace
    = Some (r, trace') ->
    length (dispatched trace') + length (progress_of trace)
    = length (dispatched trace) + length (progress_of trace')
      + (if is_ok r then 0 else 1).
Proof.
  induction fuel as [|fuel IH]; intros i results trace r trace' E; [discriminate|].
  cbn [TTSOrchestrator.generateSegments_from] in E.
  destruct (i <? length segments).
  - destruct (Promise.all _) as [[values|m] seen] eqn:Eall.
    + apply IH in E.
      rewrite !dispatched_app, !progress_of_app, dispatched_batch_events,
        progress_of_batch_events, !length_app in E.
      cbn [dispatched progress_of length app] in E. lia.
    + injection E as <- <-.
      rewrite !dispatched_app, !progress_of_app, dispatched_batch_events,
        progress_of_batch_events, !length_app.
      cbn [is_ok length]. lia.
  - injection E as <- <-. cbn [is_ok]. lia.
Qed.

Section Counting.
Context (env : Env.t) (latency : AudioSegment.t -> nat).
Context (segments : list AudioSegment.t) (assignments : list VoiceAssignment.t).
Context (positive : 0 < Env.batchSize env).

Local Abbreviation b := (Env.batchSize env).
Local Abbreviation n := (length segments).

(** where a run that returns has stopped *)
Lemma loop_batches (fuel : nat) :
  forall i results trace r trace',
    TTSOrchestrator.generateSegments_from env latency segments assignments fuel i results trace
    = Some (r, trace') ->
    exists q,
      length (progress_of trace') = length (progress_of trace) + q
      /\ match r with
         | Ok _ =>
             exists batches,
               dispatched trace' = dispatched trace ++ batches
               /\ batches_cover n b i batches
         | Err message =>
             i + q * b < n
             /\ exists s,
                 In s (Js.slice (i + q * b) (i + q * b + b) segments)
                 /\ fst (TTSOrchestrator.generateSingleSegment env s assignments)
                    = Err message
         end.
Proof.
  induction fuel as [|fuel IH]; intros i results trace r trace' E; [discriminate|].
  cbn [TTSOrchestrator.generateSegments_from] in E.
  destruct (i <? n) eqn:Hi.
  - apply Nat.ltb_lt in Hi.
    pose proof (slice_length env segments positive i) as Hlen.
    destruct (Promise.all _) as [[values|m] seen] eqn:Eall.
    + apply IH in E. destruct E as (q & Hp & Hr).
      rewrite !progress_of_app, progress_of_batch_events, !length_app in Hp.
      cbn [progress_of length app] in Hp.
      exists (S q). split; [lia|]. destruct r as [audios|message].
      * destruct Hr as (batches & Hd & Hcover).
        rewrite !dispatched_app, dispatched_batch_events, Hlen in Hd.
        cbn [dispatched app] in Hd. rewrite <- ?app_assoc in Hd. cbn [app] in Hd.
        exists ((i, Nat.min b (n - i)) :: batches). split; [exact Hd|].
        now constructor.
      * replace (i + S q * b) with (i + b + q * b) by lia. exact Hr.
    + injection E as <- <-. exists 0. cbn [Nat.mul]. rewrite !Nat.add_0_r.
      rewrite progress_of_app, progress_of_batch_events, app_nil_r.
      split; [reflexivity|]. split; [exact Hi|].
      apply all_message in Eall. destruct Eall as (t & Ht).
      apply start_unit_In in Ht. destruct Ht as (s & Hs & Hr). now exists s.
  - apply Nat.ltb_ge in Hi. injection E as <- <-. exists 0.
    split; [lia|]. exists []. split; [now rewrite app_nil_r | now constructor].
Qed.
End Counting.

(** the batches of a whole run *)
Lemma run_batches (env : Env.t) (latency : AudioSegment.t -> nat)
    (segments : list AudioSegment.t) (assignments : list VoiceAssignment.t) (fuel : nat)
    (r : result (list GeneratedAudio.t)) (trace : list TTSOrchestrator.event) :
  TTSOrchestrator.generateSegments env latency segments assignments fuel = Some (r, trace) ->
  let k := length (progress_of trace) in
  match r with
  | Ok _ =>
      length (dispatched trace) = k
      /\ (0 < Env.batchSize env ->
          k = (length segments + Env.batchSize env - 1) / Env.batchSize env)
  | Err message =>
      length (dispatched trace) = S k
      /\ (0 < Env.batchSize env ->
          k * Env.batchSize env < length segments
          /\ exists s,
              In s (Js.slice (k * Env.batchSize env)
                      (k * Env.batchSize env + Env.batchSize env) segments)
              /\ fst (TTSOrchestrator.generateSingleSegment env s assignments)
                 = Err message)
  end.
Proof.
  unfold TTSOrchestrator.generateSegments. intros E.
  pose proof (loop_counts _ _ _ _ _ _ _ _ _ _ E) as Hcount.
  cbn [dispatched progress_of length] in Hcount. cbv zeta.
  destruct r as [audios|message]; cbn [is_ok] in Hcount; (split; [lia|]); intros positive;
    destruct (loop_batches env latency segments assignments positive _ _ _ _ _ _ E)
      as (q & Hq & Hr); cbn [progress_of length] in Hq; cbn [Nat.add] in Hr.
  - destruct Hr as (batches & Hd & Hcover). cbn [dispatched app] in Hd.
    rewrite <- Hd in Hcover.
    pose proof (cover_count _ _ positive _ _ Hcover) as Hc.
    replace (length segments - 0 + Env.batchSize env - 1)
      with (length segments + Env.batchSize env - 1) in Hc by lia.
    lia.
  - now rewrite Hq.
Qed.

(** X9. The stages reported by a run that returns: [analyzing_chapters],
    then [generating_audio] once and once more per finished batch, then
    either [error] (a unit failed), or [finalizing] and [complete]; the run
    then returns what the project table answers, and when that lookup fails
    an [error] update follows the [complete] one.  A failed run ends with
    the update made of its error message.  The finished batches are all the
    batches dispatched when every unit is synthesised, ceil(n/b) of them for
    [n] units and a positive batch size [b]; they are all of them but the
    last one when a unit fails, and the failing unit is then in the batch
    that follows them. *)
Theorem stages_of_a_run
    (env : Env.t) (latency : AudioSegment.t -> nat) (fuel : nat) (project_id : string)
    (chapters : list Chapter.t) (voice_assignments : list VoiceAssignment.t)
    (outcome : result (option AudiobookProject.t)) (updates : list ProgressUpdate.t) :
  TTSOrchestrator.generateAudiobook env latency fuel project_id chapters voice_assignments
  = Some (outcome, updates) ->
  let segments := Segmenter.segmentChapters chapters in
  let b := Env.batchSize env in
  exists r trace k,
    TTSOrchestrator.generateSegments env latency segments voice_assignments fuel
    = Some (r, trace)
    /\ length (progress_of trace) = k
    /\ let generating := analyzing_chapters :: replicate (S k) generating_audio in
       (exists audios,
           r = Ok audios
           /\ length (dispatched trace) = k
           /\ (0 < b -> k = (length segments + b - 1) / b)
           /\ ((exists project,
                   outcome = Ok project /\ Env.query_project env project_id = Ok project
                   /\ map ProgressUpdate.stage updates
                      = generating ++ [finalizing; complete])
               \/ (exists message,
                      outcome = Err message
                      /\ Env.query_project env project_id = Err message
                      /\ map ProgressUpdate.stage updates
                         = generating ++ [finalizing; complete; error]
                      /\ last updates = Some (TTSOrchestrator.error_update message))))
       \/ (exists message,
              r = Err message
              /\ outcome = Err message
              /\ length (dispatched trace) = S k
              /\ (0 < b ->
                  k * b < length segments
                  /\ exists s,
                      In s (Js.slice (k * b) (k * b + b) segments)
                      /\ fst (TTSOrchestrator.generateSingleSegment env s voice_assignments)
                         = Err message)
              /\ map ProgressUpdate.stage updates = generating ++ [error]
              /\ last updates = Some (TTSOrchestrator.error_update message)).
Proof.
  unfold TTSOrchestrator.generateAudiobook. cbv zeta.
  destruct (TTSOrchestrator.generateSegments _ _ _ _ _) as [[r trace]|] eqn:Eloop;
    [|destruct fuel; discriminate].
  pose proof (run_batches _ _ _ _ _ _ _ Eloop) as Hbatches. cbv zeta in Hbatches.
  destruct r as [audios|message].
  - cbn [TTSOrchestrator.saveAudioSegments]. unfold TTSOrchestrator.getAudiobookProject.
    destruct Hbatches as [Hd Hk].
    destruct (Env.query_project env project_id) as [project|message]; intros [= <- <-];
      exists (Ok audios), trace, (length (progress_of trace));
      (split; [reflexivity|]); (split; [reflexivity|]); left; exists audios;
      (split; [reflexivity|]); (split; [exact Hd|]); (split; [exact Hk|]).
    + left. exists project. split; [reflexivity|]. split; [reflexivity|].
      repeat (rewrite map_cons || rewrite map_app); rewrite batch_update_stages.
      cbn. rewrite <- ?app_assoc. reflexivity.
    + right. exists message. split; [reflexivity|]. split; [reflexivity|]. split.
      * repeat (rewrite map_cons || rewrite map_app); rewrite batch_update_stages.
        cbn. rewrite <- ?app_assoc. reflexivity.
      * rewrite ?app_comm_cons, ?app_assoc. apply last_snoc.
  - destruct Hbatches as [Hd Hk]. intros [= <- <-].
    exists (Err message), trace, (length (progress_of trace)).
    split; [reflexivity|]. split; [reflexivity|]. right.
    exists message. split; [reflexivity|]. split; [reflexivity|]. split; [exact Hd|].
    split; [exact Hk|]. split.
    + repeat (rewrite map_cons || rewrite map_app); rewrite batch_update_stages. cbn.
      rewrite <- ?app_assoc. reflexivity.
    + rewrite ?app_comm_cons, ?app_assoc. apply last_snoc.
Qed.

Lemma stages_of_a_run_witness :
  exists trace,
    TTSOrchestrator.generateSegments (sample_env 2 [] []) reversed_latency
      (Segmenter.segmentChapters [chapter "ch1" "First."]) [] 3
    = Some (Err "No voice assignment found for segment: ch1_seg_0", trace)
    /\ length (dispatched trace) = 1
    /\ map ProgressUpdate.stage
         [ TTSOrchestrator.plain_update analyzing_chapters 5
             "Analyzing chapters and splitting into segments";
           {| ProgressUpdate.stage := generating_audio;
              ProgressUpdate.percent_complete := 10;
              ProgressUpdate.current_segment := Some 0;
              ProgressUpdate.total_segments := Some 1;
              ProgressUpdate.message := "Generating audio segments" |};
           TTSOrchestrator.error_update "No voice assignment found for segment: ch1_seg_0" ]
       = [analyzing_chapters; generating_audio; error].
Proof.
  destruct (stages_of_a_run (sample_env 2 [] []) reversed_latency 3 "p1"
              [chapter "ch1" "First."] []
              (Err "No voice assignment found for segment: ch1_seg_0")
              _ eq_refl)
    as (r & trace & k & Eloop & Hk & [(audios & -> & _ & _ & [(project & E & _)
                                                           | (message & E & _)])
                                     | (message & -> & E & Hd & _ & Hstages & _)]).
  - discriminate.
  - vm_compute in Eloop. discriminate.
  - injection E as <-. exists trace. split; [exact Eloop|].
    assert (k = 0) as ->.
    { vm_compute in Eloop. injection Eloop as <-. exact (eq_sym Hk). }
    split; [exact Hd | exact Hstages].
Defined.

(** ** Where a failed run stops *)

Lemma started_in_batch_events (i : nat) (batch : list AudioSegment.t)
    (seen : list (nat * bool)) (j : nat) :
  In (TTSOrchestrator.UnitStarted j) (TTSOrchestrator.batch_events i batch seen)
  <-> i <= j < i + length batch.
Proof.
  unfold TTSOrchestrator.batch_events. split.
  - intros [E|H]; [discriminate|]. apply in_app_or in H. destruct H as [H|H].
    + apply in_map_iff in H. destruct H as (k & [= ->] & Hk). now apply in_seq in Hk.
    + apply in_map_iff in H. destruct H as (k & E & _). discriminate.
  - intros H. right. apply in_or_app. left. apply in_map. now apply in_seq.
Qed.

Section Stop.
Context (env : Env.t) (latency : AudioSegment.t -> nat).
Context (segments : list AudioSegment.t) (assignments : list VoiceAssignment.t).
Context (positive : 0 < Env.batchSize env).

Local Abbreviation b := (Env.batchSize env).
Local Abbreviation n := (length segments).
Local Abbreviation unit_result s :=
  (fst (TTSOrchestrator.generateSingleSegment env s assignments)).

Lemma fulfilled_batch (batch : list AudioSegment.t) (values : list GeneratedAudio.t)
    (seen : list (nat * bool)) :
  Promise.all (map (TTSOrchestrator.start_unit env latency assignments) batch)
  = (Ok values, seen) ->
  Forall (fun s => is_ok (unit_result s) = true) batch.
Proof.
  intros E.
  destruct (batch_cases env latency assignments batch)
    as [(audios & Hall & _) | (_ & message & seen' & E')]; [|congruence].
  clear E. induction Hall as [|s a batch audios Hs _ IH]; constructor; [|exact IH].
  now rewrite Hs.
Qed.

Lemma loop_stops (fuel : nat) :
  forall i results trace message trace',
    TTSOrchestrator.generateSegments_from env latency segments assignments fuel i results trace
    = Some (Err message, trace') ->
    exists q more,
      trace' = trace ++ more
      /\ i + q * b < n
      /\ Forall (fun s => is_ok (unit_result s) = true) (take (q * b) (drop i segments))
      /\ (exists s, In s (Js.slice (i + q * b) (i + q * b + b) segments)
                    /\ unit_result s = Err message)
      /\ forall j, In (TTSOrchestrator.UnitStarted j) more
                   <-> i <= j < Nat.min (i + q * b + b) n.
Proof.
  induction fuel as [|fuel IH]; intros i results trace message trace' E; [discriminate|].
  cbn [TTSOrchestrator.generateSegments_from] in E.
  destruct (i <? n) eqn:Hi; [|discriminate]. apply Nat.ltb_lt in Hi.
  pose proof (slice_length env segments positive i) as Hlen.
  destruct (Promise.all _) as [[values|m] seen] eqn:Eall.
  - apply fulfilled_batch in Eall.
    apply IH in E. destruct E as (q & more & -> & Hq & Hok & Hfail & Hstarted).
    exists (S q), (TTSOrchestrator.batch_events i (Js.slice i (i + b) segments) seen
                    ++ [TTSOrchestrator.Progress
                          (i + length (Js.slice i (i + b) segments)) n] ++ more).
    replace (i + S q * b) with (i + b + q * b) by lia.
    split; [now rewrite <- !app_assoc|]. split; [exact Hq|]. split; [|split].
    + replace (S q * b) with (b + q * b) by lia. rewrite <- take_take_drop.
      apply Forall_app. split.
      * rewrite <- (slice_batch env segments positive i). exact Eall.
      * now rewrite drop_drop.
    + exact Hfail.
    + intros j. rewrite in_app_iff, started_in_batch_events, Hlen. cbn [app In].
      rewrite Hstarted. split.
      * intros [H|[H|H]]; [lia | discriminate | lia].
      * intros H. destruct (Nat.lt_ge_cases j (i + b)); [left; lia | right; right; lia].
  - injection E as -> <-. exists 0, (TTSOrchestrator.batch_events i (Js.slice i (i + b) segments) seen).
    cbn [Nat.mul]. rewrite !Nat.add_0_r. split; [reflexivity|]. split; [exact Hi|].
    split; [rewrite take_0; constructor|]. split.
    + apply all_message in Eall. destruct Eall as (t & Ht).
      apply start_unit_In in Ht. destruct Ht as (s & Hs & Hr). now exists s.
    + intros j. rewrite started_in_batch_events, Hlen. lia.
Qed.
End Stop.

(** X10. A run that fails stops at the first batch with a failing unit: all
    units of the batches before it were synthesised, every unit of the
    failing batch was started, and no unit of a later batch ever is. *)
Theorem failed_run_stops_at_the_failing_batch
    (env : Env.t) (latency : AudioSegment.t -> nat)
    (segments : list AudioSegment.t) (assignments : list VoiceAssignment.t)
    (fuel : nat) (message : string) (trace : list TTSOrchestrator.event) :
  0 < Env.batchSize env ->
  TTSOrchestrator.generateSegments env latency segments assignments fuel
  = Some (Err message, trace) ->
  exists offset,
    Nat.divide (Env.batchSize env) offset
    /\ offset < length segments
    /\ Forall (fun s => is_ok (fst (TTSOrchestrator.generateSingleSegment env s assignments))
                        = true)
              (take offset segments)
    /\ (exists s,
           In s (Js.slice offset (offset + Env.batchSize env) segments)
           /\ fst (TTSOrchestrator.generateSingleSegment env s assignments) = Err message)
    /\ forall j,
        In (TTSOrchestrator.UnitStarted j) trace
        <-> j < Nat.min (offset + Env.batchSize env) (length segments).
Proof.
  intros positive E. apply (loop_stops env latency segments assignments positive) in E.
  destruct E as (q & more & -> & Hq & Hok & Hfail & Hstarted). simpl in *.
  exists (q * Env.batchSize env). split; [now exists q|]. split; [exact Hq|].
  split; [exact Hok|]. split; [exact Hfail|].
  intros j. rewrite Hstarted. lia.
Qed.

Lemma failed_run_stops_at_the_failing_batch_witness :
  0 < Env.batchSize (sample_env 2 ["four"] ["four"])
  /\ exists offset,
      Nat.divide 2 offset /\ offset < 5
      /\ forall j,
          In (TTSOrchestrator.UnitStarted j)
             [ TTSOrchestrator.BatchDispatched 0 2;
               TTSOrchestrator.UnitStarted 0; TTSOrchestrator.UnitStarted 1;
               TTSOrchestrator.UnitSettled 1 true; TTSOrchestrator.UnitSettled 0 true;
               TTSOrchestrator.Progress 2 5;
               TTSOrchestrator.BatchDispatched 2 2;
               TTSOrchestrator.UnitStarted 2; TTSOrchestrator.UnitStarted 3;
               TTSOrchestrator.UnitSettled 3 false ]
          <-> j < Nat.min (offset + 2) 5.
Proof.
  assert (0 < Env.batchSize (sample_env 2 ["four"] ["four"])) as positive by (simpl; lia).
  split; [exact positive|].
  destruct (failed_run_stops_at_the_failing_batch (sample_env 2 ["four"] ["four"])
              reversed_latency five_units [narrator_assignment] 6
              "Failed to generate audio for segment" _ positive eq_refl)
    as (offset & Hd & Hlt & _ & _ & Hstarted).
  exists offset. split; [exact Hd|]. split; [exact Hlt|]. exact Hstarted.
Defined.

(** ** A book without text *)

(** X11. A book none of whose chapters has a non-blank piece has no unit;
    its run makes no synthesis request and ends at once, whatever the batch
    size, with the updates 5, 10 (0 of 0 units), 95 and 100 and the answer
    of the project table. *)
Theorem empty_book_completes
    (env : Env.t) (latency : AudioSegment.t -> nat) (fuel : nat) (project_id : string)
    (chapters : list Chapter.t) (voice_assignments : list VoiceAssignment.t) :
  Forall (fun c => non_blank_pieces c = []) chapters ->
  Segmenter.segmentChapters chapters = []
  /\ TTSOrchestrator.generateSegments env latency (Segmenter.segmentChapters chapters)
       voice_assignments (S fuel) = Some (Ok [], [])
  /\ exists updates,
      TTSOrchestrator.generateAudiobook env latency (S fuel) project_id chapters
        voice_assignments
      = Some (match Env.query_project env project_id with
              | Ok project => (Ok project, updates)
              | Err message =>
                  (Err message, updates ++ [TTSOrchestrator.error_update message])
              end)
      /\ percents updates = [5; 10; 95; 100]%Z
      /\ map ProgressUpdate.total_segments updates = [None; Some 0; None; None].
Proof.
  intros Hblank.
  assert (Segmenter.segmentChapters chapters = []) as Hnone.
  { apply length_zero_iff_nil.
    rewrite segmentChapters_count.
    induction Hblank as [|c chapters Hc _ IH]; simpl; [reflexivity|]. now rewrite Hc, IH. }
  split; [exact Hnone|]. split; [now rewrite Hnone|].
  unfold TTSOrchestrator.generateAudiobook. rewrite Hnone.
  cbn [TTSOrchestrator.generateSegments TTSOrchestrator.generateSegments_from length Nat.ltb
       Nat.leb TTSOrchestrator.saveAudioSegments flat_map app].
  unfold TTSOrchestrator.getAudiobookProject.
  eexists. split.
  - destruct (Env.query_project env project_id); reflexivity.
  - split; reflexivity.
Qed.

Lemma empty_book_completes_witness :
  Forall (fun c => non_blank_pieces c = []) [chapter "ch1" blank_line]
  /\ Segmenter.segmentChapters [chapter "ch1" blank_line] = [].
Proof.
  assert (Forall (fun c => non_blank_pieces c = []) [chapter "ch1" blank_line]) as H
    by (repeat constructor).
  split; [exact H|].
  exact (proj1 (empty_book_completes (sample_env 2 [] []) reversed_latency 0 "p1"
                  [chapter "ch1" blank_line] [] H)).
Defined.

(** * More on the voice matcher *)

(** ** The voice that is chosen *)

Lemma survives_spec (c : CharacterBible.t) (v : Voice.t) :
  survives c v = true
  <-> (Voice.gender v = CharacterBible.gender c \/ Voice.gender v = neutral)
      /\ (Z.abs (VoiceMatchingEngine.indexOf (Voice.age_range v)
                 - VoiceMatchingEngine.indexOf
                     (VoiceMatchingEngine.getAgeRangeFromAge (CharacterBible.age c))) <= 1)%Z
      /\ forall accent,
          VoiceProfile.accent (CharacterBible.voice_profile c) = Some accent ->
          accent <> EmptyString ->
          Js.toLowerCase (Voice.accent v) = Js.toLowerCase accent
          \/ Js.toLowerCase (Voice.accent v) = "neutral"
          \/ Js.toLowerCase (Voice.accent v) = "american".
Proof.
  unfold survives. rewrite !andb_true_iff.
  assert (forall a b, VoiceMatchingEngine.Gender_eqb a b = true <-> a = b) as Hg
    by (intros [] []; simpl; split; congruence).
  assert (forall a b,
             VoiceMatchingEngine.AgeRange_eqb a b
             || VoiceMatchingEngine.areAdjacentAgeRanges a b = true
             <-> (Z.abs (VoiceMatchingEngine.indexOf a - VoiceMatchingEngine.indexOf b) <= 1)%Z)
    as Ha
      by (intros [] []; vm_compute; split; intros H; try reflexivity; try discriminate;
          exfalso; apply H; reflexivity).
  rewrite orb_true_iff, !Hg, Ha.
  destruct (VoiceProfile.accent (CharacterBible.voice_profile c)) as [accent|].
  - destruct accent as [|a accent]; simpl Js.truthy; cbv iota.
    + split; [|tauto]. intros [[H1 H2] _]. split; [exact H1|]. split; [exact H2|].
      intros accent [= <-] Hne. congruence.
    + rewrite !orb_true_iff, !String.eqb_eq. split.
      * intros [[H1 H2] H3]. split; [exact H1|]. split; [exact H2|].
        intros accent' [= <-] _. tauto.
      * intros (H1 & H2 & H3). split; [tauto|].
        destruct (H3 (String a accent) eq_refl) as [H|[H|H]]; [discriminate|tauto..].
  - split; [|tauto]. intros [[H1 H2] _]. split; [exact H1|]. split; [exact H2|].
    intros accent [=].
Qed.

Lemma matchCharacterToVoice_chosen (c : CharacterBible.t) (pool : list Voice.t)
    (m : VoiceMatch.t) :
  VoiceMatchingEngine.matchCharacterToVoice c pool = Ok m ->
  exists v, In v pool /\ survives c v = true /\ m = match_of c v.
Proof.
  unfold VoiceMatchingEngine.matchCharacterToVoice.
  destruct (Js.Array_sort _ _) as [|[best score] rest] eqn:E; [discriminate|].
  intros [= <-].
  assert (In (best, score)
             (map (fun voice => (voice, VoiceMatchingEngine.score_of c voice))
                  (VoiceMatchingEngine.candidates_of c pool))) as Hin.
  { eapply Permutation_in; [apply Array_sort_Permutation|]. rewrite E. now left. }
  apply in_map_iff in Hin. destruct Hin as (v & [= -> <-] & Hv).
  rewrite candidates_of_filter in Hv. apply filter_In in Hv. destruct Hv as [Hv Hs].
  exists best. split; [exact Hv|]. split; [exact Hs | reflexivity].
Qed.

Lemma matchCharacterToVoice_found (c : CharacterBible.t) (pool : list Voice.t) :
  is_ok (VoiceMatchingEngine.matchCharacterToVoice c pool) = existsb (survives c) pool.
Proof.
  unfold VoiceMatchingEngine.matchCharacterToVoice. rewrite candidates_of_filter.
  assert (forall l : list (Voice.t * Q),
             match Js.Array_sort VoiceMatchingEngine.by_score_desc l with
             | [] => l = []
             | _ :: _ => l <> []
             end) as Hsort.
  { intros l. pose proof (Array_sort_Permutation VoiceMatchingEngine.by_score_desc l) as H.
    destruct (Js.Array_sort _ l).
    - now apply Permutation_nil in H.
    - intros ->. symmetry in H. now apply Permutation_nil in H. }
  match goal with |- context [Js.Array_sort _ ?l] => specialize (Hsort l) end.
  destruct (Js.Array_sort _ _); simpl.
  - apply map_eq_nil in Hsort. symmetry. apply not_true_is_false. intros H.
    apply existsb_exists in H. destruct H as (v & Hv & Hs).
    assert (In v (List.filter (survives c) pool)) as Hin by now apply filter_In.
    now rewrite Hsort in Hin.
  - symmetry. destruct (List.filter (survives c) pool) as [|v kept'] eqn:E; [now elim Hsort|].
    apply existsb_exists. exists v.
    assert (In v (List.filter (survives c) pool)) as Hin by (rewrite E; now left).
    apply filter_In in Hin. exact Hin.
Qed.

(** X12. The voice chosen for a character is a voice of the pool of the
    character's gender or neutral, of the character's age bracket or a
    neighbouring one and, when an accent is asked for, of that accent,
    neutral or American (accents compared without case); the score reported
    is its personality score, between 0 and 1. *)
Theorem chosen_voice_fits_the_character (c : CharacterBible.t) (pool : list Voice.t)
    (m : VoiceMatch.t) :
  VoiceMatchingEngine.matchCharacterToVoice c pool = Ok m ->
  exists v,
    In v pool
    /\ VoiceMatch.voice_id m = Voice.id v
    /\ VoiceMatch.voice_name m = Voice.name v
    /\ VoiceMatch.provider m = Voice.provider v
    /\ VoiceMatch.match_score m
       = VoiceMatchingEngine.calculatePersonalityMatch (Voice.descriptors v)
           (VoiceProfile.tone (CharacterBible.voice_profile c))
    /\ (0 <= VoiceMatch.match_score m <= 1)%Q
    /\ (Voice.gender v = CharacterBible.gender c \/ Voice.gender v = neutral)
    /\ (Z.abs (VoiceMatchingEngine.indexOf (Voice.age_range v)
               - VoiceMatchingEngine.indexOf
                   (VoiceMatchingEngine.getAgeRangeFromAge (CharacterBible.age c))) <= 1)%Z
    /\ forall accent,
        VoiceProfile.accent (CharacterBible.voice_profile c) = Some accent ->
        accent <> EmptyString ->
        Js.toLowerCase (Voice.accent v) = Js.toLowerCase accent
        \/ Js.toLowerCase (Voice.accent v) = "neutral"
        \/ Js.toLowerCase (Voice.accent v) = "american".
Proof.
  intros E. apply matchCharacterToVoice_chosen in E. destruct E as (v & Hv & Hs & ->).
  apply survives_spec in Hs. destruct Hs as (Hg & Ha & Hacc).
  exists v. repeat (split; [first [assumption | reflexivity]|]).
  split; [|auto].
  apply (calculatePersonalityMatch_spec (Voice.descriptors v)
           (VoiceProfile.tone (CharacterBible.voice_profile c))).
Qed.

Lemma chosen_voice_fits_the_character_witness :
  exists v,
    In v sample_pool
    /\ VoiceMatch.voice_id
         (match_of (character female 30 None ["calm"])
            (voice "v-warm" female age_20_35 ["warm"; "calm"]))
       = Voice.id v.
Proof.
  destruct (chosen_voice_fits_the_character (character female 30 None ["calm"]) sample_pool
              (match_of (character female 30 None ["calm"])
                 (voice "v-warm" female age_20_35 ["warm"; "calm"])) eq_refl)
    as (v & Hv & Hid & _).
  exists v. split; [exact Hv | exact Hid].
Defined.

(** ** Matching a whole cast *)

Lemma batch_fold (pool : list Voice.t) (characters : list CharacterBible.t) :
  forall matches,
    fold_left
      (fun matches character =>
         match VoiceMatchingEngine.matchCharacterToVoice character pool with
         | Ok m => matches ++ [m]
         | Err _ => matches
         end) characters matches
    = matches ++ VoiceMatchingEngine.batchMatchCharactersToVoices characters pool.
Proof.
  unfold VoiceMatchingEngine.batchMatchCharactersToVoices.
  induction characters as [|c characters IH] using rev_ind; intros matches.
  - simpl. now rewrite app_nil_r.
  - rewrite !fold_left_app. simpl. rewrite IH.
    destruct (VoiceMatchingEngine.matchCharacterToVoice c pool); [|reflexivity].
    now rewrite app_assoc.
Qed.

Lemma batch_app (pool : list Voice.t) (cast1 cast2 : list CharacterBible.t) :
  VoiceMatchingEngine.batchMatchCharactersToVoices (cast1 ++ cast2) pool
  = VoiceMatchingEngine.batchMatchCharactersToVoices cast1 pool
    ++ VoiceMatchingEngine.batchMatchCharactersToVoices cast2 pool.
Proof.
  unfold VoiceMatchingEngine.batchMatchCharactersToVoices at 1.
  rewrite fold_left_app. apply batch_fold.
Qed.

Lemma batch_cons (pool : list Voice.t) (c : CharacterBible.t) (cast : list CharacterBible.t) :
  VoiceMatchingEngine.batchMatchCharactersToVoices (c :: cast) pool
  = match VoiceMatchingEngine.matchCharacterToVoice c pool with
    | Ok m => [m]
    | Err _ => []
    end ++ VoiceMatchingEngine.batchMatchCharactersToVoices cast pool.
Proof.
  change (c :: cast) with ([c] ++ cast). rewrite batch_app.
  unfold VoiceMatchingEngine.batchMatchCharactersToVoices at 1. simpl.
  now destruct (VoiceMatchingEngine.matchCharacterToVoice c pool).
Qed.

(** X13. Matching a cast gives, in the order of the cast, the matches of
    the characters for which some voice of the pool passes the filters; the
    others are left out without a trace, so the result has as many entries
    as there are such characters, each pairing a character of the cast with
    a voice of the pool that passes its filters; matching two casts one
    after the other is matching them apart. *)
Theorem cast_matching_skips_the_unmatched (cast : list CharacterBible.t)
    (pool : list Voice.t) :
  length (VoiceMatchingEngine.batchMatchCharactersToVoices cast pool)
  = length (List.filter (fun c => existsb (survives c) pool) cast)
  /\ Forall2 (fun c m => VoiceMatchingEngine.matchCharacterToVoice c pool = Ok m)
       (List.filter (fun c => existsb (survives c) pool) cast)
       (VoiceMatchingEngine.batchMatchCharactersToVoices cast pool)
  /\ Forall (fun m => exists c v,
                 In c cast /\ In v pool /\ survives c v = true /\ m = match_of c v)
       (VoiceMatchingEngine.batchMatchCharactersToVoices cast pool)
  /\ forall cast',
      VoiceMatchingEngine.batchMatchCharactersToVoices (cast ++ cast') pool
      = VoiceMatchingEngine.batchMatchCharactersToVoices cast pool
        ++ VoiceMatchingEngine.batchMatchCharactersToVoices cast' pool.
Proof.
  assert (Forall2 (fun c m => VoiceMatchingEngine.matchCharacterToVoice c pool = Ok m)
            (List.filter (fun c => existsb (survives c) pool) cast)
            (VoiceMatchingEngine.batchMatchCharactersToVoices cast pool)) as Hall.
  { induction cast as [|c cast IH]; [constructor|].
    rewrite batch_cons. simpl. rewrite <- matchCharacterToVoice_found.
    destruct (VoiceMatchingEngine.matchCharacterToVoice c pool) as [m|e] eqn:E; simpl.
    - constructor; [exact E | exact IH].
    - exact IH. }
  split; [symmetry; eapply Forall2_length, Hall|]. split; [exact Hall|]. split.
  - apply List.Forall_forall. intros m Hm.
    apply list_elem_of_In, list_elem_of_lookup_1 in Hm. destruct Hm as [i Hi].
    destruct (Forall2_lookup_r _ _ _ _ _ Hall Hi) as (c & Hc & E).
    apply list_elem_of_lookup_2, list_elem_of_In, filter_In in Hc.
    apply matchCharacterToVoice_chosen in E. destruct E as (v & Hv & Hs & ->).
    exists c, v. tauto.
  - intros cast'. apply batch_app.
Qed.

(** ** Age brackets *)

Lemma Qle_bool_false (a b : Q) : Qle_bool a b = false <-> (b < a)%Q.
Proof.
  split.
  - intros E. apply Qnot_le_lt. rewrite <- Qle_bool_iff, E. discriminate.
  - intros H. apply not_true_is_false. rewrite Qle_bool_iff. now apply Qlt_not_le.
Qed.

(** X14. The age bracket grows with the age, the brackets ending at 12, 19,
    35 and 55 years inclusive; a bracket is no neighbour of itself and
    neighbourhood goes both ways; the age filter keeps, in pool order, the
    voices whose bracket is at most one step away from the character's. *)
Theorem age_brackets_are_ordered :
  (forall a b : Q,
      (a <= b)%Q ->
      (VoiceMatchingEngine.indexOf (VoiceMatchingEngine.getAgeRangeFromAge a)
       <= VoiceMatchingEngine.indexOf (VoiceMatchingEngine.getAgeRangeFromAge b))%Z)
  /\ (forall a : Q,
        (VoiceMatchingEngine.getAgeRangeFromAge a = age_0_12 <-> (a <= 12)%Q)
        /\ (VoiceMatchingEngine.getAgeRangeFromAge a = age_13_19 <-> (12 < a <= 19)%Q)
        /\ (VoiceMatchingEngine.getAgeRangeFromAge a = age_20_35 <-> (19 < a <= 35)%Q)
        /\ (VoiceMatchingEngine.getAgeRangeFromAge a = age_36_55 <-> (35 < a <= 55)%Q)
        /\ (VoiceMatchingEngine.getAgeRangeFromAge a = age_56_plus <-> (55 < a)%Q))
  /\ (forall r1 r2,
        VoiceMatchingEngine.areAdjacentAgeRanges r1 r2
        = VoiceMatchingEngine.areAdjacentAgeRanges r2 r1)
  /\ (forall r, VoiceMatchingEngine.areAdjacentAgeRanges r r = false)
  /\ forall voices age,
      VoiceMatchingEngine.filterByAgeRange voices age
      = List.filter
          (fun v => (Z.abs (VoiceMatchingEngine.indexOf (Voice.age_range v)
                            - VoiceMatchingEngine.indexOf
                                (VoiceMatchingEngine.getAgeRangeFromAge age)) <=? 1)%Z)
          voices.
Proof.
  assert (forall a : Q,
        (VoiceMatchingEngine.getAgeRangeFromAge a = age_0_12 <-> (a <= 12)%Q)
        /\ (VoiceMatchingEngine.getAgeRangeFromAge a = age_13_19 <-> (12 < a <= 19)%Q)
        /\ (VoiceMatchingEngine.getAgeRangeFromAge a = age_20_35 <-> (19 < a <= 35)%Q)
        /\ (VoiceMatchingEngine.getAgeRangeFromAge a = age_36_55 <-> (35 < a <= 55)%Q)
        /\ (VoiceMatchingEngine.getAgeRangeFromAge a = age_56_plus <-> (55 < a)%Q)) as Hb.
  { intros a. unfold VoiceMatchingEngine.getAgeRangeFromAge.
    destruct (Qle_bool a 12) eqn:E12; [apply Qle_bool_iff in E12 | apply Qle_bool_false in E12];
    [|destruct (Qle_bool a 19) eqn:E19;
      [apply Qle_bool_iff in E19 | apply Qle_bool_false in E19];
      [|destruct (Qle_bool a 35) eqn:E35;
        [apply Qle_bool_iff in E35 | apply Qle_bool_false in E35];
        [|destruct (Qle_bool a 55) eqn:E55;
          [apply Qle_bool_iff in E55 | apply Qle_bool_false in E55]]]];
    repeat split; intros; try discriminate; try lra. }
  split; [|split; [exact Hb|split; [|split]]].
  - intros a b Hab.
    destruct (Hb a) as (A1 & A2 & A3 & A4 & A5), (Hb b) as (B1 & B2 & B3 & B4 & B5).
    destruct (VoiceMatchingEngine.getAgeRangeFromAge a),
      (VoiceMatchingEngine.getAgeRangeFromAge b); simpl; try lia; exfalso;
      repeat match goal with
             | H : ?r = ?r <-> _ |- _ => pose proof (proj1 H eq_refl); clear H
             | H : _ <-> _ |- _ => clear H
             end; lra.
  - intros [] []; reflexivity.
  - intros []; reflexivity.
  - intros voices age. unfold VoiceMatchingEngine.filterByAgeRange.
    apply filter_pointwise. intros v.
    destruct (Voice.age_range v), (VoiceMatchingEngine.getAgeRangeFromAge age); reflexivity.
Qed.

(** ** The settings of a match *)

(** X15. The settings chosen for a match do not depend on the voice.  The
    stability stays between 0.4 and 0.85, the style is 0.3, 0.5 or 0.8, the
    similarity boost is 0.75 and the speaker boost is on; an energetic,
    dynamic or lively tone forces the style 0.8, and a wider emotional range
    never raises the stability. *)
Theorem settings_stay_in_range (voice voice' : Voice.t) (profile : VoiceProfile.t) :
  let settings := VoiceMatchingEngine.optimizeSettings voice profile in
  VoiceMatchingEngine.optimizeSettings voice' profile = settings
  /\ (4 # 10 <= VoiceSettings.stability settings <= 85 # 100)%Q
  /\ (VoiceSettings.style settings = Some (3 # 10)%Q
      \/ VoiceSettings.style settings = Some (5 # 10)%Q
      \/ VoiceSettings.style settings = Some (8 # 10)%Q)
  /\ VoiceSettings.similarity_boost settings = (75 # 100)%Q
  /\ VoiceSettings.use_speaker_boost settings = Some true
  /\ (VoiceMatchingEngine.some_tone_in ["energetic"; "dynamic"; "lively"]
        (VoiceProfile.tone profile) = true ->
      VoiceSettings.style settings = Some (8 # 10)%Q)
  /\ forall wider,
      VoiceProfile.tone wider = VoiceProfile.tone profile ->
      (VoiceProfile.emotional_range profile = low
       \/ VoiceProfile.emotional_range wider = high
       \/ VoiceProfile.emotional_range wider = VoiceProfile.emotional_range profile) ->
      (VoiceSettings.stability (VoiceMatchingEngine.optimizeSettings voice wider)
       <= VoiceSettings.stability settings)%Q.
Proof.
  cbv zeta. split; [reflexivity|].
  unfold VoiceMatchingEngine.optimizeSettings.
  destruct (VoiceMatchingEngine.some_tone_in ["calm"; "serene"; "gentle"]
              (VoiceProfile.tone profile)) eqn:Ecalm,
    (VoiceMatchingEngine.some_tone_in ["energetic"; "dynamic"; "lively"]
       (VoiceProfile.tone profile)) eqn:Elively.
  all: split; [|split; [|split; [|split; [|split]]]].
  all: try (intros wider -> Hr; rewrite Ecalm, Elively;
            destruct (VoiceProfile.emotional_range profile),
              (VoiceProfile.emotional_range wider);
            try (vm_compute; discriminate);
            exfalso; destruct Hr as [Hr|[Hr|Hr]]; discriminate).
  all: clear Ecalm Elively; destruct (VoiceProfile.emotional_range profile); clear;
    vm_compute; try tauto; try discriminate; split; discriminate.
Qed.

(** ** The personality score *)

Lemma tags_match_sym (a b : string) :
  VoiceMatchingEngine.tags_match a b = VoiceMatchingEngine.tags_match b a.
Proof. unfold VoiceMatchingEngine.tags_match. apply orb_comm. Qed.

Lemma count_prod_cons_r {A B} (Q : A * B -> bool) (x : B) (l1 : list A) (l2 : list B) :
  length (List.filter Q (list_prod l1 (x :: l2)))
  = length (List.filter (fun a => Q (a, x)) l1) + length (List.filter Q (list_prod l1 l2)).
Proof.
  induction l1 as [|a l1 IH]; simpl; [reflexivity|].
  destruct (Q (a, x)); simpl; rewrite !List.filter_app, !length_app, IH; lia.
Qed.

Lemma count_prod_swap {A B} (P : A -> B -> bool) (l1 : list A) (l2 : list B) :
  length (List.filter (fun p => P (fst p) (snd p)) (list_prod l1 l2))
  = length (List.filter (fun p => P (snd p) (fst p)) (list_prod l2 l1)).
Proof.
  induction l1 as [|a l1 IH]; simpl.
  - induction l2 as [|b l2 IHb]; simpl; [reflexivity | exact IHb].
  - rewrite List.filter_app, length_app, IH, count_prod_cons_r. f_equal.
    clear. induction l2 as [|b l2 IHb]; simpl; [reflexivity|].
    destruct (P a b); simpl; now rewrite IHb.
Qed.

Lemma overlap_sym (tone descriptors : list string) :
  overlap tone descriptors = overlap descriptors tone.
Proof.
  unfold overlap.
  rewrite (count_prod_swap VoiceMatchingEngine.tags_match).
  f_equal. apply filter_pointwise. intros [a b]. apply tags_match_sym.
Qed.

Lemma empty_tag_matches (x : string) : VoiceMatchingEngine.tags_match EmptyString x = true.
Proof.
  unfold VoiceMatchingEngine.tags_match. apply orb_true_iff. left.
  apply includes_spec. exists EmptyString, x. reflexivity.
Qed.

Lemma overlap_with_empty_tag (tone descriptors : list string) :
  In EmptyString tone -> length descriptors <= overlap tone descriptors.
Proof.
  unfold overlap. intros Hin.
  apply (in_map Js.toLowerCase) in Hin. change (Js.toLowerCase EmptyString) with EmptyString in Hin.
  induction (map Js.toLowerCase tone) as [|x l IH]; [destruct Hin|].
  simpl. rewrite List.filter_app, length_app. destruct Hin as [->|Hin].
  - rewrite filter_all.
    + rewrite !length_map. lia.
    + apply List.Forall_forall. intros [a b] Hab. apply in_map_iff in Hab.
      destruct Hab as (y & [= <- <-] & _). apply empty_tag_matches.
  - specialize (IH Hin). lia.
Qed.

Lemma ratio_zero (a b : nat) :
  0 < b -> (inject_Z (Z.of_nat a) / inject_Z (Z.of_nat b) == 0)%Q <-> a = 0.
Proof.
  intros Hb. split.
  - intros E. destruct a as [|a]; [reflexivity|]. exfalso.
    assert (0 < inject_Z (Z.of_nat (S a)) / inject_Z (Z.of_nat b))%Q as Hpos.
    { apply Qlt_shift_div_l.
      - change 0%Q with (inject_Z 0). rewrite <- Zlt_Qlt. lia.
      - rewrite Qmult_0_l. change 0%Q with (inject_Z 0). rewrite <- Zlt_Qlt. lia. }
    rewrite E in Hpos. now apply Qlt_irrefl in Hpos.
  - intros ->. unfold Qdiv. simpl. apply Qmult_0_l.
Qed.

(** X16. The personality score of a voice for a character looks at the
    tags without regard to letter case and does not depend on which list
    is the voice's and which the character's; for non-empty lists it is 0
    exactly when no tag of one list contains a tag of the other; and an
    empty tag on the character's side, which every tag contains, gives the
    full score 1 to every voice with at least as many tags as the
    character. *)
Theorem score_ignores_case_and_sides (descriptors tone : list string) :
  (forall descriptors' tone',
      map Js.toLowerCase descriptors' = map Js.toLowerCase descriptors ->
      map Js.toLowerCase tone' = map Js.toLowerCase tone ->
      VoiceMatchingEngine.calculatePersonalityMatch descriptors' tone'
      = VoiceMatchingEngine.calculatePersonalityMatch descriptors tone)
  /\ VoiceMatchingEngine.calculatePersonalityMatch descriptors tone
     = VoiceMatchingEngine.calculatePersonalityMatch tone descriptors
  /\ (tone <> [] -> descriptors <> [] ->
      (VoiceMatchingEngine.calculatePersonalityMatch descriptors tone == 0)%Q
      <-> forall t d,
          In t tone -> In d descriptors ->
          VoiceMatchingEngine.tags_match (Js.toLowerCase t) (Js.toLowerCase d) = false)
  /\ (In EmptyString tone -> length tone <= length descriptors ->
      (VoiceMatchingEngine.calculatePersonalityMatch descriptors tone == 1)%Q).
Proof.
  split; [|split; [|split]].
  - intros descriptors' tone' Hd Ht.
    unfold VoiceMatchingEngine.calculatePersonalityMatch. rewrite Hd, Ht.
    rewrite <- (length_map Js.toLowerCase tone'), <- (length_map Js.toLowerCase descriptors'),
      Hd, Ht, !length_map. reflexivity.
  - unfold VoiceMatchingEngine.calculatePersonalityMatch.
    rewrite !count_matches_overlap, !length_map, (overlap_sym tone descriptors),
      (Nat.max_comm (length tone)), (orb_comm (length tone =? 0)). reflexivity.
  - intros Ht Hd.
    destruct (calculatePersonalityMatch_spec descriptors tone) as (_ & -> & _); auto.
    set (n := Nat.max (length tone) (length descriptors)).
    assert (0 < n) as Hn by (destruct tone; [congruence | unfold n; simpl; lia]).
    pose proof (ratio_nonneg (overlap tone descriptors) n) as Hr.
    assert ((Qmin 1 (inject_Z (Z.of_nat (overlap tone descriptors)) / inject_Z (Z.of_nat n))
             == 0)%Q <-> overlap tone descriptors = 0) as ->.
    { rewrite <- (ratio_zero _ n Hn). split.
      - intros E. destruct (Q.min_spec 1 (inject_Z (Z.of_nat (overlap tone descriptors))
                                          / inject_Z (Z.of_nat n))) as [[_ E']|[_ E']];
          rewrite E' in E; [discriminate E | exact E].
      - intros E. rewrite E. reflexivity. }
    unfold overlap. rewrite length_zero_iff_nil. split.
    + intros E t d Hin_t Hin_d. apply not_true_is_false. intros Hm.
      assert (In (Js.toLowerCase t, Js.toLowerCase d)
                (List.filter (fun p => VoiceMatchingEngine.tags_match (fst p) (snd p))
                   (list_prod (map Js.toLowerCase tone) (map Js.toLowerCase descriptors))))
        as Hin.
      { apply filter_In. split; [|exact Hm]. apply in_prod; now apply in_map. }
      now rewrite E in Hin.
    + intros Hno. apply filter_none. intros [a b] Hin. apply in_prod_iff in Hin.
      destruct Hin as [Ha Hb]. apply in_map_iff in Ha, Hb.
      destruct Ha as (t & <- & Ht'), Hb as (d & <- & Hd'). now apply Hno.
  - intros Hin Hlen.
    assert (tone <> []) as Ht by (intros ->; destruct Hin).
    assert (descriptors <> []) as Hd
        by (intros ->; destruct tone; [congruence | simpl in Hlen; lia]).
    destruct (calculatePersonalityMatch_spec descriptors tone) as (_ & -> & _); auto.
    pose proof (overlap_with_empty_tag tone descriptors Hin) as Ho.
    rewrite Nat.max_r by exact Hlen.
    assert (0 < length descriptors) as Hpos by (destruct descriptors; [congruence | simpl; lia]).
    apply Q.min_l. apply Qle_shift_div_l.
    + change 0%Q with (inject_Z 0). rewrite <- Zlt_Qlt. lia.
    + rewrite Qmult_1_l. rewrite <- Zle_Qle. lia.
Qed.

(** * More on the assembler *)

(** ** One segment through the engine *)

Lemma append_inv_head (s t t' : string) : s +:+ t = s +:+ t' -> t = t'.
Proof. induction s as [|c s IH]; simpl; [auto|]. intros [= E]. auto. Qed.

Lemma input_is_not_output (engine : Engine.t) (t t' : Z) (ext ext' : string) :
  temp_file engine "input_" t ext <> temp_file engine "output_" t' ext'.
Proof.
  unfold temp_file, AudioAssembler.path_join. intros E.
  apply append_inv_head in E. discriminate E.
Qed.

Lemma scratch_files_removed (files : gmap string Buffer) (tin tout : string)
    (data out : Buffer) :
  tin <> tout ->
  delete tout (delete tin (<[tout := out]> (<[tin := data]> files)))
  = delete tout (delete tin files).
Proof.
  intros Hne.
  rewrite (delete_insert_ne _ tin tout) by exact Hne.
  now rewrite delete_insert_eq, delete_insert_eq.
Qed.

(** what [normalize_segment] does, in full *)
Lemma normalize_segment_steps (engine : Engine.t) (segment : GeneratedAudio.t) (w : World.t) :
  let tin := temp_file engine "input_" (Engine.now engine (World.reads w))
               (AudioAssembler.extension (GeneratedAudio.format segment)) in
  let tout := temp_file engine "output_" (Engine.now engine (S (World.reads w))) "mp3" in
  AudioAssembler.normalize_segment engine segment w
  = (match fst (through_the_engine engine
                  (Engine.loudnorm engine (Engine.normalizationLUFS engine))
                  tin tout (GeneratedAudio.audio_data segment) (World.files w)) with
     | Ok out => Ok (normalized_of engine segment out)
     | Err message => Err message
     end,
     later w 2 (snd (through_the_engine engine
                       (Engine.loudnorm engine (Engine.normalizationLUFS engine))
                       tin tout (GeneratedAudio.audio_data segment) (World.files w)))).
Proof.
  intros tin tout.
  assert (tin <> tout) as Hne by apply input_is_not_output.
  unfold AudioAssembler.normalize_segment, AudioAssembler.bind, AudioAssembler.Date_now,
    AudioAssembler.ffmpeg, AudioAssembler.writeFile, AudioAssembler.readFile,
    AudioAssembler.unlink, AudioAssembler.ret, later, through_the_engine.
  cbn [World.files World.reads].
  change (AudioAssembler.path_join _ ("input_" +:+ _)) with tin.
  change (AudioAssembler.path_join _ ("output_" +:+ _)) with tout.
  destruct (Engine.refuses engine fs_writeFile tin); [reflexivity|].
  cbn [World.files World.reads]. rewrite lookup_insert_eq.
  destruct (Engine.loudnorm engine _ _) as [out|message]; [|reflexivity].
  cbn [World.files World.reads].
  destruct (Engine.refuses engine fs_readFile tout); [reflexivity|].
  rewrite lookup_insert_eq. cbn [World.files World.reads].
  destruct (Engine.refuses engine fs_unlink tin); [reflexivity|].
  rewrite (lookup_insert_ne _ tout tin) by congruence. rewrite lookup_insert_eq.
  cbn [World.files World.reads].
  destruct (Engine.refuses engine fs_unlink tout); [reflexivity|].
  rewrite (lookup_delete_ne _ tin tout) by exact Hne. rewrite lookup_insert_eq.
  cbn [World.files World.reads fst snd].
  rewrite scratch_files_removed by exact Hne. reflexivity.
Qed.

(** what [generateM4B] does, in full *)
Lemma generateM4B_steps (engine : Engine.t) (data : Buffer * list ChapterMarker.t)
    (w : World.t) :
  let tin := temp_file engine "input_" (Engine.now engine (World.reads w)) "mp3" in
  let tout := temp_file engine "output_" (Engine.now engine (S (World.reads w))) "m4b" in
  AudioAssembler.generateM4B engine data w
  = (fst (through_the_engine engine (Engine.to_m4b engine) tin tout (fst data)
            (World.files w)),
     later w 2 (snd (through_the_engine engine (Engine.to_m4b engine) tin tout (fst data)
                       (World.files w)))).
Proof.
  intros tin tout.
  assert (tin <> tout) as Hne by apply input_is_not_output.
  unfold AudioAssembler.generateM4B, AudioAssembler.try_catch, AudioAssembler.throw,
    AudioAssembler.bind, AudioAssembler.Date_now,
    AudioAssembler.ffmpeg, AudioAssembler.writeFile, AudioAssembler.readFile,
    AudioAssembler.unlink, AudioAssembler.ret, later, through_the_engine.
  cbn [World.files World.reads].
  change (AudioAssembler.path_join _ ("input_" +:+ _)) with tin.
  change (AudioAssembler.path_join _ ("output_" +:+ _)) with tout.
  destruct (Engine.refuses engine fs_writeFile tin); [reflexivity|].
  cbn [World.files World.reads]. rewrite lookup_insert_eq.
  destruct (Engine.to_m4b engine _) as [encoded|message]; [|reflexivity].
  cbn [World.files World.reads].
  destruct (Engine.refuses engine fs_readFile tout); [reflexivity|].
  rewrite lookup_insert_eq. cbn [World.files World.reads].
  destruct (Engine.refuses engine fs_unlink tin); [reflexivity|].
  rewrite (lookup_insert_ne _ tout tin) by congruence. rewrite lookup_insert_eq.
  cbn [World.files World.reads].
  destruct (Engine.refuses engine fs_unlink tout); [reflexivity|].
  rewrite (lookup_delete_ne _ tin tout) by exact Hne. rewrite lookup_insert_eq.
  cbn [World.files World.reads fst snd].
  rewrite scratch_files_removed by exact Hne. reflexivity.
Qed.

(** ** A passage through the engine *)

Lemma through_accepted (engine : Engine.t) (filter : Buffer -> result Buffer)
    (tin tout : string) (data : Buffer) (files : gmap string Buffer) :
  accepts_every_call engine ->
  through_the_engine engine filter tin tout data files
  = match filter data with
    | Ok out => (Ok out, delete tout (delete tin files))
    | Err message => (Err message, <[tin := data]> files)
    end.
Proof. intros H. unfold through_the_engine. now rewrite !H. Qed.

Lemma through_ok (engine : Engine.t) (filter : Buffer -> result Buffer)
    (tin tout : string) (data : Buffer) (files files' : gmap string Buffer) (out : Buffer) :
  through_the_engine engine filter tin tout data files = (Ok out, files') ->
  filter data = Ok out /\ files' = delete tout (delete tin files).
Proof.
  unfold through_the_engine.
  destruct (Engine.refuses engine fs_writeFile tin); [discriminate|].
  destruct (filter data); [|discriminate].
  destruct (Engine.refuses engine fs_readFile tout); [discriminate|].
  destruct (Engine.refuses engine fs_unlink tin); [discriminate|].
  destruct (Engine.refuses engine fs_unlink tout); [discriminate|].
  intros [= <- <-]. auto.
Qed.

Lemma through_err (engine : Engine.t) (filter : Buffer -> result Buffer)
    (tin tout : string) (data : Buffer) (files files' : gmap string Buffer)
    (message : string) :
  through_the_engine engine filter tin tout data files = (Err message, files') ->
  filter data = Err message
  \/ exists call path, Engine.refuses engine call path = Some message.
Proof.
  unfold through_the_engine.
  destruct (Engine.refuses engine fs_writeFile tin) eqn:E1; [intros [= <- _]; eauto|].
  destruct (filter data); [|intros [= <- _]; auto].
  destruct (Engine.refuses engine fs_readFile tout) eqn:E2; [intros [= <- _]; eauto|].
  destruct (Engine.refuses engine fs_unlink tin) eqn:E3; [intros [= <- _]; eauto|].
  destruct (Engine.refuses engine fs_unlink tout) eqn:E4; [intros [= <- _]; eauto|].
  discriminate.
Qed.

(** ** The whole assembly *)

Lemma later_later (w : World.t) (j k : nat) (files files' : gmap string Buffer) :
  later (later w j files) k files' = later w (k + j) files'.
Proof. unfold later. cbn [World.reads]. f_equal. lia. Qed.

(** either the engine normalises every segment, or there is a first one it
    rejects *)
Lemma engine_cases (engine : Engine.t) (segments : list GeneratedAudio.t) :
  (exists outs, engine_normalises engine segments outs)
  \/ (exists before segment after outs message,
         segments = before ++ segment :: after
         /\ engine_normalises engine before outs
         /\ Engine.loudnorm engine (Engine.normalizationLUFS engine)
              (GeneratedAudio.audio_data segment) = Err message).
Proof.
  unfold engine_normalises.
  induction segments as [|s segments IH]; [left; exists []; constructor|].
  destruct (Engine.loudnorm engine (Engine.normalizationLUFS engine)
              (GeneratedAudio.audio_data s)) as [out|message] eqn:E.
  - destruct IH as [(outs & H) | (before & x & after & outs & m & -> & H & Hx)].
    + left. exists (out :: outs). now constructor.
    + right. exists (s :: before), x, after, (out :: outs), m.
      split; [reflexivity|]. split; [now constructor | exact Hx].
  - right. exists [], s, segments, [], message.
    split; [reflexivity|]. split; [constructor | exact E].
Qed.

Lemma normalize_from_accepted (engine : Engine.t) (segments : list GeneratedAudio.t)
    (outs : list Buffer) :
  accepts_every_call engine ->
  engine_normalises engine segments outs ->
  forall done w,
    exists files,
      AudioAssembler.normalize_from engine segments done w
      = (Ok (done ++ zip_with (normalized_of engine) segments outs),
         later w (2 * length segments) files)
      /\ files ⊆ World.files w.
Proof.
  unfold engine_normalises. intros Haccepts.
  induction 1 as [|s out segments outs Hs _ IH]; intros done w.
  - exists (World.files w). split; [|reflexivity].
    cbn. unfold AudioAssembler.ret, later. rewrite app_nil_r. now destruct w.
  - cbn [AudioAssembler.normalize_from].
    unfold AudioAssembler.bind, AudioAssembler.try_catch.
    rewrite normalize_segment_steps, through_accepted, Hs by exact Haccepts.
    cbn [fst snd].
    match goal with |- context [later w 2 ?f] => set (files1 := f) end.
    destruct (IH (done ++ [normalized_of engine s out]) (later w 2 files1))
      as (files & -> & Hsub).
    exists files. split.
    + rewrite later_later, <- app_assoc. cbn [zip_with app length]. do 2 f_equal. lia.
    + etransitivity; [exact Hsub|]. unfold later, files1. cbn [World.files].
      etransitivity; apply delete_subseteq.
Qed.

Lemma normalize_from_rejected (engine : Engine.t) (before : list GeneratedAudio.t)
    (segment : GeneratedAudio.t) (after : list GeneratedAudio.t) (outs : list Buffer)
    (message : string) :
  accepts_every_call engine ->
  engine_normalises engine before outs ->
  Engine.loudnorm engine (Engine.normalizationLUFS engine)
    (GeneratedAudio.audio_data segment) = Err message ->
  forall done w,
    exists files,
      AudioAssembler.normalize_from engine (before ++ segment :: after) done w
      = (Err message, later w (2 * length before + 2) files)
      /\ files !! temp_file engine "input_"
                    (Engine.now engine (2 * length before + World.reads w))
                    (AudioAssembler.extension (GeneratedAudio.format segment))
         = Some (GeneratedAudio.audio_data segment).
Proof.
  unfold engine_normalises. intros Haccepts Hbefore Hfail.
  induction Hbefore as [|s out before outs Hs _ IH]; intros done w.
  - cbn [app AudioAssembler.normalize_from].
    unfold AudioAssembler.bind, AudioAssembler.try_catch, AudioAssembler.throw.
    rewrite normalize_segment_steps, through_accepted, Hfail by exact Haccepts.
    eexists. split; [reflexivity|]. apply lookup_insert_eq.
  - cbn [app AudioAssembler.normalize_from].
    unfold AudioAssembler.bind, AudioAssembler.try_catch.
    rewrite normalize_segment_steps, through_accepted, Hs by exact Haccepts.
    cbn [fst snd].
    match goal with |- context [later w 2 ?f] => set (files1 := f) end.
    destruct (IH (done ++ [normalized_of engine s out]) (later w 2 files1))
      as (files & -> & Hfile).
    exists files. split.
    + rewrite later_later. cbn [length]. do 2 f_equal. lia.
    + rewrite <- Hfile. unfold later. cbn [World.reads length]. do 3 f_equal. lia.
Qed.

(** a normalisation that succeeds has gone through the engine for every
    segment and left nothing *)
Lemma normalize_from_ok (engine : Engine.t) (segments : list GeneratedAudio.t) :
  forall done w normalized w',
    AudioAssembler.normalize_from engine segments done w = (Ok normalized, w') ->
    exists outs,
      engine_normalises engine segments outs
      /\ normalized = done ++ zip_with (normalized_of engine) segments outs
      /\ World.files w' ⊆ World.files w
      /\ World.reads w' = 2 * length segments + World.reads w.
Proof.
  unfold engine_normalises.
  induction segments as [|s segments IH]; intros done w normalized w' E.
  - cbn in E. unfold AudioAssembler.ret in E. injection E as <- <-.
    exists []. split; [constructor|]. split; [now rewrite app_nil_r|]. split; reflexivity.
  - cbn [AudioAssembler.normalize_from] in E.
    unfold AudioAssembler.bind, AudioAssembler.try_catch, AudioAssembler.throw in E.
    rewrite normalize_segment_steps in E.
    destruct (through_the_engine engine _ _ _ _ _) as [[out|message] files1] eqn:Et;
      cbn [fst snd] in E; [|discriminate].
    apply through_ok in Et. destruct Et as [Hs ->].
    apply IH in E. destruct E as (outs & Houts & -> & Hsub & Hreads).
    exists (out :: outs). split; [now constructor|]. split.
    + rewrite <- app_assoc. reflexivity.
    + unfold later in *. cbn [World.files World.reads length] in *. split; [|lia].
      etransitivity; [exact Hsub|]. etransitivity; apply delete_subseteq.
Qed.

Lemma normalize_from_err (engine : Engine.t) (segments : list GeneratedAudio.t) :
  forall done w message w',
    AudioAssembler.normalize_from engine segments done w = (Err message, w') ->
    engine_or_file_system_error engine message.
Proof.
  unfold engine_or_file_system_error.
  induction segments as [|s segments IH]; intros done w message w' E.
  - discriminate.
  - cbn [AudioAssembler.normalize_from] in E.
    unfold AudioAssembler.bind, AudioAssembler.try_catch, AudioAssembler.throw in E.
    rewrite normalize_segment_steps in E.
    destruct (through_the_engine engine _ _ _ _ _) as [[out|m] files1] eqn:Et;
      cbn [fst snd] in E.
    + exact (IH _ _ _ _ E).
    + injection E as -> _. apply through_err in Et. destruct Et as [Et|Et]; eauto.
Qed.

Lemma zip_with_audio (engine : Engine.t) (segments : list GeneratedAudio.t)
    (outs : list Buffer) :
  engine_normalises engine segments outs ->
  map NormalizedAudio.audio_data (zip_with (normalized_of engine) segments outs) = outs.
Proof.
  induction 1 as [|s out segments outs _ _ IH]; simpl; [reflexivity|]. now rewrite IH.
Qed.

(** an assembly that succeeds *)
Lemma assembleAudiobook_ok (engine : Engine.t) (segments : list GeneratedAudio.t)
    (metadata : AudiobookMetadata.t) (w w' : World.t) (book : AssembledAudiobook.t) :
  AudioAssembler.assembleAudiobook engine segments metadata w = (Ok book, w') ->
  exists outs encoded,
    engine_normalises engine segments outs
    /\ Engine.to_m4b engine (concat outs) = Ok encoded
    /\ book = assembled engine segments metadata outs encoded
    /\ World.files w' ⊆ World.files w
    /\ World.reads w' = 2 * length segments + 2 + World.reads w.
Proof.
  unfold AudioAssembler.assembleAudiobook, AudioAssembler.try_catch, AudioAssembler.bind,
    AudioAssembler.throw, AudioAssembler.generateMP3, AudioAssembler.ret,
    AudioAssembler.normalizeAudio.
  destruct (AudioAssembler.normalize_from engine segments [] w) as [[normalized|m] w1] eqn:E;
    [|discriminate].
  apply normalize_from_ok in E. destruct E as (outs & Houts & -> & Hsub & Hreads).
  cbn [app]. rewrite generateM4B_steps, addChapterMarkers_audio, zip_with_audio by exact Houts.
  destruct (through_the_engine engine _ _ _ _ _) as [[encoded|m] files2] eqn:Et;
    cbn [fst snd]; [|discriminate].
  apply through_ok in Et. destruct Et as [Henc ->].
  intros [= <- <-]. exists outs, encoded.
  split; [exact Houts|]. split; [exact Henc|]. split; [reflexivity|].
  unfold later. cbn [World.files World.reads]. split; [|lia].
  etransitivity; [|exact Hsub]. etransitivity; apply delete_subseteq.
Qed.

(** an assembly that fails *)
Lemma assembleAudiobook_err (engine : Engine.t) (segments : list GeneratedAudio.t)
    (metadata : AudiobookMetadata.t) (w w' : World.t) (message : string) :
  AudioAssembler.assembleAudiobook engine segments metadata w = (Err message, w') ->
  engine_or_file_system_error engine message.
Proof.
  unfold AudioAssembler.assembleAudiobook, AudioAssembler.try_catch, AudioAssembler.bind,
    AudioAssembler.throw, AudioAssembler.generateMP3, AudioAssembler.ret,
    AudioAssembler.normalizeAudio.
  destruct (AudioAssembler.normalize_from engine segments [] w) as [[normalized|m] w1] eqn:E.
  - rewrite generateM4B_steps.
    destruct (through_the_engine engine _ _ _ _ _) as [[encoded|m] files2] eqn:Et;
      cbn [fst snd]; [discriminate|].
    intros [= <- _]. apply through_err in Et. unfold engine_or_file_system_error.
    destruct Et as [Et|Et]; eauto.
  - intros [= <- _]. exact (normalize_from_err _ _ _ _ _ _ E).
Qed.

(** the assembly of a file system that rejects no call *)
Lemma assembleAudiobook_run (engine : Engine.t) (segments : list GeneratedAudio.t)
    (metadata : AudiobookMetadata.t) (w : World.t) :
  accepts_every_call engine ->
  match AudioAssembler.assembleAudiobook engine segments metadata w with
  | (Ok book, w') =>
      exists outs encoded,
        engine_normalises engine segments outs
        /\ Engine.to_m4b engine (concat outs) = Ok encoded
        /\ book = assembled engine segments metadata outs encoded
  | (Err message, w') =>
      (exists before segment after outs,
          segments = before ++ segment :: after
          /\ engine_normalises engine before outs
          /\ Engine.loudnorm engine (Engine.normalizationLUFS engine)
               (GeneratedAudio.audio_data segment) = Err message
          /\ World.reads w' = 2 * length before + 2 + World.reads w
          /\ World.files w'
             !! temp_file engine "input_"
                  (Engine.now engine (2 * length before + World.reads w))
                  (AudioAssembler.extension (GeneratedAudio.format segment))
             = Some (GeneratedAudio.audio_data segment))
      \/ (exists outs,
             engine_normalises engine segments outs
             /\ Engine.to_m4b engine (concat outs) = Err message
             /\ World.reads w' = 2 * length segments + 2 + World.reads w
             /\ World.files w'
                !! temp_file engine "input_"
                     (Engine.now engine (2 * length segments + World.reads w)) "mp3"
                = Some (concat outs))
  end.
Proof.
  intros Haccepts.
  unfold AudioAssembler.assembleAudiobook, AudioAssembler.try_catch, AudioAssembler.bind,
    AudioAssembler.throw, AudioAssembler.generateMP3, AudioAssembler.ret,
    AudioAssembler.normalizeAudio.
  destruct (engine_cases engine segments)
    as [(outs & Hok) | (before & s & after & outs & message & -> & Hok & Hfail)].
  - destruct (normalize_from_accepted engine segments outs Haccepts Hok [] w)
      as (files & -> & Hsub).
    cbn [app]. rewrite generateM4B_steps, through_accepted, addChapterMarkers_audio,
      zip_with_audio by assumption.
    destruct (Engine.to_m4b engine (concat outs)) as [encoded|message] eqn:E; cbn [fst snd].
    + exists outs, encoded. split; [exact Hok|]. split; [exact E|]. reflexivity.
    + right. exists outs. split; [exact Hok|]. split; [exact E|].
      unfold later. cbn [World.files World.reads]. split; [lia|]. apply lookup_insert_eq.
  - destruct (normalize_from_rejected engine before s after outs message Haccepts Hok Hfail
                [] w) as (files & -> & Hfile).
    left. exists before, s, after, outs. split; [reflexivity|]. split; [exact Hok|].
    split; [exact Hfail|]. unfold later. cbn [World.files World.reads]. split; [lia|].
    exact Hfile.
Qed.

Lemma engine_normalises_unique (engine : Engine.t) (segments : list GeneratedAudio.t)
    (outs outs' : list Buffer) :
  engine_normalises engine segments outs -> engine_normalises engine segments outs' ->
  outs = outs'.
Proof.
  unfold engine_normalises. intros H. revert outs'.
  induction H as [|s out segments outs Hs _ IH]; intros outs' H'; inversion H'; subst.
  - reflexivity.
  - f_equal; [congruence | now apply IH].
Qed.

Lemma engine_normalises_app (engine : Engine.t) (before : list GeneratedAudio.t)
    (segment : GeneratedAudio.t) (after : list GeneratedAudio.t) (outs : list Buffer)
    (message : string) :
  engine_normalises engine (before ++ segment :: after) outs ->
  Engine.loudnorm engine (Engine.normalizationLUFS engine)
    (GeneratedAudio.audio_data segment) <> Err message.
Proof.
  unfold engine_normalises. intros H. apply Forall2_app_inv_l in H.
  destruct H as (outs1 & outs2 & _ & H & _). inversion H; subst. congruence.
Qed.

(** X17. An assembly that succeeds leaves no file behind: every file of the
    temp directory afterwards was there before, with the same content, and
    the clock was read twice per segment and twice more for the m4b. *)
Theorem successful_assembly_leaves_no_file
    (engine : Engine.t) (segments : list GeneratedAudio.t) (metadata : AudiobookMetadata.t)
    (w w' : World.t) (book : AssembledAudiobook.t) :
  AudioAssembler.assembleAudiobook engine segments metadata w = (Ok book, w') ->
  World.files w' ⊆ World.files w
  /\ World.reads w' = 2 * length segments + 2 + World.reads w.
Proof.
  intros E. apply assembleAudiobook_ok in E.
  destruct E as (outs & encoded & _ & _ & _ & Hsub & Hreads). auto.
Qed.

Lemma successful_assembly_leaves_no_file_witness :
  World.reads (snd (AudioAssembler.assembleAudiobook sample_engine one_fragment title_page
                      empty_world)) = 4.
Proof.
  assert (AudioAssembler.assembleAudiobook sample_engine one_fragment title_page empty_world
          = (Ok (assembled sample_engine one_fragment title_page [[Byte.x01]] [Byte.x01]),
             later empty_world 4 ∅)) as E by (vm_compute; reflexivity).
  rewrite E.
  exact (proj2 (successful_assembly_leaves_no_file sample_engine one_fragment title_page
                  empty_world _ _ E)).
Defined.

(** X18. An assembly succeeds only when the engine normalises every segment
    and encodes the concatenation of what it returned, in the order of the
    segments; the book is then made of that concatenation as mp3 and of its
    encoding as m4b.  When the file system rejects no call, the converse
    holds: the assembly succeeds whenever the engine does all that. *)
Theorem assembly_succeeds_iff_the_engine_accepts
    (engine : Engine.t) (segments : list GeneratedAudio.t) (metadata : AudiobookMetadata.t)
    (w : World.t) (book : AssembledAudiobook.t) :
  ((exists w', AudioAssembler.assembleAudiobook engine segments metadata w = (Ok book, w'))
   -> exists outs encoded,
      engine_normalises engine segments outs
      /\ Engine.to_m4b engine (concat outs) = Ok encoded
      /\ book = assembled engine segments metadata outs encoded)
  /\ (accepts_every_call engine ->
      (exists outs encoded,
          engine_normalises engine segments outs
          /\ Engine.to_m4b engine (concat outs) = Ok encoded
          /\ book = assembled engine segments metadata outs encoded)
      -> exists w', AudioAssembler.assembleAudiobook engine segments metadata w = (Ok book, w')).
Proof.
  split.
  - intros (w' & E). apply assembleAudiobook_ok in E.
    destruct E as (outs & encoded & Hok & Henc & -> & _). now exists outs, encoded.
  - intros Haccepts (outs & encoded & Hok & Henc & ->).
    pose proof (assembleAudiobook_run engine segments metadata w Haccepts) as H.
    destruct (AudioAssembler.assembleAudiobook engine segments metadata w)
      as [[book|message] w'].
    + destruct H as (outs' & encoded' & Hok' & Henc' & ->).
      rewrite (engine_normalises_unique _ _ _ _ Hok' Hok) in *.
      exists w'. do 3 f_equal. congruence.
    + exfalso. destruct H as [(before & s & after & outs' & -> & _ & Hfail & _)
                             | (outs' & Hok' & Henc' & _)].
      * now apply (engine_normalises_app _ _ _ _ _ message) in Hok.
      * rewrite (engine_normalises_unique _ _ _ _ Hok' Hok) in *. congruence.
Qed.

(** X19. An assembly fails only with the message of the audio engine or of
    a file-system call that was rejected.  When the file system rejects no
    call, it fails either on the first segment that the engine does not
    normalise or on the encoding of the concatenation as m4b, and in both
    cases the input file written for the engine is still in the temp
    directory afterwards.  When the file system rejects the first write, the
    assembly fails with that rejection, and the temp directory is as it was
    but for what the rejected write has left of the input file. *)
Theorem failed_assembly_is_an_engine_failure
    (engine : Engine.t) (segments : list GeneratedAudio.t) (metadata : AudiobookMetadata.t)
    (w w' : World.t) (message : string) :
  AudioAssembler.assembleAudiobook engine segments metadata w = (Err message, w') ->
  engine_or_file_system_error engine message
  /\ (accepts_every_call engine ->
      (exists before segment after outs,
          segments = before ++ segment :: after
          /\ engine_normalises engine before outs
          /\ Engine.loudnorm engine (Engine.normalizationLUFS engine)
               (GeneratedAudio.audio_data segment) = Err message
          /\ World.reads w' = 2 * length before + 2 + World.reads w
          /\ World.files w'
             !! temp_file engine "input_"
                  (Engine.now engine (2 * length before + World.reads w))
                  (AudioAssembler.extension (GeneratedAudio.format segment))
             = Some (GeneratedAudio.audio_data segment))
      \/ (exists outs,
             engine_normalises engine segments outs
             /\ Engine.to_m4b engine (concat outs) = Err message
             /\ World.reads w' = 2 * length segments + 2 + World.reads w
             /\ World.files w'
                !! temp_file engine "input_"
                     (Engine.now engine (2 * length segments + World.reads w)) "mp3"
                = Some (concat outs)))
  /\ (forall refusal,
         let tin :=
           temp_file engine "input_" (Engine.now engine (World.reads w))
             (match segments with
              | segment :: _ => AudioAssembler.extension (GeneratedAudio.format segment)
              | [] => "mp3"
              end) in
         let data :=
           match segments with
           | segment :: _ => GeneratedAudio.audio_data segment
           | [] => []
           end in
         Engine.refuses engine fs_writeFile tin = Some refusal ->
         message = refusal
         /\ World.files w'
            = match Engine.partial engine tin data with
              | Some remains => <[tin := remains]> (World.files w)
              | None => World.files w
              end).
Proof.
  intros E. split; [exact (assembleAudiobook_err _ _ _ _ _ _ E)|]. split.
  - intros Haccepts.
    pose proof (assembleAudiobook_run engine segments metadata w Haccepts) as H.
    now rewrite E in H.
  - intros refusal tin data Hrefused. subst tin data. revert E.
    unfold AudioAssembler.assembleAudiobook, AudioAssembler.try_catch, AudioAssembler.bind,
      AudioAssembler.throw, AudioAssembler.generateMP3, AudioAssembler.ret,
      AudioAssembler.normalizeAudio.
    destruct segments as [|segment rest].
    + cbn [AudioAssembler.normalize_from]. unfold AudioAssembler.ret.
      rewrite generateM4B_steps. unfold through_the_engine. rewrite Hrefused.
      cbn [fst snd]. intros [= <- <-]. auto.
    + cbn [AudioAssembler.normalize_from].
      unfold AudioAssembler.bind, AudioAssembler.try_catch, AudioAssembler.throw.
      rewrite normalize_segment_steps. unfold through_the_engine. rewrite Hrefused.
      cbn [fst snd]. intros [= <- <-]. auto.
Qed.

Lemma failed_assembly_is_an_engine_failure_witness :
  AudioAssembler.assembleAudiobook sample_engine
    (one_fragment ++ [fragment 20 2 []]) title_page empty_world
  = (Err "Invalid data found when processing input",
     later empty_world 4 (<["/app/temp/input_1002.mp3" := []]> ∅))
  /\ engine_or_file_system_error sample_engine "Invalid data found when processing input"
  /\ AudioAssembler.assembleAudiobook full_disk_engine one_fragment title_page empty_world
     = (Err "ENOSPC: no space left on device, write",
        later empty_world 2 (<["/app/temp/input_1000.mp3" := []]> ∅))
  /\ "ENOSPC: no space left on device, write" = "ENOSPC: no space left on device, write"
  /\ World.files (later empty_world 2 (<["/app/temp/input_1000.mp3" := []]> ∅))
     = <["/app/temp/input_1000.mp3" := []]> ∅.
Proof.
  assert (AudioAssembler.assembleAudiobook sample_engine
            (one_fragment ++ [fragment 20 2 []]) title_page empty_world
          = (Err "Invalid data found when processing input",
             later empty_world 4 (<["/app/temp/input_1002.mp3" := []]> ∅))) as E
      by (vm_compute; reflexivity).
  assert (AudioAssembler.assembleAudiobook full_disk_engine one_fragment title_page
            empty_world
          = (Err "ENOSPC: no space left on device, write",
             later empty_world 2 (<["/app/temp/input_1000.mp3" := []]> ∅))) as E'
      by (vm_compute; reflexivity).
  split; [exact E|]. split.
  - exact (proj1 (failed_assembly_is_an_engine_failure sample_engine
                    (one_fragment ++ [fragment 20 2 []]) title_page empty_world _ _ E)).
  - split; [exact E'|].
    exact (proj2 (proj2 (failed_assembly_is_an_engine_failure full_disk_engine
                           one_fragment title_page empty_world _ _ E')) _ eq_refl).
Defined.

(** * The voice libraries *)

Lemma parseAgeRange_of_lower (age : string) :
  PlayHT.parseAgeRange age
  = (if Js.includes (Js.toLowerCase age) "young" || Js.includes (Js.toLowerCase age) "child"
     then age_0_12
     else if Js.includes (Js.toLowerCase age) "teen" || Js.includes (Js.toLowerCase age) "youth"
     then age_13_19
     else if Js.includes (Js.toLowerCase age) "middle"
             || Js.includes (Js.toLowerCase age) "mature"
     then age_36_55
     else if Js.includes (Js.toLowerCase age) "old" || Js.includes (Js.toLowerCase age) "senior"
     then age_56_plus
     else age_20_35).
Proof. reflexivity. Qed.

Lemma libraries_read_labels (labels : gmap string string) :
  ElevenLabs.detectGender labels = PlayHT.parseGender (default EmptyString (labels !! "gender"))
  /\ ElevenLabs.detectAgeRange labels
     = PlayHT.parseAgeRange (default EmptyString (labels !! "age")).
Proof.
  split.
  - unfold ElevenLabs.detectGender, PlayHT.parseGender.
    destruct (labels !! "gender") as [g|]; reflexivity.
  - unfold ElevenLabs.detectAgeRange.
    destruct (labels !! "age") as [a|]; [|reflexivity]. cbn [fmap option_fmap option_map default].
    rewrite parseAgeRange_of_lower.
    destruct a as [|c a]; [reflexivity|]. reflexivity.
Qed.

(** X20. The two voice libraries read the gender and the age of a voice
    in the same way: ElevenLabs classifies the labels [gender] and [age] as
    PlayHT classifies the fields of the same names, a missing label counting
    as an empty one; without a gender the voice is neutral and without an
    age it is in the bracket 20-35. *)
Theorem libraries_read_gender_and_age_alike (labels : gmap string string) :
  ElevenLabs.detectGender labels = PlayHT.parseGender (default EmptyString (labels !! "gender"))
  /\ ElevenLabs.detectAgeRange labels
     = PlayHT.parseAgeRange (default EmptyString (labels !! "age"))
  /\ PlayHT.parseGender EmptyString = neutral
  /\ PlayHT.parseAgeRange EmptyString = age_20_35.
Proof.
  split; [apply libraries_read_labels|]. split; [apply libraries_read_labels|].
  split; reflexivity.
Qed.

Lemma young_is_child (age : string) :
  occurs_in "young" (Js.toLowerCase age) -> PlayHT.parseAgeRange age = age_0_12.
Proof.
  intros H. apply includes_spec in H. rewrite parseAgeRange_of_lower. now rewrite H.
Qed.

Lemma occurs_in_nonempty (t s : string) : occurs_in t s -> t <> EmptyString -> s <> EmptyString.
Proof.
  intros (before & after & ->) Ht E.
  destruct before; [destruct t; [congruence | discriminate] | discriminate].
Qed.

Lemma child_voice_for_no_adult (c : CharacterBible.t) (v : Voice.t) :
  Voice.age_range v = age_0_12 -> (19 < CharacterBible.age c)%Q -> survives c v = false.
Proof.
  intros Hv Hage. unfold survives. rewrite Hv.
  unfold VoiceMatchingEngine.getAgeRangeFromAge.
  assert (Qle_bool (CharacterBible.age c) 12 = false) as -> by (apply Qle_bool_false; lra).
  assert (Qle_bool (CharacterBible.age c) 19 = false) as -> by (apply Qle_bool_false; lra).
  destruct (Qle_bool (CharacterBible.age c) 35), (Qle_bool (CharacterBible.age c) 55);
    cbn; now rewrite andb_false_r.
Qed.

(** X21. A voice whose age reads "young" in any spelling, alone or with
    other words, is put in the bracket 0-12 by both libraries, whatever else
    the age says; such a voice is never a candidate for a character older
    than 19. *)
Theorem young_voices_are_child_voices (age : string) :
  occurs_in "young" (Js.toLowerCase age) ->
  (forall v : PlayHTVoice.t,
      PlayHTVoice.age v = age -> Voice.age_range (PlayHT.to_voice v) = age_0_12)
  /\ (forall v : ElevenLabsVoice.t,
        ElevenLabsVoice.labels v !! "age" = Some age ->
        Voice.age_range (ElevenLabs.to_voice v) = age_0_12)
  /\ forall (v : Voice.t) (c : CharacterBible.t) (pool : list Voice.t),
      Voice.age_range v = age_0_12 -> (19 < CharacterBible.age c)%Q ->
      ~ In v (VoiceMatchingEngine.candidates_of c pool).
Proof.
  intros Hyoung. split; [|split].
  - intros v <-. now apply young_is_child.
  - intros v Hage. cbn [ElevenLabs.to_voice Voice.age_range].
    rewrite (proj2 (libraries_read_labels (ElevenLabsVoice.labels v))), Hage.
    now apply young_is_child.
  - intros v c pool Hv Hc Hin. rewrite candidates_of_filter in Hin.
    apply filter_In in Hin. destruct Hin as [_ Hs].
    rewrite (child_voice_for_no_adult c v Hv Hc) in Hs. discriminate.
Qed.

Lemma young_voices_are_child_voices_witness :
  occurs_in "young" (Js.toLowerCase "Young Adult")
  /\ forall v : PlayHTVoice.t,
      PlayHTVoice.age v = "Young Adult" -> Voice.age_range (PlayHT.to_voice v) = age_0_12.
Proof.
  assert (occurs_in "young" (Js.toLowerCase "Young Adult")) as H
      by (exists EmptyString, " adult"; reflexivity).
  split; [exact H|].
  exact (proj1 (young_voices_are_child_voices "Young Adult" H)).
Defined.

(** X22. An ElevenLabs voice without labels becomes a neutral voice of the
    bracket 20-35 with the accent "neutral" and no descriptor.  It passes
    the filters of every character older than 12 and not older than 55,
    whatever the character's gender and accent, with the score 0.5; so
    matching such a character against a pool that holds it never fails. *)
Theorem unlabelled_voice_suits_most_characters (v : ElevenLabsVoice.t) :
  ElevenLabsVoice.labels v = ∅ ->
  ElevenLabs.to_voice v
  = {| Voice.id := ElevenLabsVoice.voice_id v; Voice.name := ElevenLabsVoice.name v;
       Voice.provider := elevenlabs; Voice.gender := neutral; Voice.age_range := age_20_35;
       Voice.accent := "neutral"; Voice.descriptors := [] |}
  /\ forall c : CharacterBible.t,
      (12 < CharacterBible.age c <= 55)%Q ->
      survives c (ElevenLabs.to_voice v) = true
      /\ VoiceMatchingEngine.score_of c (ElevenLabs.to_voice v) = (1 # 2)%Q
      /\ forall pool,
          In (ElevenLabs.to_voice v) pool ->
          is_ok (VoiceMatchingEngine.matchCharacterToVoice c pool) = true.
Proof.
  intros Hnone.
  assert (ElevenLabs.to_voice v
          = {| Voice.id := ElevenLabsVoice.voice_id v; Voice.name := ElevenLabsVoice.name v;
               Voice.provider := elevenlabs; Voice.gender := neutral;
               Voice.age_range := age_20_35;
               Voice.accent := "neutral"; Voice.descriptors := [] |}) as E.
  { unfold ElevenLabs.to_voice, ElevenLabs.detectGender, ElevenLabs.detectAgeRange,
      ElevenLabs.extractDescriptors, ElevenLabs.push_label.
    rewrite Hnone, !lookup_empty. reflexivity. }
  split; [exact E|]. intros c [Hlow Hhigh].
  assert (survives c (ElevenLabs.to_voice v) = true) as Hs.
  { rewrite E. unfold survives. cbn [Voice.gender Voice.age_range Voice.accent].
    assert (VoiceMatchingEngine.Gender_eqb neutral neutral = true) as -> by reflexivity.
    rewrite orb_true_r.
    assert (forall accent,
               String.eqb (Js.toLowerCase "neutral") (Js.toLowerCase accent)
               || String.eqb (Js.toLowerCase "neutral") "neutral"
               || String.eqb (Js.toLowerCase "neutral") "american" = true) as Haccent
        by (intros accent; cbn; now rewrite orb_true_r).
    unfold VoiceMatchingEngine.getAgeRangeFromAge.
    assert (Qle_bool (CharacterBible.age c) 12 = false) as -> by (apply Qle_bool_false; lra).
    assert (Qle_bool (CharacterBible.age c) 55 = true) as H55 by (apply Qle_bool_iff; lra).
    destruct (VoiceProfile.accent (CharacterBible.voice_profile c)) as [accent|];
      [destruct (Js.truthy accent); rewrite ?Haccent|];
      destruct (Qle_bool (CharacterBible.age c) 19), (Qle_bool (CharacterBible.age c) 35);
      rewrite ?H55; reflexivity. }
  split; [exact Hs|]. split.
  - rewrite E. unfold VoiceMatchingEngine.score_of. cbn [Voice.descriptors].
    apply (calculatePersonalityMatch_spec []). now right.
  - intros pool Hin. rewrite matchCharacterToVoice_found.
    apply existsb_exists. now exists (ElevenLabs.to_voice v).
Qed.

Lemma unlabelled_voice_suits_most_characters_witness :
  Voice.gender
    (ElevenLabs.to_voice
       {| ElevenLabsVoice.voice_id := "v1"; ElevenLabsVoice.name := "Rachel";
          ElevenLabsVoice.labels := ∅ |}) = neutral.
Proof.
  exact (f_equal Voice.gender
           (proj1 (unlabelled_voice_suits_most_characters
                     {| ElevenLabsVoice.voice_id := "v1"; ElevenLabsVoice.name := "Rachel";
                        ElevenLabsVoice.labels := ∅ |} eq_refl))).
Defined.

(** * The emotion of a request *)

Lemma Math_max_spec (a b : Q) :
  (a <= Js.Math_max a b /\ b <= Js.Math_max a b
   /\ (Js.Math_max a b == a \/ Js.Math_max a b == b))%Q.
Proof.
  unfold Js.Math_max. destruct (Qle_bool a b) eqn:E.
  - apply Qle_bool_iff in E. repeat split; [exact E | apply Qle_refl | right; reflexivity].
  - apply Qle_bool_false in E.
    repeat split; [apply Qle_refl | now apply Qlt_le_weak | left; reflexivity].
Qed.

Lemma modulate_in_range (base : VoiceSettings.t) (type : EmotionType) :
  settings_in_range base -> settings_in_range (ElevenLabs.modulate base type).
Proof.
  unfold settings_in_range, unit_range. intros ([Hs0 Hs1] & [Hb0 Hb1] & Hstyle).
  destruct type; cbn [ElevenLabs.modulate VoiceSettings.stability
                        VoiceSettings.similarity_boost VoiceSettings.style];
    repeat match goal with
           | |- context [Js.Math_max ?a ?b] =>
               let H := fresh in
               pose proof (Math_max_spec a b) as H; destruct H as (? & ? & [?|?]);
               generalize dependent (Js.Math_max a b); intros
           | |- context [Js.Math_min ?a ?b] =>
               let H := fresh in
               pose proof (Math_min_spec a b) as H; destruct H as (? & ? & [?|?]);
               generalize dependent (Js.Math_min a b); intros
           end;
    repeat split; try lra; try exact Hstyle; auto.
Qed.

Lemma or_half_in_range (intensity : Q) :
  unit_range intensity -> unit_range (ElevenLabs.or_half intensity).
Proof.
  unfold unit_range, ElevenLabs.or_half. intros H.
  destruct (Qeq_bool intensity 0); [lra | exact H].
Qed.

(** X23. Emotion modulation keeps the settings in range: with a
    stability, a similarity boost and a style between 0 and 1 and an
    intensity between 0 and 1, the modulated settings are between 0 and 1
    again, for every emotion. *)
Theorem emotion_modulation_stays_in_range (base : VoiceSettings.t)
    (type : EmotionType) (intensity : Q) :
  settings_in_range base -> unit_range intensity ->
  settings_in_range (ElevenLabs.applyEmotionModulation base (felt type intensity)).
Proof.
  intros Hbase Hi. unfold ElevenLabs.applyEmotionModulation, felt.
  cbn [EmotionContext.type EmotionContext.intensity].
  pose proof (modulate_in_range base type Hbase) as (Hs & Hb & Hstyle).
  pose proof (or_half_in_range intensity Hi) as Hf.
  destruct (VoiceSettings.style (ElevenLabs.modulate base type)) as [style|] eqn:E.
  - destruct (Qeq_bool style 0).
    + unfold settings_in_range. rewrite E. auto.
    + unfold settings_in_range. cbn [VoiceSettings.stability VoiceSettings.similarity_boost
                                       VoiceSettings.style].
      split; [exact Hs|]. split; [exact Hb|].
      unfold unit_range in *. split; nra.
  - unfold settings_in_range. rewrite E. auto.
Qed.

Lemma emotion_modulation_stays_in_range_witness :
  settings_in_range (ElevenLabs.applyEmotionModulation ElevenLabs.getDefaultSettings
                       (felt anger (8 # 10))).
Proof.
  apply emotion_modulation_stays_in_range.
  - unfold settings_in_range, unit_range. simpl. lra.
  - unfold unit_range. lra.
Defined.

(** X24. What the intensity does.  A request without emotion keeps its
    settings.  An intensity of 0 acts as an intensity of 0.5, for every
    emotion.  The emotion [neutral], which changes neither the stability nor
    the similarity boost, still has the style multiplied by the intensity;
    and the speaker boost is the base one for every emotion but anger, which
    switches it on. *)
Theorem intensity_scales_the_style (base : VoiceSettings.t) :
  ElevenLabs.applyEmotionModulation base None = base
  /\ (forall type,
        ElevenLabs.applyEmotionModulation base (felt type 0)
        = ElevenLabs.applyEmotionModulation base (felt type (1 # 2)))
  /\ (forall intensity style,
        VoiceSettings.style base = Some style ->
        ~ (style == 0)%Q -> ~ (intensity == 0)%Q ->
        ElevenLabs.applyEmotionModulation base (felt neutral_emotion intensity)
        = {| VoiceSettings.stability := VoiceSettings.stability base;
             VoiceSettings.similarity_boost := VoiceSettings.similarity_boost base;
             VoiceSettings.style := Some (style * intensity)%Q;
             VoiceSettings.use_speaker_boost := VoiceSettings.use_speaker_boost base |})
  /\ forall type intensity,
      VoiceSettings.use_speaker_boost
        (ElevenLabs.applyEmotionModulation base (felt type intensity))
      = match type with
        | anger => Some true
        | _ => VoiceSettings.use_speaker_boost base
        end.
Proof.
  split; [reflexivity|]. split; [reflexivity|]. split.
  - intros intensity style Hstyle Hs Hi.
    unfold ElevenLabs.applyEmotionModulation, felt, ElevenLabs.or_half.
    cbn [EmotionContext.type EmotionContext.intensity ElevenLabs.modulate]. rewrite Hstyle.
    assert (Qeq_bool style 0 = false) as ->
        by (apply not_true_is_false; now rewrite Qeq_bool_iff).
    assert (Qeq_bool intensity 0 = false) as ->
        by (apply not_true_is_false; now rewrite Qeq_bool_iff).
    reflexivity.
  - intros type intensity. unfold ElevenLabs.applyEmotionModulation, felt.
    cbn [EmotionContext.type EmotionContext.intensity].
    destruct (VoiceSettings.style (ElevenLabs.modulate base type)) as [style|];
      [destruct (Qeq_bool style 0)|]; destruct type; reflexivity.
Qed.

(** X25. No emotion reaches the provider: for every unit that the
    segmenter makes of a book, the voice settings sent to ElevenLabs are
    exactly the settings of the unit's voice assignment. *)
Theorem settings_sent_are_the_assigned_ones (chapters : list Chapter.t)
    (unit : AudioSegment.t) (assignment : VoiceAssignment.t) :
  In unit (Segmenter.segmentChapters chapters) ->
  ElevenLabs.adjustedSettings (TTSOrchestrator.params_of unit assignment)
  = VoiceAssignment.voice_settings assignment.
Proof.
  intros Hin. apply segmentChapters_origin in Hin.
  destruct Hin as (c & index & paragraph & _ & ->). reflexivity.
Qed.

Lemma settings_sent_are_the_assigned_ones_witness :
  ElevenLabs.adjustedSettings
    (TTSOrchestrator.params_of
       (Segmenter.make_segment (chapter "ch1" said_paragraph) 0 said_paragraph)
       narrator_assignment)
  = default_settings.
Proof.
  apply (settings_sent_are_the_assigned_ones [chapter "ch1" said_paragraph]).
  vm_compute. left. reflexivity.
Defined.

(** * Polling PlayHT *)

Lemma poll_pending (get : nat -> result PollResponse.t) (remaining attempts : nat) :
  pending (get attempts) ->
  PlayHT.poll get (S remaining) attempts = PlayHT.poll get remaining (S attempts).
Proof.
  intros (response & E & Hc & Hf). cbn [PlayHT.poll]. rewrite E.
  apply String.eqb_neq in Hc, Hf. now rewrite Hc, Hf.
Qed.

Lemma poll_answer (get : nat -> result PollResponse.t) (remaining attempts : nat) :
  ~ pending (get attempts) ->
  PlayHT.poll get (S remaining) attempts = answer_at get attempts.
Proof.
  intros Hno. cbn [PlayHT.poll]. unfold answer_at.
  destruct (get attempts) as [response|message] eqn:E; [|reflexivity].
  destruct (String.eqb (PollResponse.status response) "complete") eqn:Hc; [reflexivity|].
  destruct (String.eqb (PollResponse.status response) "failed") eqn:Hf; [reflexivity|].
  exfalso. apply Hno. exists response. apply String.eqb_neq in Hc, Hf. auto.
Qed.

Lemma pending_dec (r : result PollResponse.t) : pending r \/ ~ pending r.
Proof.
  destruct r as [response|message].
  - destruct (String.eqb (PollResponse.status response) "complete") eqn:Hc.
    + right. intros (r' & [= <-] & H & _). apply String.eqb_eq in Hc. auto.
    + destruct (String.eqb (PollResponse.status response) "failed") eqn:Hf.
      * right. intros (r' & [= <-] & _ & H). apply String.eqb_eq in Hf. auto.
      * left. exists response. apply String.eqb_neq in Hc, Hf. auto.
  - right. intros (r' & [=] & _).
Qed.

Lemma poll_first (get : nat -> result PollResponse.t) (remaining : nat) :
  forall attempts k,
    attempts <= k < attempts + remaining ->
    (forall j, attempts <= j < k -> pending (get j)) ->
    ~ pending (get k) ->
    PlayHT.poll get remaining attempts = answer_at get k.
Proof.
  induction remaining as [|remaining IH]; intros attempts k Hk Hbefore Hno; [lia|].
  destruct (Nat.eq_dec attempts k) as [->|Hne].
  - now apply poll_answer.
  - rewrite poll_pending by (apply Hbefore; lia).
    apply IH; [lia | intros j Hj; apply Hbefore; lia | exact Hno].
Qed.

Lemma poll_timeout (get : nat -> result PollResponse.t) (remaining : nat) :
  forall attempts,
    (forall j, attempts <= j < attempts + remaining -> pending (get j)) ->
    PlayHT.poll get remaining attempts
    = {| PlayHT.Polled.outcome := Err "PlayHT generation timed out";
         PlayHT.Polled.requests := attempts + remaining;
         PlayHT.Polled.sleeps := attempts + remaining |}.
Proof.
  induction remaining as [|remaining IH]; intros attempts Hall.
  - cbn. now rewrite Nat.add_0_r.
  - rewrite poll_pending by (apply Hall; lia).
    rewrite IH by (intros j Hj; apply Hall; lia). f_equal; lia.
Qed.

Lemma poll_cases (get : nat -> result PollResponse.t) (remaining : nat) :
  forall attempts,
    (exists k,
        attempts <= k < attempts + remaining
        /\ (forall j, attempts <= j < k -> pending (get j))
        /\ ~ pending (get k))
    \/ (forall j, attempts <= j < attempts + remaining -> pending (get j)).
Proof.
  induction remaining as [|remaining IH]; intros attempts; [right; intros; lia|].
  destruct (pending_dec (get attempts)) as [Hp|Hno].
  - destruct (IH (S attempts)) as [(k & Hk & Hbefore & Hno)|Hall].
    + left. exists k. split; [lia|]. split; [|exact Hno].
      intros j Hj. destruct (Nat.eq_dec j attempts) as [->|]; [exact Hp | apply Hbefore; lia].
    + right. intros j Hj.
      destruct (Nat.eq_dec j attempts) as [->|]; [exact Hp | apply Hall; lia].
  - left. exists attempts. split; [lia|]. split; [intros; lia | exact Hno].
Qed.

(** X26. Polling asks for the status at most [maxAttempts] times and stops
    at the first answer that is not pending: a completed job gives its
    address, a failed one or a failed request gives an error, after one
    request more than there were sleeps.  When all [maxAttempts] answers are
    pending it gives up as timed out, having slept after each of them.  An
    address is only ever returned from an answer of status [complete]. *)
Theorem polling_stops_at_the_first_answer
    (get : nat -> result PollResponse.t) (maxAttempts : nat) :
  (forall k,
      k < maxAttempts -> (forall j, j < k -> pending (get j)) -> ~ pending (get k) ->
      PlayHT.pollForCompletion get maxAttempts = answer_at get k)
  /\ ((forall j, j < maxAttempts -> pending (get j)) ->
      PlayHT.pollForCompletion get maxAttempts
      = {| PlayHT.Polled.outcome := Err "PlayHT generation timed out";
           PlayHT.Polled.requests := maxAttempts;
           PlayHT.Polled.sleeps := maxAttempts |})
  /\ PlayHT.Polled.requests (PlayHT.pollForCompletion get maxAttempts) <= maxAttempts
  /\ PlayHT.Polled.sleeps (PlayHT.pollForCompletion get maxAttempts)
     <= PlayHT.Polled.requests (PlayHT.pollForCompletion get maxAttempts)
  /\ forall url,
      PlayHT.Polled.outcome (PlayHT.pollForCompletion get maxAttempts) = Ok url ->
      exists k response,
        k < maxAttempts /\ (forall j, j < k -> pending (get j))
        /\ get k = Ok response
        /\ PollResponse.status response = "complete"
        /\ PollResponse.output_url response = url.
Proof.
  unfold PlayHT.pollForCompletion.
  assert (forall k,
             k < maxAttempts -> (forall j, j < k -> pending (get j)) -> ~ pending (get k) ->
             PlayHT.poll get maxAttempts 0 = answer_at get k) as Hfirst.
  { intros k Hk Hbefore Hno. apply poll_first; [lia | intros; apply Hbefore; lia | exact Hno]. }
  assert ((forall j, j < maxAttempts -> pending (get j)) ->
          PlayHT.poll get maxAttempts 0
          = {| PlayHT.Polled.outcome := Err "PlayHT generation timed out";
               PlayHT.Polled.requests := maxAttempts;
               PlayHT.Polled.sleeps := maxAttempts |}) as Htimeout.
  { intros Hall. rewrite poll_timeout; [reflexivity|]. intros; apply Hall; lia. }
  split; [exact Hfirst|]. split; [exact Htimeout|].
  destruct (poll_cases get maxAttempts 0) as [(k & Hk & Hbefore & Hno)|Hall].
  - rewrite (Hfirst k); [|lia|intros; apply Hbefore; lia|exact Hno].
    cbn [answer_at PlayHT.Polled.requests PlayHT.Polled.sleeps PlayHT.Polled.outcome].
    split; [lia|]. split; [lia|].
    intros url E. destruct (get k) as [response|message] eqn:Eget; [|discriminate].
    destruct (String.eqb (PollResponse.status response) "complete") eqn:Hc; [|discriminate].
    injection E as <-. exists k, response. apply String.eqb_eq in Hc.
    split; [lia|]. split; [intros; apply Hbefore; lia|]. auto.
  - rewrite Htimeout by (intros; apply Hall; lia).
    cbn [PlayHT.Polled.requests PlayHT.Polled.sleeps PlayHT.Polled.outcome].
    split; [lia|]. split; [lia|]. discriminate.
Qed.

(** * Numbers from the environment *)

Lemma digit_of_pretty_char (d : N) :
  (d < 10)%N -> Config.digit (pretty_N_char d) = Some (Z.of_N d).
Proof.
  intros H.
  assert (d = 0 \/ d = 1 \/ d = 2 \/ d = 3 \/ d = 4 \/ d = 5 \/ d = 6 \/ d = 7 \/ d = 8
          \/ d = 9)%N as Hd by lia.
  repeat (destruct Hd as [->|Hd]; [reflexivity|]). subst. reflexivity.
Qed.

(** the digits printed for [x] are read back as [x] *)
Lemma digits_pretty_go (x : N) :
  exists k : Z,
    forall s acc seen,
      Config.digits acc seen (pretty_N_go x s)
      = Config.digits (acc * k + Z.of_N x)%Z (seen || (0 <? x)%N) s.
Proof.
  induction (N.lt_wf_0 x) as [x _ IH].
  destruct (N.eq_dec x 0%N) as [->|Hx].
  - exists 1%Z. intros s acc seen. rewrite pretty_N_go_0, orb_false_r. f_equal. lia.
  - destruct (IH (x / 10)%N) as [k Hk]; [apply N.div_lt; lia|].
    exists (10 * k)%Z. intros s acc seen.
    rewrite pretty_N_go_step by lia. rewrite Hk. cbn [Config.digits].
    rewrite digit_of_pretty_char by (apply N.mod_lt; lia).
    assert ((0 <? x)%N = true) as -> by (apply N.ltb_lt; lia). rewrite orb_true_r.
    f_equal. pose proof (N.div_mod x 10). lia.
Qed.

Lemma pretty_go_app (x : N) :
  forall s t, pretty_N_go x s +:+ t = pretty_N_go x (s +:+ t).
Proof.
  induction (N.lt_wf_0 x) as [x _ IH]. intros s t.
  destruct (N.eq_dec x 0%N) as [->|Hx]; [now rewrite !pretty_N_go_0|].
  rewrite (pretty_N_go_step x s), (pretty_N_go_step x (s +:+ t)) by lia.
  rewrite IH by (apply N.div_lt; lia). reflexivity.
Qed.

Lemma pretty_go_head (x : N) :
  (0 < x)%N ->
  forall s, exists c rest, pretty_N_go x s = String c rest /\ Config.digit c <> None.
Proof.
  induction (N.lt_wf_0 x) as [x _ IH]. intros Hx s.
  rewrite pretty_N_go_step by lia.
  destruct (N.eq_dec (x / 10)%N 0%N) as [E|Hne].
  - rewrite E, pretty_N_go_0. eexists _, _. split; [reflexivity|].
    rewrite digit_of_pretty_char by (apply N.mod_lt; lia). discriminate.
  - apply IH; [apply N.div_lt; lia | now apply N.neq_0_lt_0].
Qed.

Lemma digits_stop (acc : Z) (tail : string) :
  no_digit_first tail -> Config.digits acc true tail = Some acc.
Proof. destruct tail as [|c tail]; simpl; [reflexivity|]. now intros ->. Qed.

Lemma parseInt_digit_first (c : ascii) (rest : string) :
  Config.digit c <> None ->
  Config.parseInt (String c rest)
  = Config.to_number false (Config.digits 0 false (String c rest)).
Proof.
  intros H.
  destruct c as [[] [] [] [] [] [] [] []];
    try (exfalso; apply H; reflexivity); reflexivity.
Qed.

Lemma parseInt_pretty (n : N) (tail : string) :
  no_digit_first tail ->
  Config.parseInt (pretty n +:+ tail) = Config.to_number false (Some (Z.of_N n))
  /\ Js.truthy (pretty n +:+ tail) = true.
Proof.
  intros Htail. unfold pretty, pretty_N. case_decide as Hn.
  - subst. split; [|reflexivity].
    change ("0" +:+ tail) with (String "0" tail).
    rewrite parseInt_digit_first by discriminate.
    cbn [Config.digits]. change (Config.digit "0") with (Some 0%Z). cbv iota beta.
    change (10 * 0 + 0)%Z with 0%Z. now rewrite digits_stop.
  - rewrite pretty_go_app. change (EmptyString +:+ tail) with tail.
    destruct (pretty_go_head n ltac:(lia) tail) as (c & rest & E & Hc).
    split; [|now rewrite E].
    rewrite E. rewrite parseInt_digit_first by exact Hc. rewrite <- E.
    destruct (digits_pretty_go n) as [k Hk]. rewrite Hk.
    assert ((0 <? n)%N = true) as -> by (apply N.ltb_lt; lia).
    cbn [orb]. rewrite digits_stop by exact Htail. do 2 f_equal; lia.
Qed.

(** an integer of at most 53 bits, and [2 ^ 53], are doubles *)
Lemma nearest_double_exact (m : Z) :
  (0 < m <= 2 ^ 53)%Z -> Config.nearest_double m = Some m.
Proof.
  intros [Hpos Hle].
  destruct (Z.eq_dec m (2 ^ 53)%Z) as [->|Hne]; [vm_compute; reflexivity|].
  assert (Z.log2 m < 53)%Z as Hlog by (apply Z.log2_lt_pow2; lia).
  unfold Config.nearest_double.
  assert ((Z.log2 m <=? 52)%Z = true) as -> by (apply Z.leb_le; lia). reflexivity.
Qed.

Lemma to_number_exact (z : Z) :
  (0 <= z <= 2 ^ 53)%Z -> Config.to_number false (Some z) = Config.Num (inject_Z z).
Proof.
  intros H. unfold Config.to_number.
  destruct z as [|p|p]; [reflexivity| |lia].
  now rewrite nearest_double_exact by lia.
Qed.

(** the number read is a whole number *)
Lemma to_number_whole (negative : bool) (mathInt : option Z) (q : Q) :
  Config.to_number negative mathInt = Config.Num q -> exists z : Z, q = inject_Z z.
Proof.
  unfold Config.to_number. destruct mathInt as [[|p|p]|]; try discriminate.
  - destruct negative; [discriminate|]. intros [= <-]. now exists 0%Z.
  - destruct (Config.nearest_double _); [|discriminate]. intros [= <-]. eauto.
  - destruct (Config.nearest_double _); [|discriminate]. intros [= <-]. eauto.
Qed.

Lemma parseInt_whole (s : string) (q : Q) :
  Config.parseInt s = Config.Num q -> exists z : Z, q = inject_Z z.
Proof.
  unfold Config.parseInt.
  destruct (Js.trimStart s) as [|c rest]; [discriminate|].
  destruct c as [[] [] [] [] [] [] [] []]; apply to_number_whole.
Qed.

(** X27. A number of the configuration.  A variable that is not set, or
    set to the empty text, gives the default.  A variable set to the decimal
    digits of [n], alone or followed by anything that does not start with a
    digit, gives the double nearest to [n], which is [n] itself up to
    [2 ^ 53]: so "0" gives 0 and not the default, and of a decimal fraction
    only the whole part is kept.  Beyond, the number is rounded:
    9007199254740993 gives [2 ^ 53], four hundred nines give [Infinity];
    and "-0" gives [-0].  Whatever the variable holds, a finite number read
    is the default or a whole number. *)
Theorem numbers_from_the_environment (env : Config.environment) (key : string)
    (defaultValue : Q) :
  (env !! key = None \/ env !! key = Some EmptyString ->
   Config.getEnvNumber env key defaultValue = Config.Num defaultValue)
  /\ (forall (n : N) (tail : string),
         env !! key = Some (pretty n +:+ tail) -> no_digit_first tail ->
         Config.getEnvNumber env key defaultValue
         = Config.to_number false (Some (Z.of_N n))
         /\ ((n <= 2 ^ 53)%N ->
             Config.getEnvNumber env key defaultValue = Config.Num (inject_Z (Z.of_N n))))
  /\ (forall q,
         Config.getEnvNumber env key defaultValue = Config.Num q ->
         q = defaultValue \/ exists z : Z, q = inject_Z z)
  /\ (forall env',
         env' !! "ELEVENLABS_COST_PER_1K" = Some "0.30" ->
         Config.elevenlabs_costPer1K env' = Config.Num 0
         /\ Config.elevenlabs_costPer1K ∅ = Config.Num (30 # 100))
  /\ ((env !! key = Some "9007199254740993" ->
       Config.getEnvNumber env key defaultValue = Config.Num (inject_Z (2 ^ 53)))
      /\ (env !! key = Some (nines 400) ->
          Config.getEnvNumber env key defaultValue = Config.Infinity false)
      /\ (env !! key = Some "-0" ->
          Config.getEnvNumber env key defaultValue = Config.NegZero)
      /\ (env !! key = Some "-9007199254740995" ->
          Config.getEnvNumber env key defaultValue
          = Config.Num (inject_Z (- (2 ^ 53 + 4))))).
Proof.
  split; [|split; [|split; [|split]]].
  - unfold Config.getEnvNumber. intros [-> | ->]; reflexivity.
  - intros n tail Hv Htail. unfold Config.getEnvNumber. rewrite Hv.
    destruct (parseInt_pretty n tail Htail) as [-> ->]. split; [reflexivity|].
    intros Hn. apply to_number_exact.
    change (2 ^ 53)%Z with (Z.of_N (2 ^ 53)%N). lia.
  - intros q. unfold Config.getEnvNumber.
    destruct (env !! key) as [value|]; [|intros [= <-]; now left].
    destruct (Js.truthy value); [|intros [= <-]; now left].
    intros H. right. exact (parseInt_whole _ _ H).
  - intros env' Hv. unfold Config.elevenlabs_costPer1K, Config.getEnvNumber.
    rewrite Hv. split; reflexivity.
  - unfold Config.getEnvNumber. repeat split; intros ->.
    + assert (Config.parseInt "9007199254740993" = Config.Num (inject_Z (2 ^ 53))) as ->
          by (vm_compute; reflexivity). reflexivity.
    + assert (Js.truthy (nines 400) = true) as -> by (vm_compute; reflexivity).
      assert (Config.parseInt (nines 400) = Config.Infinity false) as ->
          by (vm_compute; reflexivity). reflexivity.
    + reflexivity.
    + assert (Config.parseInt "-9007199254740995"
              = Config.Num (inject_Z (- (2 ^ 53 + 4)))) as ->
          by (vm_compute; reflexivity). reflexivity.
Qed.
